(** * nocmodel: routing tables and the router transaction-level model

    A shallow embedding of the routing-table builder of [noc_base.py]
    ([all_shortest_paths], [router.update_routes_info],
    [router.update_ports_info]) and of the transaction-level router and ipcore
    models of [basicmodels/basic_router.py] and [basicmodels/basic_ipcore.py],
    and of the packet layout and packet maker of [protocol] in [noc_base.py],
    followed by the properties proved about them. *)

From stdpp Require Import gmultiset gmap list strings.
From Stdlib Require Import ZArith Lia.

#[local] Set Warnings "-clear-no-such-hyp".

Local Open Scope Z_scope.

(** ** Python outcomes

    A call either returns, raises, or (for a [while] loop run with a bounded
    number of iterations) has not finished yet. *)

Inductive exn :=
| KeyError | IndexError | ValueError | AttributeError | RuntimeError | NetworkXError.

Inductive outcome (A : Type) :=
| Done (a : A)
| Raised (e : exn)
| OutOfFuel.
Arguments Done {A} a.
Arguments Raised {A} e.
Arguments OutOfFuel {A}.

Definition obind {A B} (f : A -> outcome B) (m : outcome A) : outcome B :=
  match m with
  | Done a => f a
  | Raised e => Raised e
  | OutOfFuel => OutOfFuel
  end.

#[global] Instance outcome_ret : MRet outcome := @Done.
#[global] Instance outcome_bind : MBind outcome := @obind.

(** [d[k]] on a dict and [l[i]] on a list. *)
Definition getitem {K V} `{Countable K} (d : gmap K V) (k : K) : outcome V :=
  match d !! k with
  | Some v => Done v
  | None => Raised KeyError
  end.

Definition listitem {A} (l : list A) (i : nat) : outcome A :=
  match l !! i with
  | Some v => Done v
  | None => Raised IndexError
  end.

(** A [for] loop whose body may raise. *)
Fixpoint foldlM {A B} (f : A -> B -> outcome A) (l : list B) (a : A) : outcome A :=
  match l with
  | [] => Done a
  | x :: l' => a' ← f a x; foldlM f l' a'
  end.

(** ** noc_base.py *)
Module noc_base.

Definition node := Z.
Definition addr := Z.
Definition chan := Z.

(** An [ipcore] object: its [router_ref] and [channel_ref] attributes, [None]
    until they are set. *)
Record ipcore := {
  ip_router_ref : option node;
  ip_channel_ref : option chan
}.

(** What a channel's [endpoints] list may hold. *)
Inductive endpoint :=
| ep_router (r : node)
| ep_ipcore (ip : ipcore)
| ep_none.

(** The [noc] graph as the code reads it: [nodes] is the order of
    [nodes_iter()], [adj v] the neighbours of a node [v] of the graph in the
    order [G[v]] iterates them, [address v] is
    [node[v]["router_ref"].address], [edge_channel u v] is
    [edge[u][v]["channel_ref"]], [ipcore_ref v] the [ipcore_ref] attribute of the
    router at [v], and [endpoints c] the [endpoints] attribute of channel [c].
    [coord_x v] and [coord_y v] are the attributes of these names of the
    router at [v]: [router.__init__] does not set them, a router has them
    only when they were given as keyword arguments, so they are [None] for a
    router without the attribute.  A router is identified with its node:
    [router.index] is the node it is stored under. *)
Record noc := {
  nodes : list node;
  adj : node -> list node;
  address : node -> addr;
  edge_channel : node -> node -> option chan;
  ipcore_ref : node -> option ipcore;
  endpoints : chan -> list endpoint;
  coord_x : node -> option Z;
  coord_y : node -> option Z
}.

(** What [networkx.Graph] and [add_router_from_object] guarantee. *)
Record wf_noc (G : noc) : Prop := {
  wf_nodup : NoDup (nodes G);
  wf_closed : forall u v, u ∈ nodes G -> v ∈ adj G u -> v ∈ nodes G;
  wf_sym : forall u v, v ∈ adj G u -> u ∈ adj G v
}.

(** [router_list()] and [get_router_by_address]: the first router of the list
    with that address, [None] for Python's [False]. *)
Definition router_list (G : noc) : list node := nodes G.

Definition get_router_by_address (G : noc) (a : addr) : option node :=
  head (filter (fun r => address G r = a) (router_list G)).

(** *** networkx.predecessor

    The library routine [all_shortest_paths] calls, with its default
    arguments: a breadth-first search from [source], level by level.  [seen]
    maps a node to its level, [pred] to the list of its neighbours one level
    closer to the source, in the order they were met, and [nextlevel] is the
    list of the nodes met at the current level. *)
Record bfs_state := {
  seen : gmap node nat;
  pred : gmap node (list node);
  nextlevel : list node
}.

(** The body of [for w in G[v]]: a new node gets its level and [v] as only
    predecessor; a node already met at this level gets [v] as one more
    predecessor ([pred[w].append(v)]: [pred] has an entry for every node
    [seen] has one for, the two are filled together). *)
Definition bfs_visit (level : nat) (v : node) (st : bfs_state) (w : node) : bfs_state :=
  match seen st !! w with
  | None =>
      {| seen := <[w := level]> (seen st);
         pred := <[w := [v]]> (pred st);
         nextlevel := nextlevel st ++ [w] |}
  | Some l =>
      if decide (l = level)
      then {| seen := seen st;
              pred := alter (fun p => p ++ [v]) w (pred st);
              nextlevel := nextlevel st |}
      else st
  end.

(** The body of [while nextlevel]. *)
Definition bfs_level (G : noc) (level : nat) (st : bfs_state) : bfs_state :=
  fold_left (fun st v => fold_left (bfs_visit level v) (adj G v) st)
            (nextlevel st)
            {| seen := seen st; pred := pred st; nextlevel := [] |}.

Fixpoint bfs_loop (fuel : nat) (G : noc) (level : nat) (st : bfs_state)
  : outcome (gmap node (list node)) :=
  match nextlevel st with
  | [] => Done (pred st)
  | _ :: _ =>
      match fuel with
      | O => OutOfFuel
      | S fuel' => bfs_loop fuel' G (S level) (bfs_level G (S level) st)
      end
  end.

Definition bfs_init (source : node) : bfs_state :=
  {| seen := {[source := 0%nat]}; pred := {[source := []]}; nextlevel := [source] |}.

(** [G[source]] raises [KeyError] for a [source] that is not in the graph. *)
Definition predecessor (fuel : nat) (G : noc) (source : node)
  : outcome (gmap node (list node)) :=
  if decide (source ∈ nodes G) then bfs_loop fuel G 0 (bfs_init source)
  else Raised KeyError.

(** *** all_shortest_paths

    The stack [pth] of [[node, counter]] pairs is overwritten in place at
    [ind] and never shortened; [pthlength] is its length. *)
Record asp_state := {
  pth : list (node * nat);
  pthlength : Z;
  ind : Z;
  ret : list (list node)
}.

(** One iteration of [while ind >= 0]. *)
Definition asp_body (pred : gmap node (list node)) (b : node) (st : asp_state)
  : outcome asp_state :=
  '(n, i) ← listitem (pth st) (Z.to_nat (ind st));
  let ret' :=
    if decide (n = b)
    then ret st ++ [map fst (take (Z.to_nat (ind st + 1)) (pth st))]
    else ret st in
  pn ← getitem pred n;
  if decide (i < length pn)%nat then
    let ind' := ind st + 1 in
    c ← listitem pn i;
    if decide (ind' = pthlength st) then
      Done {| pth := pth st ++ [(c, 0%nat)]; pthlength := pthlength st + 1;
              ind := ind'; ret := ret' |}
    else
      if decide (Z.to_nat ind' < length (pth st))%nat then
        Done {| pth := <[Z.to_nat ind' := (c, 0%nat)]> (pth st);
                pthlength := pthlength st; ind := ind'; ret := ret' |}
      else Raised IndexError
  else
    let ind' := ind st - 1 in
    if decide (0 <= ind') then
      '(m, j) ← listitem (pth st) (Z.to_nat ind');
      Done {| pth := <[Z.to_nat ind' := (m, S j)]> (pth st);
              pthlength := pthlength st; ind := ind'; ret := ret' |}
    else
      Done {| pth := pth st; pthlength := pthlength st; ind := ind'; ret := ret' |}.

Fixpoint asp_loop (fuel : nat) (pred : gmap node (list node)) (b : node)
    (st : asp_state) : outcome (list (list node)) :=
  if decide (0 <= ind st) then
    match fuel with
    | O => OutOfFuel
    | S fuel' => st' ← asp_body pred b st; asp_loop fuel' pred b st'
    end
  else Done (ret st).

Definition asp_init (a : node) : asp_state :=
  {| pth := [(a, 0%nat)]; pthlength := 1; ind := 0; ret := [] |}.

Definition all_shortest_paths (fuel : nat) (G : noc) (a b : node)
  : outcome (list (list node)) :=
  pred ← predecessor fuel G b;
  match pred !! a with
  | None => Done []
  | Some _ => asp_loop fuel pred b (asp_init a)
  end.

(** *** router.update_routes_info *)
Record route_entry := {
  next : addr;
  paths : list (list addr)
}.

(** The body of [for route in shortest_r_addr]: every entry whose ["next"] is
    [route[1]] gets the route appended, and a new entry is appended when there
    was none. *)
Definition add_route (entries : list route_entry) (route : list addr)
  : outcome (list route_entry) :=
  match route with
  | _ :: r1 :: _ =>
      let entries' :=
        map (fun e => if decide (r1 = next e)
                      then {| next := next e; paths := paths e ++ [route] |}
                      else e) entries in
      let newroute := forallb (fun e => negb (bool_decide (r1 = next e))) entries in
      Done (if newroute
            then entries' ++ [{| next := r1; paths := [route] |}]
            else entries')
  | _ => Raised IndexError
  end.

(** The body of [for destrouter in self.graph_ref.router_list()]. *)
Definition routes_to (fuel : nat) (G : noc) (self dest : node)
  : outcome (list route_entry) :=
  shortest_routes ← all_shortest_paths fuel G self dest;
  let shortest_r_addr := map (map (address G)) shortest_routes in
  foldlM add_route shortest_r_addr [].

Definition update_routes_info (fuel : nat) (G : noc) (self : node)
    (routes_info : gmap node (list route_entry))
  : outcome (gmap node (list route_entry)) :=
  let cleared : gmap node (list route_entry) := ∅ in
  foldlM (fun tbl destrouter =>
            if decide (destrouter = self) then Done tbl
            else entries ← routes_to fuel G self destrouter;
                 Done (<[destrouter := entries]> tbl))
         (router_list G) cleared.

(** *** router.update_ports_info

    A port dictionary holds ["peer"] and ["channel"]; the ipcore's
    [channel_ref] may still be [None]. *)
Record port := {
  peer : endpoint;
  channel : option chan
}.

(** The port definitions: the ports of the neighbours, then the port of the
    ipcore.  [ports] is the router's dictionary before the call; the result
    is the dictionary and [updated_addr] when the clean-up begins. *)
Definition port_definitions (G : noc) (self : node) (ports : gmap addr port)
  : outcome (gmap addr port * list addr) :=
  let localhash := address G self in
  if decide (localhash ∈ nodes G) then
    '(ports, updated_addr) ←
      foldlM (fun '(ports, updated_addr) neighborhash =>
                let neighbor := neighborhash in
                match edge_channel G localhash neighborhash with
                | None => Raised KeyError
                | Some ch_ref =>
                    Done (<[address G neighbor :=
                              {| peer := ep_router neighbor; channel := Some ch_ref |}]> ports,
                          updated_addr ++ [address G neighbor])
                end)
             (adj G localhash) (ports, [address G self]);
    match ipcore_ref G self with
    | None => Raised AttributeError
    | Some ip =>
        Done (<[address G self := {| peer := ep_ipcore ip; channel := ip_channel_ref ip |}]> ports,
              updated_addr)
    end
  else Raised NetworkXError.

(** The clean-up, [for deleted in keys: if deleted not in updated_addr:
    del self.ports[deleted]], where [keys] is the key iterator of the
    dictionary itself.  Before every step, also the one that would find it
    exhausted, the iterator compares the size of the dictionary with the
    size it had at the start and raises [RuntimeError] when they differ: the
    first [del] is carried out, and the loop ends at the step after it.
    [keys] lists the keys in the order of the iterator; the result is the
    outcome of the loop and the dictionary it leaves. *)
Fixpoint clean_deleted (keys updated_addr : list addr) (ports : gmap addr port)
  : outcome () * gmap addr port :=
  match keys with
  | [] => (Done (), ports)
  | deleted :: keys' =>
      if decide (deleted ∈ updated_addr)
      then clean_deleted keys' updated_addr ports
      else (Raised RuntimeError, delete deleted ports)
  end.

(** [update_ports_info] as a function of the dictionary it is called on: the
    clean-up returns, having deleted nothing, when every key is in
    [updated_addr], and raises [RuntimeError] otherwise, in whatever order
    the keys come. *)
Definition update_ports_info (G : noc) (self : node) (ports : gmap addr port)
  : outcome (gmap addr port) :=
  '(ports, updated_addr) ← port_definitions G self ports;
  if decide (map_Forall (fun deleted _ => deleted ∈ updated_addr) ports)
  then Done ports
  else Raised RuntimeError.

(** *** Paths, distances and next-hop chains

    The notions the routing properties are stated with. *)

(** [walk G a b k]: there are [k] consecutive edges leading from [a] to [b]. *)
Inductive walk (G : noc) : node -> node -> nat -> Prop :=
| walk_O v : walk G v v 0
| walk_S u v w k : v ∈ adj G u -> walk G v w k -> walk G u w (S k).

Definition shortest_dist (G : noc) (a b : node) (d : nat) : Prop :=
  walk G a b d /\ forall k, walk G a b k -> (d <= k)%nat.

(** The paths the stack walk of [all_shortest_paths] lists from [n], for a
    predecessor map whose chains are at most [depth] long. *)
Fixpoint enum_paths (depth : nat) (pred : gmap node (list node)) (b n : node)
  : list (list node) :=
  if decide (n = b) then [[n]]
  else match depth with
       | O => []
       | S depth' =>
           flat_map (fun c => map (cons n) (enum_paths depth' pred b c))
                    (default [] (pred !! n))
       end.

(** The values of a list without repetition, each at its first position. *)
Fixpoint first_occurrences (l : list addr) : list addr :=
  match l with
  | [] => []
  | x :: l' => x :: filter (fun y => y ≠ x) (first_occurrences l')
  end.

(** [route[1]], when the route has it. *)
Definition second (route : list addr) : option addr := route !! 1%nat.

(** What the entries of a destination are once the routes [done] have been
    added: one entry per first hop, in the order the first hops were first
    met, each with the routes of that first hop, in the order of [done]. *)
Definition grouped (done : list (list addr)) (entries : list route_entry) : Prop :=
  Forall (fun r => is_Some (second r)) done /\
  map next entries = first_occurrences (omap second done) /\
  Forall (fun e => paths e = filter (fun r => second r = Some (next e)) done) entries.

(** *** The breadth-first search, level by level *)

(** The nodes of the graph the search has not met yet. *)
Definition unseen (G : noc) (st : bfs_state) : nat :=
  length (filter (fun n => seen st !! n = None) (nodes G)).

(** The search from [source] when the levels up to [level] are complete:
    every node met has a level, [nextlevel] holds the nodes of the last level,
    the neighbours of the nodes of the earlier levels have been met, and the
    predecessors of a node are neighbours of it one level up. *)
Record bfs_inv (G : noc) (source : node) (level : nat) (st : bfs_state) : Prop := {
  inv_source : seen st !! source = Some 0%nat /\ pred st !! source = Some [];
  inv_zero : forall n, seen st !! n = Some 0%nat -> n = source;
  inv_level : forall n j, seen st !! n = Some j -> (j <= level)%nat;
  inv_frontier : forall n, seen st !! n = Some level <-> n ∈ nextlevel st;
  inv_closed : forall u j w, seen st !! u = Some j -> (j < level)%nat -> w ∈ adj G u ->
    exists i, seen st !! w = Some i /\ (i <= S j)%nat;
  inv_pred : forall n j, seen st !! n = Some (S j) ->
    exists c l, pred st !! n = Some (c :: l) /\
      forall v, v ∈ c :: l -> seen st !! v = Some j /\ n ∈ adj G v;
  inv_nodes : forall n, is_Some (seen st !! n) -> n ∈ nodes G;
  inv_dom : forall n, is_Some (pred st !! n) -> is_Some (seen st !! n)
}.

(** The search while the nodes of level [level] are being expanded, [st0]
    being the state when that level was complete. *)
Record level_inv (G : noc) (source : node) (level : nat) (st0 st : bfs_state) : Prop := {
  lv_source : seen st !! source = Some 0%nat /\ pred st !! source = Some [];
  lv_zero : forall n, seen st !! n = Some 0%nat -> n = source;
  lv_level : forall n j, seen st !! n = Some j -> (j <= S level)%nat;
  lv_frontier : forall n, seen st !! n = Some (S level) <-> n ∈ nextlevel st;
  lv_old : forall n j, (j <= level)%nat ->
    (seen st !! n = Some j <-> seen st0 !! n = Some j);
  lv_pred : forall n j, seen st !! n = Some (S j) ->
    exists c l, pred st !! n = Some (c :: l) /\
      forall v, v ∈ c :: l -> seen st !! v = Some j /\ n ∈ adj G v;
  lv_nodes : forall n, is_Some (seen st !! n) -> n ∈ nodes G;
  lv_dom : forall n, is_Some (pred st !! n) -> is_Some (seen st !! n);
  lv_measure : (length (nextlevel st) + unseen G st <= unseen G st0)%nat
}.

(** What the search leaves when it ends: [levels] gives every node met its
    level and [preds] its predecessors. *)
Record bfs_tree (G : noc) (source : node) (levels : gmap node nat)
    (preds : gmap node (list node)) : Prop := {
  tree_source : levels !! source = Some 0%nat /\ preds !! source = Some [];
  tree_zero : forall n, levels !! n = Some 0%nat -> n = source;
  tree_closed : forall u j w, levels !! u = Some j -> w ∈ adj G u ->
    exists i, levels !! w = Some i /\ (i <= S j)%nat;
  tree_pred : forall n j, levels !! n = Some (S j) ->
    exists c l, preds !! n = Some (c :: l) /\
      forall v, v ∈ c :: l -> levels !! v = Some j /\ n ∈ adj G v;
  tree_dom : forall n, is_Some (preds !! n) -> is_Some (levels !! n)
}.

(** *** The stack walk of [all_shortest_paths], position by position *)

(** The loop at position [length stk] of the stack, which holds the node [n]
    with counter [i] there, [stk] below and the left-overs [rest] above. *)
Definition asp_at (stk : list (node * nat)) (n : node) (i : nat)
    (rest : list (node * nat)) (ret : list (list node)) : asp_state :=
  {| pth := stk ++ (n, i) :: rest;
     pthlength := Z.of_nat (length (stk ++ (n, i) :: rest));
     ind := Z.of_nat (length stk);
     ret := ret |}.

(** The loop after it has stepped back from position [length stk]: the
    counter of the top of [stk] is one more. *)
Definition asp_up (stk tl : list (node * nat)) (ret : list (list node)) : asp_state :=
  {| pth := alter (fun mi => (mi.1, S mi.2)) (Nat.pred (length stk)) stk ++ tl;
     pthlength := Z.of_nat (length (stk ++ tl));
     ind := Z.of_nat (length stk) - 1;
     ret := ret |}.

(** [st'] is what the loop started in [st] comes to after some iterations. *)
Definition asp_reaches (pred : gmap node (list node)) (b : node)
    (st st' : asp_state) : Prop :=
  exists fuel, forall fuel',
    asp_loop (fuel + fuel') pred b st = asp_loop fuel' pred b st'.

(** More iterations never change a result already returned. *)
Definition fuel_mono {A} (F : nat -> outcome A) : Prop :=
  forall fuel fuel' a, F fuel = Done a -> (fuel <= fuel')%nat -> F fuel' = Done a.

(** Follow the preferred next hop, router by router: at router [cur], take
    [routes_info[dst][0]["next"]] of the table [update_routes_info] builds
    there and move to the router with that address.  The routers visited. *)
Fixpoint next_hop_chain (hops fuel : nat) (G : noc) (cur dst : node)
  : outcome (list node) :=
  if decide (cur = dst) then Done [cur]
  else match hops with
       | O => OutOfFuel
       | S hops' =>
           routes_info ← update_routes_info fuel G cur ∅;
           entries ← getitem routes_info dst;
           e ← listitem entries 0;
           match get_router_by_address G (next e) with
           | None => Raised KeyError
           | Some r => rest ← next_hop_chain hops' fuel G r dst; Done (cur :: rest)
           end
       end.

End noc_base.

(** ** myhdl signals: the current value and the pending one *)
Module myhdl.

Record Signal (A : Type) := {
  val : A;
  next : A
}.
Arguments val {A} s.
Arguments next {A} s.

(** [myhdl.Signal(v)]. *)
Definition new {A} (v : A) : Signal A := {| val := v; next := v |}.

(** [sig.next = v]. *)
Definition set_next {A} (s : Signal A) (v : A) : Signal A :=
  {| val := val s; next := v |}.

(** What the kernel does with a signal at the end of a delta cycle. *)
Definition commit {A} (s : Signal A) : Signal A :=
  {| val := next s; next := next s |}.

End myhdl.

(** ** noc_tlm_base.py: the error codes *)
Module noc_tlm_errcodes.
Definition no_error : Z := 0.
Definition full_fifo : Z := -1.
Definition packet_bad_data : Z := -2.
Definition tlm_badcall_recv : Z := -3.
Definition tlm_badcall_send : Z := -4.
Definition not_implemented : Z := -5.
End noc_tlm_errcodes.

(** A packet is a dictionary from field names to values. *)
Definition packet := gmap string Z.

(** The objects [send] and [recv] are called with. *)
Inductive pyobj :=
| PyInt (z : Z)
| PyRouter (r : noc_base.node)
| PyChannel (c : noc_base.chan)
| PyIpcore (ip : noc_base.ipcore)
| PyNone.

(** [l[i]] with Python's negative indices. *)
Definition pyindex {A} (l : list A) (i : Z) : outcome A :=
  if decide (0 <= i) then listitem l (Z.to_nat i)
  else if decide (0 <= Z.of_nat (length l) + i)
       then listitem l (Z.to_nat (Z.of_nat (length l) + i))
       else Raised IndexError.

(** [l.index(x)]. *)
Fixpoint list_index {A} `{EqDecision A} (x : A) (l : list A) : outcome Z :=
  match l with
  | [] => Raised ValueError
  | y :: l' => if decide (y = x) then Done 0 else i ← list_index x l'; Done (i + 1)
  end.

#[global] Instance ipcore_eq_dec : EqDecision noc_base.ipcore.
Proof. solve_decision. Defined.
#[global] Instance endpoint_eq_dec : EqDecision noc_base.endpoint.
Proof. solve_decision. Defined.

(** [data["channel"]] as an argument. *)
Definition chan_obj (c : option noc_base.chan) : pyobj :=
  match c with
  | Some c => PyChannel c
  | None => PyNone
  end.

(** ** basicmodels/basic_router.py *)
Module basic_router_tlm.

(** An entry of [ports_info]: the router's port with the FIFOs and event
    signals the constructor adds. *)
Record tlm_port := {
  peer : noc_base.endpoint;
  channel : option noc_base.chan;
  fifo_in : list packet;
  fifo_out : list packet;
  fifo_in_event : myhdl.Signal bool;
  fifo_out_event : myhdl.Signal bool
}.

Record t := {
  router_ref : noc_base.node;
  graph_ref : noc_base.noc;
  fifo_len : Z;
  delay_route : Z;
  delay_outfromfifo : Z;
  delay_ipcorebus : Z;
  myaddress : noc_base.addr;
  mynodecoord : Z * Z;
  ports_info : gmap noc_base.addr tlm_port;
  routingtable : gmap noc_base.addr (list noc_base.addr)
}.

Definition set_port (self : t) (k : noc_base.addr) (data : tlm_port) : t :=
  {| router_ref := router_ref self; graph_ref := graph_ref self;
     fifo_len := fifo_len self; delay_route := delay_route self;
     delay_outfromfifo := delay_outfromfifo self;
     delay_ipcorebus := delay_ipcorebus self; myaddress := myaddress self;
     mynodecoord := mynodecoord self;
     ports_info := <[k := data]> (ports_info self);
     routingtable := routingtable self |}.

Definition new_port (p : noc_base.port) : tlm_port :=
  {| peer := noc_base.peer p; channel := noc_base.channel p;
     fifo_in := []; fifo_out := [];
     fifo_in_event := myhdl.new false; fifo_out_event := myhdl.new false |}.

(** [router_ref.coord_x] and [router_ref.coord_y]: reading an attribute the
    object does not have raises [AttributeError]. *)
Definition getattr {A} (a : option A) : outcome A :=
  match a with
  | Some v => Done v
  | None => Raised AttributeError
  end.

(** [__init__], up to the creation of the two processes.  [ports] and
    [routes_info] are the router object's dictionaries before the call. *)
Definition init (fuel : nat) (G : noc_base.noc) (router_ref : noc_base.node)
    (fifo_len : Z) (ports : gmap noc_base.addr noc_base.port)
    (routes_info : gmap noc_base.node (list noc_base.route_entry)) : outcome t :=
  let myaddress := noc_base.address G router_ref in
  coord_x ← getattr (noc_base.coord_x G router_ref);
  coord_y ← getattr (noc_base.coord_y G router_ref);
  let mynodecoord := (coord_x, coord_y) in
  ports ← noc_base.update_ports_info G router_ref ports;
  let ports_info := new_port <$> ports in
  detailed_routingtable ← noc_base.update_routes_info fuel G router_ref routes_info;
  let routingtable := map noc_base.next <$> detailed_routingtable in
  let routingtable := <[myaddress := [myaddress]]> routingtable in
  Done {| router_ref := router_ref; graph_ref := G; fifo_len := fifo_len;
          delay_route := 5; delay_outfromfifo := 2; delay_ipcorebus := 1;
          myaddress := myaddress; mynodecoord := mynodecoord;
          ports_info := ports_info; routingtable := routingtable |}.

(** The conversion of [src] to an address at the head of [recv]:
    [Done None] stands for the two [return tlm_badcall_recv]. *)
Definition recv_thesrc (self : t) (src : pyobj) : outcome (option noc_base.addr) :=
  let G := graph_ref self in
  match src with
  | PyInt z => Done (Some z)
  | PyRouter r => Done (Some (noc_base.address G r))
  | PyChannel c =>
      i ← list_index (noc_base.ep_router (router_ref self)) (noc_base.endpoints G c);
      let src_index := i - 1 in
      theend ← pyindex (noc_base.endpoints G c) src_index;
      match theend with
      | noc_base.ep_router r => Done (Some (noc_base.address G r))
      | noc_base.ep_ipcore ip =>
          match noc_base.ip_router_ref ip with
          | Some r => Done (Some (noc_base.address G r))
          | None => Raised AttributeError
          end
      | noc_base.ep_none => Done None
      end
  | _ => Done None
  end.

(** [recv]: the return code or exception, and the router afterwards. *)
Definition recv (self : t) (src dest : pyobj) (packet : packet)
    (addattrs : option (gmap string Z)) : outcome Z * t :=
  match recv_thesrc self src with
  | Raised e => (Raised e, self)
  | OutOfFuel => (OutOfFuel, self)
  | Done None => (Done noc_tlm_errcodes.tlm_badcall_recv, self)
  | Done (Some thesrc) =>
      match ports_info self !! thesrc with
      | None => (Raised KeyError, self)
      | Some data =>
          if decide (Z.of_nat (length (fifo_in data)) = fifo_len self)
          then (Done noc_tlm_errcodes.full_fifo, self)
          else
            (Done noc_tlm_errcodes.no_error,
             set_port self thesrc
               {| peer := peer data; channel := channel data;
                  fifo_in := fifo_in data ++ [packet];
                  fifo_out := fifo_out data;
                  fifo_in_event := myhdl.set_next (fifo_in_event data) true;
                  fifo_out_event := fifo_out_event data |})
      end
  end.

(** [routing_loop] between two suspensions: the packet is popped and its next
    hop looked up (then the process waits [delay_route]) ... *)
Definition routing_take (self : t) (port : noc_base.addr)
  : outcome (t * packet * noc_base.addr) :=
  data ← getitem (ports_info self) port;
  match fifo_in data with
  | [] => Raised IndexError
  | packet :: rest =>
      let self' :=
        set_port self port
          {| peer := peer data; channel := channel data;
             fifo_in := rest; fifo_out := fifo_out data;
             fifo_in_event := myhdl.set_next (fifo_in_event data) false;
             fifo_out_event := fifo_out_event data |} in
      destaddr ← getitem packet "dst"%string;
      route ← getitem (routingtable self) destaddr;
      nextaddr ← listitem route 0;
      Done (self', packet, nextaddr)
  end.

(** ... and then appended to the output FIFO of the next hop's port. *)
Definition routing_put (self : t) (packet : packet) (nextaddr : noc_base.addr)
  : outcome t :=
  data ← getitem (ports_info self) nextaddr;
  Done (set_port self nextaddr
          {| peer := peer data; channel := channel data;
             fifo_in := fifo_in data; fifo_out := fifo_out data ++ [packet];
             fifo_in_event := fifo_in_event data;
             fifo_out_event := myhdl.set_next (fifo_out_event data) true |}).

(** [flush_fifo_out] between two suspensions: the packet is popped (then the
    process waits [delay_outfromfifo]) ... *)
Definition flush_take (self : t) (port : noc_base.addr) : outcome (t * packet) :=
  data ← getitem (ports_info self) port;
  match fifo_out data with
  | [] => Raised IndexError
  | packet :: rest =>
      Done (set_port self port
              {| peer := peer data; channel := channel data;
                 fifo_in := fifo_in data; fifo_out := rest;
                 fifo_in_event := fifo_in_event data;
                 fifo_out_event := fifo_out_event data |},
            packet)
  end.

(** ... and what follows [retval = self.send(...)]. *)
Definition flush_result (self : t) (port : noc_base.addr) (packet : packet)
    (retval : Z) : outcome t :=
  data ← getitem (ports_info self) port;
  if decide (retval = noc_tlm_errcodes.no_error) then
    Done (set_port self port
            {| peer := peer data; channel := channel data;
               fifo_in := fifo_in data; fifo_out := fifo_out data;
               fifo_in_event := fifo_in_event data;
               fifo_out_event := myhdl.set_next (fifo_out_event data) false |})
  else
    Done (set_port self port
            {| peer := peer data; channel := channel data;
               fifo_in := fifo_in data; fifo_out := fifo_out data ++ [packet];
               fifo_in_event := fifo_in_event data;
               fifo_out_event := fifo_out_event data |}).

Definition commit_port (data : tlm_port) : tlm_port :=
  {| peer := peer data; channel := channel data;
     fifo_in := fifo_in data; fifo_out := fifo_out data;
     fifo_in_event := myhdl.commit (fifo_in_event data);
     fifo_out_event := myhdl.commit (fifo_out_event data) |}.

Definition commit_signals (self : t) : t :=
  {| router_ref := router_ref self; graph_ref := graph_ref self;
     fifo_len := fifo_len self; delay_route := delay_route self;
     delay_outfromfifo := delay_outfromfifo self;
     delay_ipcorebus := delay_ipcorebus self; myaddress := myaddress self;
     mynodecoord := mynodecoord self;
     ports_info := commit_port <$> ports_info self;
     routingtable := routingtable self |}.

(** The rest of the simulation, as far as the router sees it: [W] is its
    state and [channel_recv c] the [recv] of the model attached to channel
    [c] ([c.tlm.recv]). *)
Section world.
Context {W : Type}.
Variable channel_recv :
  noc_base.chan -> pyobj -> pyobj -> packet -> option (gmap string Z) -> W -> outcome Z * W.

(** The resolution of [dest] at the head of [send]: [Done None] stands for
    the two [return tlm_badcall_send]. *)
Definition send_thedest (self : t) (dest : pyobj)
  : outcome (option (option noc_base.chan)) :=
  let G := graph_ref self in
  match dest with
  | PyInt z =>
      match noc_base.get_router_by_address G z with
      | None => Done None
      | Some therouter =>
          data ← getitem (ports_info self) (noc_base.address G therouter);
          Done (Some (channel data))
      end
  | PyRouter r =>
      data ← getitem (ports_info self) (noc_base.address G r);
      Done (Some (channel data))
  | PyChannel c => Done (Some (Some c))
  | _ => Done None
  end.

Definition send (self : t) (src dest : pyobj) (packet : packet)
    (addattrs : option (gmap string Z)) (w : W) : outcome Z * W :=
  match send_thedest self dest with
  | Raised e => (Raised e, w)
  | OutOfFuel => (OutOfFuel, w)
  | Done None => (Done noc_tlm_errcodes.tlm_badcall_send, w)
  | Done (Some None) => (Raised AttributeError, w)
  | Done (Some (Some thedest)) =>
      channel_recv thedest (PyRouter (router_ref self)) (PyChannel thedest)
                   packet addattrs w
  end.

(** After the delay, [flush_fifo_out] sends the packet it holds to the
    port's channel and acts on the return code. *)
Definition flush_send (self : t) (port : noc_base.addr) (packet : packet) (w : W)
  : outcome (t * W) :=
  data ← getitem (ports_info self) port;
  match send self (PyRouter (router_ref self)) (chan_obj (channel data)) packet None w with
  | (Done retval, w') => self' ← flush_result self port packet retval; Done (self', w')
  | (Raised e, _) => Raised e
  | (OutOfFuel, _) => OutOfFuel
  end.

(** *** The router inside a simulation

    The router, the rest of the simulation, and what each of the two
    processes holds while it is suspended on a delay. *)
Record sim := {
  tlm : t;
  world : W;
  routing_hold : option (packet * noc_base.addr);
  flush_hold : option (noc_base.addr * packet)
}.

(** What can happen to the router between two suspensions. *)
Inductive action :=
| do_recv (src dest : pyobj) (p : packet) (addattrs : option (gmap string Z))
| do_routing_take (port : noc_base.addr)
| do_routing_put
| do_flush_take (port : noc_base.addr)
| do_flush_send
| do_commit
| do_env (w : W).

Definition of_outcome {A} (o : outcome A) : option A :=
  match o with
  | Done a => Some a
  | _ => None
  end.

(** One action; [None] when the action is not possible in this state or an
    exception ends the simulation. *)
Definition step (s : sim) (a : action) : option sim :=
  match a with
  | do_recv src dest p addattrs =>
      match recv (tlm s) src dest p addattrs with
      | (Done _, self') =>
          Some {| tlm := self'; world := world s;
                  routing_hold := routing_hold s; flush_hold := flush_hold s |}
      | _ => None
      end
  | do_routing_take port =>
      match routing_hold s with
      | Some _ => None
      | None =>
          '(self', p, nextaddr) ← of_outcome (routing_take (tlm s) port);
          Some {| tlm := self'; world := world s;
                  routing_hold := Some (p, nextaddr); flush_hold := flush_hold s |}
      end
  | do_routing_put =>
      '(p, nextaddr) ← routing_hold s;
      self' ← of_outcome (routing_put (tlm s) p nextaddr);
      Some {| tlm := self'; world := world s;
              routing_hold := None; flush_hold := flush_hold s |}
  | do_flush_take port =>
      match flush_hold s with
      | Some _ => None
      | None =>
          '(self', p) ← of_outcome (flush_take (tlm s) port);
          Some {| tlm := self'; world := world s;
                  routing_hold := routing_hold s; flush_hold := Some (port, p) |}
      end
  | do_flush_send =>
      '(port, p) ← flush_hold s;
      '(self', w') ← of_outcome (flush_send (tlm s) port p (world s));
      Some {| tlm := self'; world := w';
              routing_hold := routing_hold s; flush_hold := None |}
  | do_commit =>
      Some {| tlm := commit_signals (tlm s); world := world s;
              routing_hold := routing_hold s; flush_hold := flush_hold s |}
  | do_env w =>
      Some {| tlm := tlm s; world := w;
              routing_hold := routing_hold s; flush_hold := flush_hold s |}
  end.

Fixpoint run (s : sim) (l : list action) : option sim :=
  match l with
  | [] => Some s
  | a :: l' => s' ← step s a; run s' l'
  end.

(** The simulation starts with the router as constructed and both processes
    at the top of their loops. *)
Definition start (self : t) (w : W) : sim :=
  {| tlm := self; world := w; routing_hold := None; flush_hold := None |}.

(** *** When an exception ends the simulation

    An exception raised inside a process or a call passes through the
    kernel and ends the simulation; the objects stay as they were when it
    was raised.  [routing_loop] pops the packet and clears the event signal
    before it evaluates [packet["dst"]] and [self.routingtable[destaddr][0]]:
    [routing_pop] is the router these two lookups leave when they raise. *)
Definition routing_pop (self : t) (port : noc_base.addr) : outcome (t * packet) :=
  data ← getitem (ports_info self) port;
  match fifo_in data with
  | [] => Raised IndexError
  | packet :: rest =>
      Done (set_port self port
              {| peer := peer data; channel := channel data;
                 fifo_in := rest; fifo_out := fifo_out data;
                 fifo_in_event := myhdl.set_next (fifo_in_event data) false;
                 fifo_out_event := fifo_out_event data |},
            packet)
  end.

(** What an action leads to: the simulation goes on, or an exception ends
    it. *)
Inductive result :=
| Goes (s : sim)
| Ends (e : exn) (s : sim).

(** One action, with the state an exception leaves: the packet a process
    held in a local variable is gone with the process ([routing_loop] after
    the pop or after the delay, [flush_fifo_out] when [send] raises); a
    [recv] that raises has changed nothing.  [None] when the action is not
    possible in this state: a process that is suspended elsewhere, a FIFO
    that is empty. *)
Definition exec (s : sim) (a : action) : option result :=
  match a with
  | do_recv src dest p addattrs =>
      match recv (tlm s) src dest p addattrs with
      | (Done _, self') =>
          Some (Goes {| tlm := self'; world := world s;
                        routing_hold := routing_hold s; flush_hold := flush_hold s |})
      | (Raised e, self') =>
          Some (Ends e {| tlm := self'; world := world s;
                          routing_hold := routing_hold s; flush_hold := flush_hold s |})
      | (OutOfFuel, _) => None
      end
  | do_routing_take port =>
      match routing_hold s with
      | Some _ => None
      | None =>
          '(popped, _) ← of_outcome (routing_pop (tlm s) port);
          match routing_take (tlm s) port with
          | Done (self', p, nextaddr) =>
              Some (Goes {| tlm := self'; world := world s;
                            routing_hold := Some (p, nextaddr);
                            flush_hold := flush_hold s |})
          | Raised e =>
              Some (Ends e {| tlm := popped; world := world s;
                              routing_hold := None; flush_hold := flush_hold s |})
          | OutOfFuel => None
          end
      end
  | do_routing_put =>
      '(p, nextaddr) ← routing_hold s;
      match routing_put (tlm s) p nextaddr with
      | Done self' =>
          Some (Goes {| tlm := self'; world := world s;
                        routing_hold := None; flush_hold := flush_hold s |})
      | Raised e =>
          Some (Ends e {| tlm := tlm s; world := world s;
                          routing_hold := None; flush_hold := flush_hold s |})
      | OutOfFuel => None
      end
  | do_flush_take port =>
      match flush_hold s with
      | Some _ => None
      | None =>
          '(self', p) ← of_outcome (flush_take (tlm s) port);
          Some (Goes {| tlm := self'; world := world s;
                        routing_hold := routing_hold s; flush_hold := Some (port, p) |})
      end
  | do_flush_send =>
      '(port, p) ← flush_hold s;
      data ← ports_info (tlm s) !! port;
      match send (tlm s) (PyRouter (router_ref (tlm s))) (chan_obj (channel data)) p None
                 (world s) with
      | (Done retval, w') =>
          self' ← of_outcome (flush_result (tlm s) port p retval);
          Some (Goes {| tlm := self'; world := w';
                        routing_hold := routing_hold s; flush_hold := None |})
      | (Raised e, w') =>
          Some (Ends e {| tlm := tlm s; world := w';
                          routing_hold := routing_hold s; flush_hold := None |})
      | (OutOfFuel, _) => None
      end
  | do_commit =>
      Some (Goes {| tlm := commit_signals (tlm s); world := world s;
                    routing_hold := routing_hold s; flush_hold := flush_hold s |})
  | do_env w =>
      Some (Goes {| tlm := tlm s; world := w;
                    routing_hold := routing_hold s; flush_hold := flush_hold s |})
  end.

End world.

(** The FIFO bounds. *)
Definition fifo_in_bounded (self : t) : Prop :=
  forall port data, ports_info self !! port = Some data ->
    Z.of_nat (length (fifo_in data)) <= fifo_len self.

Definition fifo_out_bounded (self : t) : Prop :=
  forall port data, ports_info self !! port = Some data ->
    Z.of_nat (length (fifo_out data)) <= fifo_len self.

(** One port of the router replaced, its input FIFO not longer than before. *)
Definition port_update (self self' : t) : Prop :=
  exists k data data',
    ports_info self !! k = Some data /\
    self' = set_port self k data' /\
    (length (fifo_in data') <= length (fifo_in data))%nat.

End basic_router_tlm.

(** ** basicmodels/basic_ipcore.py *)
Module basic_ipcore_tlm.

Record t := {
  ipcore_ref : noc_base.ipcore;
  localch : option noc_base.chan;
  incoming_packet : myhdl.Signal packet;
  outgoing_packet : myhdl.Signal packet
}.

Definition recv (self : t) (src dest : pyobj) (packet : packet)
    (addattrs : option (gmap string Z)) : outcome Z * t :=
  (Done noc_tlm_errcodes.no_error,
   {| ipcore_ref := ipcore_ref self; localch := localch self;
      incoming_packet := myhdl.set_next (incoming_packet self) packet;
      outgoing_packet := outgoing_packet self |}).

(** The kernel's commit of the adapter's signals. *)
Definition commit_signals (self : t) : t :=
  {| ipcore_ref := ipcore_ref self; localch := localch self;
     incoming_packet := myhdl.commit (incoming_packet self);
     outgoing_packet := myhdl.commit (outgoing_packet self) |}.

End basic_ipcore_tlm.

(** ** A 2x2 mesh

    Four routers, each with an ipcore; channels 0 to 3 join the routers and
    channel [10 + r] joins router [r] to its ipcore. *)
Module mesh.

Definition ip (r : Z) : noc_base.ipcore :=
  {| noc_base.ip_router_ref := Some r; noc_base.ip_channel_ref := Some (10 + r) |}.

Definition pick {A} (v : Z) (d a0 a1 a2 a3 : A) : A :=
  if decide (v = 0) then a0
  else if decide (v = 1) then a1
  else if decide (v = 2) then a2
  else if decide (v = 3) then a3
  else d.

Definition G : noc_base.noc :=
  {| noc_base.nodes := [0; 1; 2; 3];
     noc_base.adj := fun v => pick v [] [1; 2] [0; 3] [0; 3] [1; 2];
     noc_base.address := fun v => v;
     noc_base.edge_channel := fun u v =>
       pick u None
         (pick v None None (Some 0) (Some 1) None)
         (pick v None (Some 0) None None (Some 2))
         (pick v None (Some 1) None None (Some 3))
         (pick v None None (Some 2) (Some 3) None);
     noc_base.ipcore_ref := fun v =>
       if decide (0 <= v <= 3) then Some (ip v) else None;
     noc_base.endpoints := fun c =>
       if decide (c = 0) then [noc_base.ep_router 0; noc_base.ep_router 1]
       else if decide (c = 1) then [noc_base.ep_router 0; noc_base.ep_router 2]
       else if decide (c = 2) then [noc_base.ep_router 1; noc_base.ep_router 3]
       else if decide (c = 3) then [noc_base.ep_router 2; noc_base.ep_router 3]
       else if decide (10 <= c <= 13)
            then [noc_base.ep_router (c - 10); noc_base.ep_ipcore (ip (c - 10))]
            else [noc_base.ep_none; noc_base.ep_none];
     noc_base.coord_x := fun v => Some (v `mod` 2);
     noc_base.coord_y := fun v => Some (v `div` 2) |}.

(** Three packets from the ipcore of router 0 to router 3. *)
Definition p0 : packet := {[ "src"%string := 0; "dst"%string := 3 ]}.
Definition p1 : packet := {[ "src"%string := 0; "dst"%string := 3; "data"%string := 1 ]}.
Definition p2 : packet := {[ "src"%string := 0; "dst"%string := 3; "data"%string := 2 ]}.

(** The rest of the simulation as the number of packets waiting in the input
    FIFO of the neighbour, a router with [fifo_len = 1] like router 0: its
    [recv], reached through the channel, refuses a packet when one waits. *)
Definition neighbour : noc_base.chan -> pyobj -> pyobj -> packet ->
    option (gmap string Z) -> nat -> outcome Z * nat :=
  fun _ _ _ _ _ waiting =>
    if decide (waiting = 1%nat) then (Done noc_tlm_errcodes.full_fifo, waiting)
    else (Done noc_tlm_errcodes.no_error, S waiting).

(** A world that counts the calls of a channel's [recv]. *)
Definition counting : noc_base.chan -> pyobj -> pyobj -> packet ->
    option (gmap string Z) -> nat -> outcome Z * nat :=
  fun _ _ _ _ _ n => (Done noc_tlm_errcodes.no_error, S n).

(** The routing information of router 0, and its entries for router 3. *)
Definition table0 : gmap noc_base.node (list noc_base.route_entry) :=
  match noc_base.update_routes_info 100 G 0 ∅ with
  | Done tbl => tbl
  | _ => ∅
  end.

Definition entries03 : list noc_base.route_entry :=
  [ {| noc_base.next := 1; noc_base.paths := [[0; 1; 3]] |};
    {| noc_base.next := 2; noc_base.paths := [[0; 2; 3]] |} ].

(** Router 0 with [fifo_len = 1], as its constructor leaves it. *)
Definition idle_port (peer : noc_base.endpoint) (c : noc_base.chan)
  : basic_router_tlm.tlm_port :=
  {| basic_router_tlm.peer := peer; basic_router_tlm.channel := Some c;
     basic_router_tlm.fifo_in := []; basic_router_tlm.fifo_out := [];
     basic_router_tlm.fifo_in_event := myhdl.new false;
     basic_router_tlm.fifo_out_event := myhdl.new false |}.

Definition r0 : basic_router_tlm.t :=
  {| basic_router_tlm.router_ref := 0;
     basic_router_tlm.graph_ref := G;
     basic_router_tlm.fifo_len := 1;
     basic_router_tlm.delay_route := 5;
     basic_router_tlm.delay_outfromfifo := 2;
     basic_router_tlm.delay_ipcorebus := 1;
     basic_router_tlm.myaddress := 0;
     basic_router_tlm.mynodecoord := (0, 0);
     basic_router_tlm.ports_info :=
       <[0 := idle_port (noc_base.ep_ipcore (ip 0)) 10]>
         (<[1 := idle_port (noc_base.ep_router 1) 0]>
            (<[2 := idle_port (noc_base.ep_router 2) 1]> ∅));
     basic_router_tlm.routingtable :=
       <[0 := [0]]> (<[1 := [1]]> (<[2 := [2]]> (<[3 := [1; 2]]> ∅))) |}.

(** Three packets reach router 0 from its ipcore, one after the other, and
    are routed towards router 1.  Router 1 accepts the first and is busy with
    other ports meanwhile, so the first stays in its input FIFO and the send
    of the second is refused. *)
Definition congestion : list (@basic_router_tlm.action nat) :=
  [ basic_router_tlm.do_recv (PyChannel 10) (PyRouter 0) p0 None;
    basic_router_tlm.do_routing_take 0;
    basic_router_tlm.do_routing_put;
    basic_router_tlm.do_flush_take 1;
    basic_router_tlm.do_flush_send;
    basic_router_tlm.do_recv (PyChannel 10) (PyRouter 0) p1 None;
    basic_router_tlm.do_routing_take 0;
    basic_router_tlm.do_routing_put;
    basic_router_tlm.do_flush_take 1;
    basic_router_tlm.do_flush_send;
    basic_router_tlm.do_recv (PyChannel 10) (PyRouter 0) p2 None;
    basic_router_tlm.do_routing_take 0;
    basic_router_tlm.do_routing_put ].

(** Router 0 after [congestion], and after the flush process has then
    popped from the output FIFO towards router 1. *)
Definition busy_port (out : list packet) : basic_router_tlm.tlm_port :=
  {| basic_router_tlm.peer := noc_base.ep_router 1;
     basic_router_tlm.channel := Some 0;
     basic_router_tlm.fifo_in := []; basic_router_tlm.fifo_out := out;
     basic_router_tlm.fifo_in_event := myhdl.new false;
     basic_router_tlm.fifo_out_event := myhdl.set_next (myhdl.new false) true |}.

Definition congested : basic_router_tlm.t :=
  basic_router_tlm.set_port r0 1 (busy_port [p1; p2]).

Definition popped : basic_router_tlm.t :=
  basic_router_tlm.set_port r0 1 (busy_port [p2]).

(** The output FIFO of a port of router 0 after a list of actions, the
    input FIFO of the neighbour being empty at the start. *)
Definition out_fifo_after (acts : list (@basic_router_tlm.action nat))
    (port : noc_base.addr) : option (list packet) :=
  s ← basic_router_tlm.run neighbour (basic_router_tlm.start r0 0%nat) acts;
  data ← basic_router_tlm.ports_info (basic_router_tlm.tlm s) !! port;
  Some (basic_router_tlm.fifo_out data).

End mesh.

(** ** Shortest paths

    The notions the properties of [all_shortest_paths] and of the routing
    tables are stated with. *)
Module shortest.

(** Consecutive nodes of [p] are joined by an edge. *)
Fixpoint is_path (G : noc_base.noc) (p : list noc_base.node) : Prop :=
  match p with
  | u :: q => match q with
              | v :: _ => v ∈ noc_base.adj G u /\ is_path G q
              | [] => True
              end
  | [] => True
  end.

(** [p] leads from [a] to [b] along edges, and no walk from [a] to [b] has
    fewer edges. *)
Definition shortest_path (G : noc_base.noc) (a b : noc_base.node)
    (p : list noc_base.node) : Prop :=
  head p = Some a /\ last p = Some b /\ is_path G p /\
  forall k, noc_base.walk G a b k -> (length p <= S k)%nat.

Definition reachable (G : noc_base.noc) (a b : noc_base.node) : Prop :=
  exists k, noc_base.walk G a b k.

(** [p] goes from [n] to [b], each node followed by one of its predecessors. *)
Inductive pred_chain (preds : gmap noc_base.node (list noc_base.node))
    (b : noc_base.node) : noc_base.node -> list noc_base.node -> Prop :=
| chain_target : pred_chain preds b b [b]
| chain_step n c cs q :
    n <> b -> preds !! n = Some cs -> c ∈ cs -> pred_chain preds b c q ->
    pred_chain preds b n (n :: q).

(** Every neighbour one level up is among the predecessors. *)
Definition preds_complete (G : noc_base.noc) (levels : gmap noc_base.node nat)
    (preds : gmap noc_base.node (list noc_base.node)) : Prop :=
  forall v w j, levels !! v = Some j -> levels !! w = Some (S j) ->
    w ∈ noc_base.adj G v -> exists l, preds !! w = Some l /\ v ∈ l.

(** The same for the levels up to [k] of a search under way. *)
Definition complete_upto (G : noc_base.noc) (k : nat) (st : noc_base.bfs_state) : Prop :=
  forall v w j, noc_base.seen st !! v = Some j -> noc_base.seen st !! w = Some (S j) ->
    w ∈ noc_base.adj G v -> (S j <= k)%nat ->
    exists l, noc_base.pred st !! w = Some l /\ v ∈ l.

(** The edge from [v] to [w] has been looked at while level [level] was
    expanded. *)
Definition edge_done (level : nat) (vw : noc_base.node * noc_base.node)
    (st : noc_base.bfs_state) : Prop :=
  exists i, noc_base.seen st !! vw.2 = Some i /\
    (i = S level -> exists l, noc_base.pred st !! vw.2 = Some l /\ vw.1 ∈ l).

(** Two graph objects with the same topology: the same routers with the same
    addresses and the same edges.  The orders in which the nodes of the graph
    and the neighbours of a node are iterated may differ. *)
Definition same_topology (G G' : noc_base.noc) : Prop :=
  noc_base.nodes G ≡ₚ noc_base.nodes G' /\
  (forall u, noc_base.adj G u ≡ₚ noc_base.adj G' u) /\
  (forall u, noc_base.address G u = noc_base.address G' u).

End shortest.

(** ** The router during a simulation

    The notions the properties of the running router are stated with. *)
Module router_sim.
Import basic_router_tlm.

(** Two states of a port with the same peer and channel. *)
Definition same_wiring (d d' : tlm_port) : Prop :=
  peer d' = peer d /\ channel d' = channel d.

(** Two states of a router with the same ports, wired the same way. *)
Definition ports_static (self self' : t) : Prop :=
  forall k, option_Forall2 same_wiring (ports_info self !! k) (ports_info self' !! k).

(** The packets a port holds, with their multiplicities. *)
Definition port_packets (d : tlm_port) : gmultiset packet :=
  list_to_set_disj (fifo_in d) ⊎ list_to_set_disj (fifo_out d).

Definition ports_packets (m : gmap noc_base.addr tlm_port) : gmultiset packet :=
  map_fold (fun _ d acc => port_packets d ⊎ acc) ∅ m.

(** The packets inside the router: those of its FIFOs and those its two
    processes hold while they wait. *)
Definition held {W} (s : @sim W) : gmultiset packet :=
  ports_packets (ports_info (tlm s))
  ⊎ match routing_hold s with Some (p, _) => {[+ p +]} | None => ∅ end
  ⊎ match flush_hold s with Some (_, p) => {[+ p +]} | None => ∅ end.

(** The packets the [recv] calls of a list of actions bring. *)
Fixpoint offered {W} (acts : list (@action W)) : gmultiset packet :=
  match acts with
  | [] => ∅
  | do_recv _ _ p _ :: acts' => {[+ p +]} ⊎ offered acts'
  | _ :: acts' => offered acts'
  end.

End router_sim.

(** ** noc_base.py: protocol

    The packet layout of a protocol and the packets it makes.  A field of
    [packet_format] is the dictionary [update_packet_field] creates, with its
    five keys. *)
Module protocol.

(** The exceptions these methods can end with, and their outcome. *)
Inductive raised := ValueError | NameError | IndexError | KeyError.

Inductive res (A : Type) :=
| Ret (a : A)
| Raise (e : raised).
Arguments Ret {A} a.
Arguments Raise {A} e.

#[global] Instance res_bind : MBind res := fun A B f m =>
  match m with
  | Ret a => f a
  | Raise e => Raise e
  end.

Fixpoint foldl_res {A B} (f : A -> B -> res A) (l : list B) (a : A) : res A :=
  match l with
  | [] => Ret a
  | x :: l' => a' ← f a x; foldl_res f l' a'
  end.

Record field := {
  type : string;
  position : Z;
  bitlen : Z;
  lsb : Z;
  msb : Z
}.

Record t := {
  packet_format : gmap string field;
  packet_order : list string
}.

(** [protocol()] *)
Definition new : t := {| packet_format := ∅; packet_order := [] |}.

(** [d[k]] and [l[i]]. *)
Definition getfield (d : gmap string field) (k : string) : res field :=
  match d !! k with
  | Some f => Ret f
  | None => Raise KeyError
  end.

Definition getname (l : list string) (i : nat) : res string :=
  match l !! i with
  | Some x => Ret x
  | None => Raise IndexError
  end.

(** [l.index(x)]. *)
Fixpoint index (x : string) (l : list string) : res nat :=
  match l with
  | [] => Raise ValueError
  | y :: l' => if decide (y = x) then Ret 0%nat else i ← index x l'; Ret (S i)
  end.

(** The body of the loop that moves the fields after an updated one. *)
Definition adjust (st : gmap string field * Z) (curname : string)
  : res (gmap string field * Z) :=
  let '(packet_format, nextbitpos) := st in
  cur ← getfield packet_format curname;
  let curbitlen := bitlen cur in
  Ret (<[curname := {| type := type cur; position := position cur;
                       bitlen := bitlen cur;
                       lsb := nextbitpos + curbitlen; msb := nextbitpos |}]>
         packet_format,
       nextbitpos + curbitlen).

(** [update_packet_field(name, type, bitlen)].  The name [lsb] read in the
    update of a field that is not the first is not defined anywhere, which
    raises [NameError] once the field before has been looked up.  The loop
    runs over [range(previdx+2, len(self.packet_order))]. *)
Definition update_packet_field (self : t) (name ty : string) (blen : Z) : res t :=
  if decide (ty <> "int"%string /\ ty <> "fixed"%string /\ ty <> "float"%string)
  then Raise ValueError
  else
    match packet_format self !! name with
    | Some _ =>
        idx ← index name (packet_order self);
        let previdx := Z.of_nat idx - 1 in
        lastbitpos ←
          (if decide (previdx < 0) then Ret 0
           else prevname ← getname (packet_order self) (Z.to_nat previdx);
                _ ← getfield (packet_format self) prevname;
                Raise NameError);
        let nextbitpos := lastbitpos + blen in
        old ← getfield (packet_format self) name;
        let retyped := {| type := ty; position := previdx + 1;
                          bitlen := bitlen old; lsb := lsb old; msb := msb old |} in
        if decide (bitlen retyped <> blen) then
          let resized := {| type := ty; position := previdx + 1;
                            bitlen := blen; lsb := nextbitpos; msb := lastbitpos |} in
          '(packet_format', _) ←
            foldl_res adjust (drop (Z.to_nat (previdx + 2)) (packet_order self))
                      (<[name := resized]> (packet_format self), nextbitpos);
          Ret {| packet_format := packet_format'; packet_order := packet_order self |}
        else
          Ret {| packet_format := <[name := retyped]> (packet_format self);
                 packet_order := packet_order self |}
    | None =>
        lastbitpos ←
          (if decide (size (packet_format self) = 0%nat) then Ret 0
           else match last (packet_order self) with
                | None => Raise IndexError
                | Some lastname =>
                    f ← getfield (packet_format self) lastname; Ret (lsb f)
                end);
        let nextbitpos := lastbitpos + blen in
        let fieldpos := Z.of_nat (length (packet_order self)) in
        Ret {| packet_format :=
                 <[name := {| type := ty; position := fieldpos; bitlen := blen;
                              lsb := nextbitpos; msb := lastbitpos |}]>
                   (packet_format self);
               packet_order := packet_order self ++ [name] |}
    end.

(** [fieldlist.remove(fkey)]: the first occurrence goes. *)
Fixpoint remove (x : string) (l : list string) : list string :=
  match l with
  | [] => []
  | y :: l' => if decide (y = x) then l' else y :: remove x l'
  end.

(** The body of the two loops of [newpacket] that fill in the values given. *)
Definition fill (st : packet * list string) (fkey : string) (fvalue : Z)
  : packet * list string :=
  let '(retpacket, fieldlist) := st in
  if decide (fkey ∈ fieldlist)
  then (<[fkey := fvalue]> retpacket, remove fkey fieldlist)
  else st.

(** [for fidx, fvalue in enumerate(args)], from index [fidx] on. *)
Fixpoint fill_args (self : t) (fidx : nat) (args : list Z)
    (st : packet * list string) : res (packet * list string) :=
  match args with
  | [] => Ret st
  | fvalue :: args' =>
      fkey ← getname (packet_order self) fidx;
      fill_args self (S fidx) args' (fill st fkey fvalue)
  end.

(** [newpacket(zerodefault, *args, **kwargs)]; the named arguments are
    visited in the order of the dictionary. *)
Definition newpacket (self : t) (zerodefault : bool) (args : list Z)
    (kwargs : gmap string Z) : res packet :=
  let retpacket : packet := ∅ in
  let fieldlist := packet_order self in
  let st := foldl (fun st kv => fill st kv.1 kv.2) (retpacket, fieldlist)
                  (map_to_list kwargs) in
  '(retpacket, fieldlist) ← fill_args self 0 args st;
  if decide (0 < length fieldlist)%nat then
    if zerodefault
    then Ret (foldl (fun (retpacket : packet) fkey => <[fkey := 0]> retpacket)
                    retpacket fieldlist)
    else Raise ValueError
  else Ret retpacket.

(** The bits the fields of a list take. *)
Definition total_bits (d : gmap string field) (l : list string) : Z :=
  foldr (fun n acc => default 0 (bitlen <$> d !! n) + acc) 0 l.

(** The layout of a protocol is consistent: the fields of [packet_format]
    are those of [packet_order], each once; a field has its index in
    [packet_order] as position, starts at bit [msb] where the fields before
    it end, and ends before bit [lsb], [bitlen] bits further. *)
Record laid_out (self : t) : Prop := {
  order_nodup : NoDup (packet_order self);
  order_format : forall name,
    is_Some (packet_format self !! name) <-> name ∈ packet_order self;
  order_layout : forall i name,
    packet_order self !! i = Some name ->
    exists f, packet_format self !! name = Some f /\
      position f = Z.of_nat i /\
      msb f = total_bits (packet_format self) (take i (packet_order self)) /\
      lsb f = msb f + bitlen f
}.

(** A protocol made by a list of [update_packet_field] calls, none of which
    raised. *)
Fixpoint declare (calls : list (string * string * Z)) (self : t) : res t :=
  match calls with
  | [] => Ret self
  | (name, ty, blen) :: calls' =>
      self' ← update_packet_field self name ty blen; declare calls' self'
  end.

End protocol.

(** ** More examples *)
Module examples.

(** The ports of router 0 of the mesh, and a dictionary with a port left
    from another topology. *)
Definition ports0 : gmap noc_base.addr noc_base.port :=
  match noc_base.update_ports_info mesh.G 0 ∅ with
  | Done p => p
  | _ => ∅
  end.

Definition stale : gmap noc_base.addr noc_base.port :=
  {[ 7 := {| noc_base.peer := noc_base.ep_router 7; noc_base.channel := Some 7 |} ]}.

(** The dictionary of router 0 when the clean-up begins, for a call on
    [stale]. *)
Definition stale_defined : gmap noc_base.addr noc_base.port :=
  match noc_base.port_definitions mesh.G 0 stale with
  | Done (ports, _) => ports
  | _ => ∅
  end.

(** A router after one packet has come from its ipcore. *)
Definition arrival (p : packet) : list (@basic_router_tlm.action nat) :=
  [ basic_router_tlm.do_recv (PyChannel 10) (PyRouter 0) p None ].

Definition arrived (self : basic_router_tlm.t) (p : packet) : @basic_router_tlm.sim nat :=
  match basic_router_tlm.run mesh.neighbour (basic_router_tlm.start self 0%nat) (arrival p) with
  | Some s => s
  | None => basic_router_tlm.start self 0%nat
  end.

(** A packet from router 3 for router 0, and router 0 after the packet has
    come in from router 1. *)
Definition home : packet := {[ "src"%string := 3; "dst"%string := 0 ]}.

Definition homecoming : list (@basic_router_tlm.action nat) :=
  [ basic_router_tlm.do_recv (PyChannel 0) (PyRouter 0) home None ].

Definition at_home : @basic_router_tlm.sim nat :=
  match basic_router_tlm.run mesh.neighbour (basic_router_tlm.start mesh.r0 0%nat)
          homecoming with
  | Some s => s
  | None => basic_router_tlm.start mesh.r0 0%nat
  end.

(** Routers 0 and 1 joined by channel 0, and router 2 on its own; channel
    [10 + r] joins router [r] to its ipcore.  Routers 0 and 1 were given
    coordinates, router 2 was not. *)
Definition split : noc_base.noc :=
  {| noc_base.nodes := [0; 1; 2];
     noc_base.adj := fun v => mesh.pick v [] [1] [0] [] [];
     noc_base.address := fun v => v;
     noc_base.edge_channel := fun u v =>
       mesh.pick u None
         (mesh.pick v None None (Some 0) None None)
         (mesh.pick v None (Some 0) None None None)
         None None;
     noc_base.ipcore_ref := fun v =>
       if decide (0 <= v <= 2) then Some (mesh.ip v) else None;
     noc_base.endpoints := fun c =>
       if decide (c = 0) then [noc_base.ep_router 0; noc_base.ep_router 1]
       else if decide (10 <= c <= 12)
            then [noc_base.ep_router (c - 10); noc_base.ep_ipcore (mesh.ip (c - 10))]
            else [noc_base.ep_none; noc_base.ep_none];
     noc_base.coord_x := fun v => mesh.pick v None (Some 0) (Some 1) None None;
     noc_base.coord_y := fun v => mesh.pick v None (Some 0) (Some 0) None None |}.

Definition split_r0 : basic_router_tlm.t :=
  match basic_router_tlm.init 100 split 0 4 ∅ ∅ with
  | Done self => self
  | _ => mesh.r0
  end.

(** A packet for router 2 and a packet for an address no router has. *)
Definition lost : packet := {[ "src"%string := 0; "dst"%string := 2 ]}.
Definition nowhere : packet := {[ "src"%string := 0; "dst"%string := 9 ]}.

(** Router 0 of [split] after the packet for router 2 arrived from its
    ipcore and the routing process took it. *)
Definition dropped : @basic_router_tlm.sim nat :=
  match basic_router_tlm.exec mesh.neighbour (arrived split_r0 lost)
          (basic_router_tlm.do_routing_take 0) with
  | Some (basic_router_tlm.Ends _ s) => s
  | _ => arrived split_r0 lost
  end.

(** Four routers in a line 1 - 0 - 2 - 3, where routers 1 and 2 were both
    given the address 7; channel [10 + r] joins router [r] to its ipcore. *)
Definition twins : noc_base.noc :=
  {| noc_base.nodes := [0; 1; 2; 3];
     noc_base.adj := fun v => mesh.pick v [] [1; 2] [0] [0; 3] [2];
     noc_base.address := fun v => mesh.pick v v 0 7 7 3;
     noc_base.edge_channel := fun u v =>
       mesh.pick u None
         (mesh.pick v None None (Some 0) (Some 1) None)
         (mesh.pick v None (Some 0) None None None)
         (mesh.pick v None (Some 1) None None (Some 2))
         (mesh.pick v None None None (Some 2) None);
     noc_base.ipcore_ref := fun v =>
       if decide (0 <= v <= 3) then Some (mesh.ip v) else None;
     noc_base.endpoints := fun c =>
       if decide (c = 0) then [noc_base.ep_router 0; noc_base.ep_router 1]
       else if decide (c = 1) then [noc_base.ep_router 0; noc_base.ep_router 2]
       else if decide (c = 2) then [noc_base.ep_router 2; noc_base.ep_router 3]
       else if decide (10 <= c <= 13)
            then [noc_base.ep_router (c - 10); noc_base.ep_ipcore (mesh.ip (c - 10))]
            else [noc_base.ep_none; noc_base.ep_none];
     noc_base.coord_x := fun v => Some v;
     noc_base.coord_y := fun v => Some 0 |}.

(** The routing information of routers 0 and 1 of [twins]. *)
Definition twins_table (r : noc_base.node)
  : gmap noc_base.node (list noc_base.route_entry) :=
  match noc_base.update_routes_info 100 twins r ∅ with
  | Done tbl => tbl
  | _ => ∅
  end.

(** The mesh with the neighbours of router 3 iterated in the other order, and
    the routing information of its router 0. *)
Definition mesh_reordered : noc_base.noc :=
  {| noc_base.nodes := noc_base.nodes mesh.G;
     noc_base.adj := fun v => if decide (v = 3) then [2; 1] else noc_base.adj mesh.G v;
     noc_base.address := noc_base.address mesh.G;
     noc_base.edge_channel := noc_base.edge_channel mesh.G;
     noc_base.ipcore_ref := noc_base.ipcore_ref mesh.G;
     noc_base.endpoints := noc_base.endpoints mesh.G;
     noc_base.coord_x := noc_base.coord_x mesh.G;
     noc_base.coord_y := noc_base.coord_y mesh.G |}.

Definition table0_reordered : gmap noc_base.node (list noc_base.route_entry) :=
  match noc_base.update_routes_info 100 mesh_reordered 0 ∅ with
  | Done tbl => tbl
  | _ => ∅
  end.

(** A protocol of three fields. *)
Definition header_calls : list (string * string * Z) :=
  [ ("src", "int", 8); ("dst", "int", 8); ("data", "fixed", 16) ]%string.

Definition header : protocol.t :=
  match protocol.declare header_calls protocol.new with
  | protocol.Ret p => p
  | _ => protocol.new
  end.

End examples.

(** ** The search meets every edge once *)
Module bfs_once.
Import noc_base.

(** The search while the neighbours of [cur] are visited at level [L]: the
    nodes [vdone] of the level before have been expanded and the neighbours
    [wdone] of [cur] visited.  No list of predecessors repeats a node, the
    predecessors of a node of level [L] come from the edges visited, and
    [nextlevel] repeats no node and holds nodes already met. *)
Record visit_inv (L : nat) (vdone : list node) (cur : node) (wdone : list node)
    (st : bfs_state) : Prop := {
  once_pred : forall x l, pred st !! x = Some l -> NoDup l;
  once_from : forall x l y, pred st !! x = Some l -> seen st !! x = Some L -> y ∈ l ->
    y ∈ vdone \/ (y = cur /\ x ∈ wdone);
  once_next : NoDup (nextlevel st);
  once_seen : forall x, x ∈ nextlevel st -> is_Some (seen st !! x)
}.

End bfs_once.

(** * Properties *)

(** ** The mesh example *)

Ltac mesh_member :=
  vm_compute; repeat first [apply list_elem_of_here | apply list_elem_of_further].

Ltac mesh_cases H :=
  repeat (apply elem_of_cons in H as [->|H]); [..|by apply elem_of_nil in H].

Lemma mesh_wf : noc_base.wf_noc mesh.G.
Proof.
  split.
  - cbn. compute_done.
  - intros u v Hu Hv. cbn in Hu. mesh_cases Hu; vm_compute in Hv;
      mesh_cases Hv; mesh_member.
  - intros u v Hv. cbn in *. unfold mesh.pick in Hv.
    repeat (case_decide; [subst u; mesh_cases Hv; mesh_member|]).
    by apply elem_of_nil in Hv.
Qed.

Lemma mesh_r0_init : basic_router_tlm.init 100 mesh.G 0 1 ∅ ∅ = Done mesh.r0.
Proof. vm_compute. reflexivity. Qed.

(** ** The router's [recv] *)

Section recv.
Import basic_router_tlm.

Lemma recv_unfold self src dest p addattrs thesrc data :
  recv_thesrc self src = Done (Some thesrc) ->
  ports_info self !! thesrc = Some data ->
  recv self src dest p addattrs =
    if decide (Z.of_nat (length (fifo_in data)) = fifo_len self)
    then (Done noc_tlm_errcodes.full_fifo, self)
    else (Done noc_tlm_errcodes.no_error,
          set_port self thesrc
            {| peer := peer data; channel := channel data;
               fifo_in := fifo_in data ++ [p]; fifo_out := fifo_out data;
               fifo_in_event := myhdl.set_next (fifo_in_event data) true;
               fifo_out_event := fifo_out_event data |}).
Proof. intros Hsrc Hport. unfold recv. by rewrite Hsrc, Hport. Qed.

(** C4: when [src] resolves to the port [thesrc], [recv] returns [full_fifo]
    exactly when that port's input FIFO holds [fifo_len] packets, and then
    the router is unchanged; otherwise it returns [no_error], the packet is
    the new last element of that input FIFO, the pending value of its event
    signal is [True], and nothing else in the router has changed. *)
Theorem recv_full_fifo_exactly self src dest p addattrs thesrc data :
  recv_thesrc self src = Done (Some thesrc) ->
  ports_info self !! thesrc = Some data ->
  let '(code, self') := recv self src dest p addattrs in
  (code = Done noc_tlm_errcodes.full_fifo <->
     Z.of_nat (length (fifo_in data)) = fifo_len self) /\
  (code = Done noc_tlm_errcodes.full_fifo -> self' = self) /\
  (code <> Done noc_tlm_errcodes.full_fifo ->
     code = Done noc_tlm_errcodes.no_error /\
     exists data',
       ports_info self' !! thesrc = Some data' /\
       fifo_in data' = fifo_in data ++ [p] /\
       myhdl.next (fifo_in_event data') = true /\
       myhdl.val (fifo_in_event data') = myhdl.val (fifo_in_event data) /\
       fifo_out data' = fifo_out data /\
       fifo_out_event data' = fifo_out_event data /\
       (forall port, port <> thesrc ->
          ports_info self' !! port = ports_info self !! port) /\
       fifo_len self' = fifo_len self /\
       routingtable self' = routingtable self).
Proof.
  intros Hsrc Hport. rewrite (recv_unfold _ _ _ _ _ _ _ Hsrc Hport).
  case_decide as Hlen.
  - split_and!; [done|done|]. intros Hne. by destruct Hne.
  - split_and!.
    + split; [intros [=]|done].
    + intros [=].
    + intros _. split; [done|]. eexists. cbn.
      rewrite lookup_insert_eq. split_and!; try done.
      intros port Hne. by rewrite lookup_insert_ne.
Qed.

Lemma recv_full_fifo_exactly_witness :
  let '(code, self') := recv mesh.r0 (PyChannel 10) (PyRouter 0) mesh.p1 None in
  code <> Done noc_tlm_errcodes.full_fifo /\
  exists data', ports_info self' !! 0 = Some data' /\ fifo_in data' = [mesh.p1].
Proof.
  pose proof (recv_full_fifo_exactly mesh.r0 (PyChannel 10) (PyRouter 0) mesh.p1 None 0
                (mesh.idle_port (noc_base.ep_ipcore (mesh.ip 0)) 10)
                eq_refl eq_refl) as H.
  destruct (recv mesh.r0 (PyChannel 10) (PyRouter 0) mesh.p1 None) as [code self'].
  destruct H as (Hiff & _ & Hok).
  assert (code <> Done noc_tlm_errcodes.full_fifo) as Hne.
  { intros Hc. apply Hiff in Hc. vm_compute in Hc. discriminate. }
  split; [done|].
  destruct (Hok Hne) as (_ & data' & Hl & Hin & _). exists data'. done.
Defined.

(** [recv] changes the router only when it returns [no_error]. *)
Lemma recv_failure_unchanged self src dest p addattrs :
  (recv self src dest p addattrs).1 <> Done noc_tlm_errcodes.no_error ->
  (recv self src dest p addattrs).2 = self.
Proof.
  unfold recv. destruct (recv_thesrc self src) as [[thesrc|]|e|]; try done.
  destruct (ports_info self !! thesrc) as [data|]; [|done].
  case_decide; done.
Qed.

(** The sources [recv] cannot convert to an address. *)
Lemma recv_thesrc_none self src :
  recv_thesrc self src = Done None <->
  (exists ip, src = PyIpcore ip) \/ src = PyNone \/
  (exists c i, src = PyChannel c /\
     list_index (noc_base.ep_router (router_ref self))
                (noc_base.endpoints (graph_ref self) c) = Done i /\
     pyindex (noc_base.endpoints (graph_ref self) c) (i - 1) = Done noc_base.ep_none).
Proof.
  split.
  - destruct src as [z|r|c|ip|]; cbn; try done; [|eauto..].
    destruct (list_index _ _) as [i| |] eqn:Hi; cbn; try done.
    destruct (pyindex _ _) as [[r|ip|]| |] eqn:He; cbn; try done.
    + by destruct (noc_base.ip_router_ref ip).
    + intros _. right. right. eauto.
  - intros [[ip ->]|[->|(c & i & -> & Hi & He)]]; try done.
    cbn. rewrite Hi. cbn. by rewrite He.
Qed.

(** C7, as the code has it: [recv] returns [tlm_badcall_recv] exactly when
    [src] cannot be converted to an address: it is not an address, a router
    or a channel, or it is a channel whose other endpoint is neither a router
    nor an ipcore.  An address, or the address of a router, that is not one
    of the router's ports is not rejected: the look-up of the port raises
    [KeyError].  Whenever [recv] does not return [no_error], also when it
    raises, the router is unchanged. *)
Theorem recv_badcall self src dest p addattrs :
  ((recv self src dest p addattrs).1 = Done noc_tlm_errcodes.tlm_badcall_recv <->
     (exists ip, src = PyIpcore ip) \/ src = PyNone \/
     (exists c i, src = PyChannel c /\
        list_index (noc_base.ep_router (router_ref self))
                   (noc_base.endpoints (graph_ref self) c) = Done i /\
        pyindex (noc_base.endpoints (graph_ref self) c) (i - 1) = Done noc_base.ep_none)) /\
  (forall thesrc,
     src = PyInt thesrc \/
     (exists r, src = PyRouter r /\ thesrc = noc_base.address (graph_ref self) r) ->
     ports_info self !! thesrc = None ->
     recv self src dest p addattrs = (Raised KeyError, self)) /\
  ((recv self src dest p addattrs).1 <> Done noc_tlm_errcodes.no_error ->
     (recv self src dest p addattrs).2 = self).
Proof.
  split_and!; [| |apply recv_failure_unchanged].
  - rewrite <- recv_thesrc_none.
    unfold recv. destruct (recv_thesrc self src) as [[thesrc|]|e|]; try done.
    destruct (ports_info self !! thesrc) as [data|]; [|done].
    case_decide; done.
  - intros thesrc [->|(r & -> & ->)] Hport; unfold recv; cbn [recv_thesrc];
      by destruct (ports_info self !! _).
Qed.

Lemma recv_badcall_witness :
  recv mesh.r0 (PyRouter 3) (PyRouter 0) mesh.p1 None = (Raised KeyError, mesh.r0) /\
  (recv mesh.r0 PyNone (PyRouter 0) mesh.p1 None).2 = mesh.r0.
Proof.
  split.
  - destruct (recv_badcall mesh.r0 (PyRouter 3) (PyRouter 0) mesh.p1 None) as (_ & Hkey & _).
    apply (Hkey 3).
    + right. by exists 3.
    + vm_compute. reflexivity.
  - destruct (recv_badcall mesh.r0 PyNone (PyRouter 0) mesh.p1 None) as (_ & _ & Hsame).
    apply Hsame. vm_compute. discriminate.
Defined.

(** C7 as stated fails: the address 3 is not one of the ports of router 0
    (its ports are 0, 1 and 2), and [recv] raises [KeyError] instead of
    returning [tlm_badcall_recv]. *)
Lemma recv_unknown_address_raises :
  recv_thesrc mesh.r0 (PyInt 3) = Done (Some 3) /\
  ports_info mesh.r0 !! 3 = None /\
  recv mesh.r0 (PyInt 3) (PyRouter 0) mesh.p1 None = (Raised KeyError, mesh.r0) /\
  (recv mesh.r0 (PyInt 3) (PyRouter 0) mesh.p1 None).1
    <> Done noc_tlm_errcodes.tlm_badcall_recv.
Proof. split_and!; [done|done|done|discriminate]. Qed.

End recv.

(** ** The router's [send] *)

Section send.
Import basic_router_tlm.
Context {W : Type}.
Implicit Types channel_recv :
  noc_base.chan -> pyobj -> pyobj -> packet -> option (gmap string Z) -> W -> outcome Z * W.

(** How [send] resolves [dest]. *)
Lemma send_thedest_cases self dest :
  send_thedest self dest =
    match dest with
    | PyChannel c => Done (Some (Some c))
    | PyRouter r =>
        match ports_info self !! noc_base.address (graph_ref self) r with
        | Some data => Done (Some (channel data))
        | None => Raised KeyError
        end
    | PyInt z =>
        match noc_base.get_router_by_address (graph_ref self) z with
        | None => Done None
        | Some therouter =>
            match ports_info self !! noc_base.address (graph_ref self) therouter with
            | Some data => Done (Some (channel data))
            | None => Raised KeyError
            end
        end
    | _ => Done None
    end.
Proof.
  destruct dest as [z|r|c|ip|]; cbn; try done.
  - destruct (noc_base.get_router_by_address _ _); [|done].
    unfold getitem. by destruct (ports_info self !! _).
  - unfold getitem. by destruct (ports_info self !! _).
Qed.

(** C8, as the code has it: when [dest] resolves to the channel [thedest]
    (a channel itself, or the channel of the port of a router given by
    reference or by address), [send] is the call of that channel's [recv] with
    the router, the channel, the same packet and the same [addattrs], and
    returns what it returns; when [dest] is an address no router of the graph
    has, or is not an address, a router or a channel, [send] returns
    [tlm_badcall_send] and the rest of the simulation is untouched, whatever
    the channels' [recv] would do. *)
Theorem send_resolved channel_recv self src dest p addattrs w :
  (forall thedest, send_thedest self dest = Done (Some (Some thedest)) ->
     send channel_recv self src dest p addattrs w =
       channel_recv thedest (PyRouter (router_ref self)) (PyChannel thedest) p addattrs w) /\
  (send_thedest self dest = Done None ->
     send channel_recv self src dest p addattrs w =
       (Done noc_tlm_errcodes.tlm_badcall_send, w)) /\
  (forall c, dest = PyChannel c -> send_thedest self dest = Done (Some (Some c))) /\
  (forall z, dest = PyInt z ->
     noc_base.get_router_by_address (graph_ref self) z = None ->
     send_thedest self dest = Done None) /\
  (dest = PyNone \/ (exists ip, dest = PyIpcore ip) -> send_thedest self dest = Done None) /\
  (forall r data, dest = PyRouter r \/
       (exists z, dest = PyInt z /\
          noc_base.get_router_by_address (graph_ref self) z = Some r) ->
     ports_info self !! noc_base.address (graph_ref self) r = Some data ->
     send_thedest self dest = Done (Some (channel data))).
Proof.
  split_and!.
  - intros thedest H. unfold send. by rewrite H.
  - intros H. unfold send. by rewrite H.
  - by intros c ->.
  - intros z -> H. rewrite send_thedest_cases. by rewrite H.
  - by intros [->|[ip ->]].
  - intros r data [->|(z & -> & Hz)] Hp; rewrite send_thedest_cases.
    + by rewrite Hp.
    + by rewrite Hz, Hp.
Qed.

End send.

Lemma send_resolved_witness :
  basic_router_tlm.send mesh.counting mesh.r0 (PyRouter 0) (PyInt 1) mesh.p1 None 0%nat
    = (Done noc_tlm_errcodes.no_error, 1%nat) /\
  basic_router_tlm.send mesh.counting mesh.r0 (PyRouter 0) (PyInt 9) mesh.p1 None 0%nat
    = (Done noc_tlm_errcodes.tlm_badcall_send, 0%nat).
Proof.
  destruct (send_resolved mesh.counting mesh.r0 (PyRouter 0) (PyInt 1) mesh.p1 None 0%nat)
    as (H1 & _).
  destruct (send_resolved mesh.counting mesh.r0 (PyRouter 0) (PyInt 9) mesh.p1 None 0%nat)
    as (_ & H2 & _).
  split; [exact (H1 0 eq_refl) | exact (H2 eq_refl)].
Defined.

(** C8 as stated fails: router 3 is in the graph but is not a neighbour of
    router 0, so its address resolves to no channel; [send] raises [KeyError]
    instead of returning [tlm_badcall_send]. *)
Lemma send_non_neighbour_raises :
  noc_base.get_router_by_address mesh.G 3 = Some 3 /\
  basic_router_tlm.ports_info mesh.r0 !! 3 = None /\
  basic_router_tlm.send mesh.counting mesh.r0 (PyRouter 0) (PyInt 3) mesh.p1 None 0%nat
    = (Raised KeyError, 0%nat) /\
  (basic_router_tlm.send mesh.counting mesh.r0 (PyRouter 0) (PyInt 3) mesh.p1 None 0%nat).1
    <> Done noc_tlm_errcodes.tlm_badcall_send.
Proof. split_and!; [done|done|done|discriminate]. Qed.

(** ** The ipcore's [recv] *)

(** C10: the ipcore's [recv] returns [no_error] whatever it is called with
    and whatever the adapter holds, and leaves the packet as the pending value
    of [incoming_packet], the rest of the adapter unchanged; of two calls
    before the signal is committed, the second packet is the one the signal
    is committed with. *)
Theorem ipcore_recv_always_accepts (self : basic_ipcore_tlm.t) src dest (p : packet) addattrs :
  let '(code, self') := basic_ipcore_tlm.recv self src dest p addattrs in
  code = Done noc_tlm_errcodes.no_error /\
  code <> Done noc_tlm_errcodes.full_fifo /\
  myhdl.next (basic_ipcore_tlm.incoming_packet self') = p /\
  myhdl.val (basic_ipcore_tlm.incoming_packet self') =
    myhdl.val (basic_ipcore_tlm.incoming_packet self) /\
  basic_ipcore_tlm.outgoing_packet self' = basic_ipcore_tlm.outgoing_packet self /\
  forall src2 dest2 (p2 : packet) addattrs2,
    let '(code2, self2) := basic_ipcore_tlm.recv self' src2 dest2 p2 addattrs2 in
    code2 = Done noc_tlm_errcodes.no_error /\
    myhdl.next (basic_ipcore_tlm.incoming_packet self2) = p2 /\
    myhdl.val (basic_ipcore_tlm.incoming_packet
                 (basic_ipcore_tlm.commit_signals self2)) = p2.
Proof. cbn. split_and!; try done. Qed.

(** ** The two processes of the router *)

Lemma bind_Done {A B} (m : outcome A) (f : A -> outcome B) b :
  m ≫= f = Done b -> exists a, m = Done a /\ f a = Done b.
Proof. destruct m as [a| |]; cbn; [eauto|done|done]. Qed.

Lemma getitem_Done {K V} `{Countable K} (d : gmap K V) k v :
  getitem d k = Done v <-> d !! k = Some v.
Proof. unfold getitem. destruct (d !! k); split; congruence. Qed.

Lemma listitem_Done {A} (l : list A) i v :
  listitem l i = Done v <-> l !! i = Some v.
Proof. unfold listitem. destruct (l !! i); split; congruence. Qed.

Section processes.
Import basic_router_tlm.
Context {W : Type}.
Variable channel_recv :
  noc_base.chan -> pyobj -> pyobj -> packet -> option (gmap string Z) -> W -> outcome Z * W.

Lemma of_outcome_Some {A} (o : outcome A) a : of_outcome o = Some a <-> o = Done a.
Proof. destruct o; cbn; split; congruence. Qed.

(** Sending to a port's channel looks at nothing of the router but its
    [router_ref]. *)
Lemma send_chan_obj self self' src oc p addattrs w :
  router_ref self = router_ref self' ->
  send channel_recv self src (chan_obj oc) p addattrs w =
  send channel_recv self' src (chan_obj oc) p addattrs w.
Proof. intros Hr. destruct oc; unfold send; cbn; by rewrite ?Hr. Qed.

(** What [flush_fifo_out] does with the return code of [send]. *)
Lemma flush_send_unfold self port p w data retval w' :
  ports_info self !! port = Some data ->
  send channel_recv self (PyRouter (router_ref self)) (chan_obj (channel data)) p None w
    = (Done retval, w') ->
  flush_send channel_recv self port p w =
    Done (set_port self port
            (if decide (retval = noc_tlm_errcodes.no_error)
             then {| peer := peer data; channel := channel data;
                     fifo_in := fifo_in data; fifo_out := fifo_out data;
                     fifo_in_event := fifo_in_event data;
                     fifo_out_event := myhdl.set_next (fifo_out_event data) false |}
             else {| peer := peer data; channel := channel data;
                     fifo_in := fifo_in data; fifo_out := fifo_out data ++ [p];
                     fifo_in_event := fifo_in_event data;
                     fifo_out_event := fifo_out_event data |}), w').
Proof.
  intros Hp Hs. unfold flush_send, flush_result, getitem. rewrite Hp. cbn.
  rewrite Hs. by case_decide.
Qed.

Lemma flush_take_unfold self port data p rest :
  ports_info self !! port = Some data ->
  fifo_out data = p :: rest ->
  flush_take self port =
    Done (set_port self port
            {| peer := peer data; channel := channel data;
               fifo_in := fifo_in data; fifo_out := rest;
               fifo_in_event := fifo_in_event data;
               fifo_out_event := fifo_out_event data |}, p).
Proof. intros Hp Hf. unfold flush_take, getitem. rewrite Hp. cbn. by rewrite Hf. Qed.

(** C3, as the code has it: [flush_fifo_out] pops [p] from the front of the
    output FIFO [p :: rest] of a port, leaving [rest]; when, the delay over and
    the port meanwhile being [data'], [send] returns a code other than
    [no_error], [p] is appended to the back of the same output FIFO, which
    becomes [fifo_out data' ++ [p]]; the port and the router are otherwise as
    they were, so no packet is lost; [p] is the next packet popped from that
    port when the FIFO held nothing else, and the first packet it held is when
    it did. *)
Theorem flush_failure_requeues self port data p rest self' data' w retval w' :
  ports_info self !! port = Some data ->
  fifo_out data = p :: rest ->
  ports_info self' !! port = Some data' ->
  send channel_recv self' (PyRouter (router_ref self')) (chan_obj (channel data')) p None w
    = (Done retval, w') ->
  retval <> noc_tlm_errcodes.no_error ->
  (exists self1 data1,
     flush_take self port = Done (self1, p) /\
     ports_info self1 !! port = Some data1 /\
     fifo_out data1 = rest /\
     fifo_in data1 = fifo_in data /\
     fifo_in_event data1 = fifo_in_event data /\
     fifo_out_event data1 = fifo_out_event data /\
     (forall port', port' <> port -> ports_info self1 !! port' = ports_info self !! port')) /\
  exists self2 data2,
    flush_send channel_recv self' port p w = Done (self2, w') /\
    ports_info self2 !! port = Some data2 /\
    fifo_out data2 = fifo_out data' ++ [p] /\
    fifo_in data2 = fifo_in data' /\
    fifo_in_event data2 = fifo_in_event data' /\
    fifo_out_event data2 = fifo_out_event data' /\
    (forall port', port' <> port -> ports_info self2 !! port' = ports_info self' !! port') /\
    (exists self3, flush_take self2 port = Done (self3, hd p (fifo_out data'))).
Proof.
  intros Hp Hf Hp' Hsend Hret. split.
  - eexists _, _. split; [by apply flush_take_unfold|].
    cbn. rewrite lookup_insert_eq. split; [reflexivity|]. cbn.
    split_and!; try done. intros port' Hne. by rewrite lookup_insert_ne.
  - eexists _, _. split; [by eapply flush_send_unfold|].
    rewrite decide_False by done. cbn. rewrite lookup_insert_eq.
    split; [reflexivity|]. cbn. split_and!; try done.
    + intros port' Hne. by rewrite lookup_insert_ne.
    + eexists. eapply (flush_take_unfold _ _ _ _ (tail (fifo_out data' ++ [p])));
        [cbn; apply lookup_insert_eq|].
      cbn. by destruct (fifo_out data').
Qed.

End processes.

(** The mesh example: what [congestion] leads to. *)
Lemma congestion_reaches :
  basic_router_tlm.run mesh.neighbour (basic_router_tlm.start mesh.r0 0%nat) mesh.congestion
    = Some (basic_router_tlm.start mesh.congested 1%nat).
Proof. vm_compute. reflexivity. Qed.

Lemma p1_neq_p2 : mesh.p1 <> mesh.p2.
Proof. intros H. apply (f_equal (fun p : packet => p !! "data"%string)) in H. done. Qed.

Lemma flush_failure_requeues_witness :
  exists self2 data2,
    basic_router_tlm.flush_send mesh.neighbour mesh.popped 1 mesh.p1 1%nat
      = Done (self2, 1%nat) /\
    basic_router_tlm.ports_info self2 !! 1 = Some data2 /\
    basic_router_tlm.fifo_out data2 = [mesh.p2; mesh.p1].
Proof.
  destruct (flush_failure_requeues mesh.neighbour mesh.congested 1
              (mesh.busy_port [mesh.p1; mesh.p2]) mesh.p1 [mesh.p2]
              mesh.popped (mesh.busy_port [mesh.p2])
              1%nat noc_tlm_errcodes.full_fifo 1%nat
              eq_refl eq_refl eq_refl eq_refl ltac:(discriminate))
    as (_ & self2 & data2 & Hsend & Hl & Hout & _).
  exists self2, data2. split_and!; [exact Hsend | exact Hl | exact Hout].
Defined.

(** C3 as stated fails: after [congestion] the output FIFO towards router 1
    holds [p1; p2]; the flush process pops [p1], the send is refused again
    ([full_fifo]), and [p1] comes back behind [p2], which is the packet popped
    next. *)
Lemma flush_failure_not_at_front :
  mesh.out_fifo_after mesh.congestion 1 = Some [mesh.p1; mesh.p2] /\
  mesh.out_fifo_after
    (mesh.congestion ++ [basic_router_tlm.do_flush_take 1; basic_router_tlm.do_flush_send]) 1
    = Some [mesh.p2; mesh.p1] /\
  [mesh.p2; mesh.p1] !! 0%nat <> Some mesh.p1.
Proof.
  split; [vm_compute; reflexivity|]. split; [vm_compute; reflexivity|].
  cbn. intros H. apply p1_neq_p2. congruence.
Qed.

(** ** The FIFO bound *)

Section fifo_bound.
Import basic_router_tlm.
Context {W : Type}.
Variable channel_recv :
  noc_base.chan -> pyobj -> pyobj -> packet -> option (gmap string Z) -> W -> outcome Z * W.

Lemma port_update_bounded self self' :
  port_update self self' -> fifo_in_bounded self -> fifo_in_bounded self'.
Proof.
  intros (k & data & data' & Hk & -> & Hlen) Hb port d. cbn.
  rewrite lookup_insert. case_decide as Hd.
  - intros [= <-]. specialize (Hb _ _ Hk). lia.
  - apply Hb.
Qed.

Lemma port_update_static self self' :
  port_update self self' ->
  fifo_len self' = fifo_len self /\ routingtable self' = routingtable self /\
  myaddress self' = myaddress self.
Proof. by intros (k & data & data' & Hk & -> & Hlen). Qed.

Lemma routing_take_Done self port self' p nextaddr :
  routing_take self port = Done (self', p, nextaddr) ->
  exists data rest destaddr route,
    ports_info self !! port = Some data /\
    fifo_in data = p :: rest /\
    self' = set_port self port
              {| peer := peer data; channel := channel data;
                 fifo_in := rest; fifo_out := fifo_out data;
                 fifo_in_event := myhdl.set_next (fifo_in_event data) false;
                 fifo_out_event := fifo_out_event data |} /\
    p !! "dst"%string = Some destaddr /\
    routingtable self !! destaddr = Some route /\
    route !! 0%nat = Some nextaddr.
Proof.
  unfold routing_take. intros H.
  apply bind_Done in H as (data & Hd%getitem_Done & H).
  destruct (fifo_in data) as [|p' rest] eqn:Hf; [done|].
  apply bind_Done in H as (destaddr & Hdst%getitem_Done & H).
  apply bind_Done in H as (route & Hr%getitem_Done & H).
  apply bind_Done in H as (n & Hn%listitem_Done & [= <- <- <-]).
  by exists data, rest, destaddr, route.
Qed.

Lemma routing_take_update self port self' p nextaddr :
  routing_take self port = Done (self', p, nextaddr) -> port_update self self'.
Proof.
  intros (data & rest & ? & ? & Hd & Hf & -> & _)%routing_take_Done.
  exists port, data. eexists. split_and!; [done..|]. cbn. rewrite Hf. cbn. lia.
Qed.

Lemma routing_put_update self p nextaddr self' :
  routing_put self p nextaddr = Done self' -> port_update self self'.
Proof.
  unfold routing_put. intros (data & Hd%getitem_Done & [= <-])%bind_Done.
  exists nextaddr, data. eexists. split_and!; [done..|]. cbn. lia.
Qed.

Lemma flush_take_update self port self' p :
  flush_take self port = Done (self', p) -> port_update self self'.
Proof.
  unfold flush_take. intros (data & Hd%getitem_Done & H)%bind_Done.
  destruct (fifo_out data) as [|p' rest]; [done|]. injection H as <- <-.
  exists port, data. eexists. split_and!; [done..|]. cbn. lia.
Qed.

Lemma flush_send_update self port p w self' w' :
  flush_send channel_recv self port p w = Done (self', w') -> port_update self self'.
Proof.
  unfold flush_send. intros (data & Hd%getitem_Done & H)%bind_Done.
  destruct (send _ _ _ _ _ _ _) as [[retval| |] w1]; [|done..].
  apply bind_Done in H as (self1 & H & [= <- <-]).
  unfold flush_result in H. apply bind_Done in H as (data1 & Hd1%getitem_Done & H).
  exists port, data1. case_decide; injection H as <-;
    eexists; split_and!; cbn; done || lia.
Qed.

Lemma recv_bounded self src dest p addattrs :
  fifo_in_bounded self -> fifo_in_bounded (recv self src dest p addattrs).2.
Proof.
  intros Hb. unfold recv. destruct (recv_thesrc self src) as [[thesrc|]|e|]; try done.
  destruct (ports_info self !! thesrc) as [data|] eqn:Hd; [|done].
  case_decide as Hlen; [done|]. cbn.
  intros port d. cbn. rewrite lookup_insert. case_decide.
  - intros [= <-]. cbn. rewrite length_app. cbn. specialize (Hb _ _ Hd). lia.
  - apply Hb.
Qed.

Lemma recv_static self src dest p addattrs :
  fifo_len (recv self src dest p addattrs).2 = fifo_len self /\
  routingtable (recv self src dest p addattrs).2 = routingtable self /\
  myaddress (recv self src dest p addattrs).2 = myaddress self.
Proof.
  unfold recv. destruct (recv_thesrc self src) as [[thesrc|]|e|]; try done.
  destruct (ports_info self !! thesrc) as [data|]; [|done].
  by case_decide.
Qed.

Lemma commit_bounded self : fifo_in_bounded self -> fifo_in_bounded (commit_signals self).
Proof.
  intros Hb port d. cbn. rewrite lookup_fmap.
  destruct (ports_info self !! port) as [data|] eqn:Hd; [|done].
  cbn. intros [= <-]. cbn. by apply (Hb _ _ Hd).
Qed.

(** What a step leaves in place, and the bound it preserves. *)
Lemma step_static s a s' :
  step channel_recv s a = Some s' ->
  fifo_len (tlm s') = fifo_len (tlm s) /\
  routingtable (tlm s') = routingtable (tlm s) /\
  myaddress (tlm s') = myaddress (tlm s).
Proof.
  destruct a as [src dest p aa|port| |port| | |w]; cbn; intros H.
  - pose proof (recv_static (tlm s) src dest p aa) as Hs.
    destruct (recv _ _ _ _ _) as [[c| |] self']; [|done..]. by injection H as <-.
  - destruct (routing_hold s); [done|].
    destruct (routing_take _ _) as [[[self' p] n]| |] eqn:Ht; [|done..].
    injection H as <-. cbn. by apply routing_take_update, port_update_static in Ht.
  - destruct (routing_hold s) as [[p n]|]; [|done]. cbn in H.
    destruct (routing_put _ _ _) as [self'| |] eqn:Ht; [|done..].
    injection H as <-. cbn. by apply routing_put_update, port_update_static in Ht.
  - destruct (flush_hold s); [done|].
    destruct (flush_take _ _) as [[self' p]| |] eqn:Ht; [|done..].
    injection H as <-. cbn. by apply flush_take_update, port_update_static in Ht.
  - destruct (flush_hold s) as [[port p]|]; [|done]. cbn in H.
    destruct (flush_send _ _ _ _ _) as [[self' w']| |] eqn:Ht; [|done..].
    injection H as <-. cbn. by apply flush_send_update, port_update_static in Ht.
  - by injection H as <-.
  - by injection H as <-.
Qed.

Lemma step_bounded s a s' :
  step channel_recv s a = Some s' ->
  fifo_in_bounded (tlm s) -> fifo_in_bounded (tlm s').
Proof.
  destruct a as [src dest p aa|port| |port| | |w]; cbn; intros H Hb.
  - pose proof (recv_bounded (tlm s) src dest p aa Hb) as Hs.
    destruct (recv _ _ _ _ _) as [[c| |] self']; [|done..]. by injection H as <-.
  - destruct (routing_hold s); [done|].
    destruct (routing_take _ _) as [[[self' p] n]| |] eqn:Ht; [|done..].
    injection H as <-. cbn. eapply port_update_bounded, Hb. by eapply routing_take_update.
  - destruct (routing_hold s) as [[p n]|]; [|done]. cbn in H.
    destruct (routing_put _ _ _) as [self'| |] eqn:Ht; [|done..].
    injection H as <-. cbn. eapply port_update_bounded, Hb. by eapply routing_put_update.
  - destruct (flush_hold s); [done|].
    destruct (flush_take _ _) as [[self' p]| |] eqn:Ht; [|done..].
    injection H as <-. cbn. eapply port_update_bounded, Hb. by eapply flush_take_update.
  - destruct (flush_hold s) as [[port p]|]; [|done]. cbn in H.
    destruct (flush_send _ _ _ _ _) as [[self' w']| |] eqn:Ht; [|done..].
    injection H as <-. cbn. eapply port_update_bounded, Hb. by eapply flush_send_update.
  - injection H as <-. by apply commit_bounded.
  - by injection H as <-.
Qed.

Lemma run_static acts : forall s s',
  run channel_recv s acts = Some s' ->
  fifo_len (tlm s') = fifo_len (tlm s) /\
  routingtable (tlm s') = routingtable (tlm s) /\
  myaddress (tlm s') = myaddress (tlm s).
Proof.
  induction acts as [|a acts IH]; intros s s'; cbn.
  - by intros [= <-].
  - destruct (step channel_recv s a) as [s1|] eqn:Hs; [|done]. cbn. intros H.
    apply IH in H as (-> & -> & ->). by apply step_static in Hs.
Qed.

Lemma run_bounded acts : forall s s',
  run channel_recv s acts = Some s' ->
  fifo_in_bounded (tlm s) -> fifo_in_bounded (tlm s').
Proof.
  induction acts as [|a acts IH]; intros s s'; cbn.
  - by intros [= <-].
  - destruct (step channel_recv s a) as [s1|] eqn:Hs; [|done]. cbn. intros H Hb.
    eapply IH; [done|]. by eapply step_bounded.
Qed.

End fifo_bound.

(** ** The router as constructed *)

(** [update_ports_info], with its port definitions written out. *)
Lemma update_ports_info_eq G self (ports : gmap noc_base.addr noc_base.port) :
  noc_base.update_ports_info G self ports =
    if decide (noc_base.address G self ∈ noc_base.nodes G) then
      '(ports, updated_addr) ←
        foldlM (fun '(ports, updated_addr) neighborhash =>
                  match noc_base.edge_channel G (noc_base.address G self) neighborhash with
                  | None => Raised KeyError
                  | Some ch_ref =>
                      Done (<[noc_base.address G neighborhash :=
                                {| noc_base.peer := noc_base.ep_router neighborhash;
                                   noc_base.channel := Some ch_ref |}]> ports,
                            updated_addr ++ [noc_base.address G neighborhash])
                  end)
               (noc_base.adj G (noc_base.address G self)) (ports, [noc_base.address G self]);
      match noc_base.ipcore_ref G self with
      | None => Raised AttributeError
      | Some ip =>
          if decide (map_Forall (fun deleted _ => deleted ∈ updated_addr)
                       (<[noc_base.address G self :=
                            {| noc_base.peer := noc_base.ep_ipcore ip;
                               noc_base.channel := noc_base.ip_channel_ref ip |}]> ports))
          then Done (<[noc_base.address G self :=
                         {| noc_base.peer := noc_base.ep_ipcore ip;
                            noc_base.channel := noc_base.ip_channel_ref ip |}]> ports)
          else Raised RuntimeError
      end
    else Raised NetworkXError.
Proof.
  unfold noc_base.update_ports_info, noc_base.port_definitions.
  case_decide; [|done].
  destruct (foldlM _ _ _) as [[ports1 updated]| |]; cbn; [|done..].
  by destruct (noc_base.ipcore_ref G self).
Qed.

Section constructed.
Import basic_router_tlm.

Lemma init_Done fuel G r fl ports routes self :
  init fuel G r fl ports routes = Done self ->
  exists ports' routes' x y,
    noc_base.update_ports_info G r ports = Done ports' /\
    noc_base.update_routes_info fuel G r routes = Done routes' /\
    noc_base.coord_x G r = Some x /\
    noc_base.coord_y G r = Some y /\
    self = {| router_ref := r; graph_ref := G; fifo_len := fl;
              delay_route := 5; delay_outfromfifo := 2; delay_ipcorebus := 1;
              myaddress := noc_base.address G r;
              mynodecoord := (x, y);
              ports_info := new_port <$> ports';
              routingtable :=
                <[noc_base.address G r := [noc_base.address G r]]>
                  (map noc_base.next <$> routes') |}.
Proof.
  unfold init. intros (x & Hx & H)%bind_Done.
  apply bind_Done in H as (y & Hy & H).
  apply bind_Done in H as (ports' & Hp & H).
  apply bind_Done in H as (routes' & Hr & [= <-]).
  exists ports', routes', x, y. split_and!; try done.
  - unfold getattr in Hx. destruct (noc_base.coord_x G r); by simplify_eq.
  - unfold getattr in Hy. destruct (noc_base.coord_y G r); by simplify_eq.
Qed.

Lemma update_ports_info_local G r ports ports' :
  noc_base.update_ports_info G r ports = Done ports' ->
  exists ip,
    noc_base.ipcore_ref G r = Some ip /\
    ports' !! noc_base.address G r =
      Some {| noc_base.peer := noc_base.ep_ipcore ip;
              noc_base.channel := noc_base.ip_channel_ref ip |}.
Proof.
  rewrite update_ports_info_eq. case_decide as Hnode; [|done].
  intros ([ports1 updated] & _ & Hrest)%bind_Done.
  destruct (noc_base.ipcore_ref G r) as [ip|]; [|done].
  case_decide as Hkeys; [|done]. injection Hrest as <-.
  exists ip. split; [done|]. apply lookup_insert_eq.
Qed.

Lemma init_fifos_empty fuel G r fl ports routes self port data :
  init fuel G r fl ports routes = Done self ->
  ports_info self !! port = Some data ->
  fifo_in data = [] /\ fifo_out data = [].
Proof.
  intros (ports' & routes' & ? & ? & _ & _ & _ & _ & ->)%init_Done. cbn.
  rewrite lookup_fmap. destruct (ports' !! port); [|done]. by intros [= <-].
Qed.

Context {W : Type}.
Variable channel_recv :
  noc_base.chan -> pyobj -> pyobj -> packet -> option (gmap string Z) -> W -> outcome Z * W.


End constructed.



(** ** The routing table: grouping by first hop *)

Section grouping.
Import noc_base.

Lemma first_occurrences_elem (l : list addr) x : x ∈ first_occurrences l <-> x ∈ l.
Proof.
  induction l as [|y l IH]; cbn; [done|].
  rewrite !elem_of_cons, list_elem_of_filter, IH.
  destruct (decide (x = y)); naive_solver.
Qed.

Lemma first_occurrences_snoc (l : list addr) x :
  first_occurrences (l ++ [x]) =
  first_occurrences l ++ (if decide (x ∈ l) then [] else [x]).
Proof.
  induction l as [|y l IH]; cbn.
  - rewrite decide_False; [done|]. by intros ?%elem_of_nil.
  - rewrite IH, filter_app. f_equal. f_equal.
    destruct (decide (x ∈ l)) as [Hin|Hin].
    + rewrite decide_True; [done|]. by apply list_elem_of_further.
    + destruct (decide (x = y)) as [->|Hne].
      * rewrite decide_True by apply list_elem_of_here.
        rewrite filter_cons_False; [done|]. by intros ?.
      * rewrite decide_False.
        { by rewrite filter_cons_True. }
        rewrite elem_of_cons. naive_solver.
Qed.

Lemma add_route_grouped done entries r entries' :
  grouped done entries ->
  add_route entries r = Done entries' ->
  grouped (done ++ [r]) entries'.
Proof.
  intros (Hsec & Hnext & Hpaths) Hadd. unfold add_route in Hadd.
  destruct r as [|r0 [|r1 r]]; [done..|]. injection Hadd as <-.
  set (route := r0 :: r1 :: r) in *.
  assert (second route = Some r1) as Hr by done.
  set (entries1 := map _ entries).
  assert (map next entries1 = map next entries) as Hn1.
  { unfold entries1. rewrite map_map. apply map_ext. intros e. by case_decide. }
  assert (Forall (fun e => paths e =
            filter (fun r' => second r' = Some (next e)) (done ++ [route])) entries1) as Hp1.
  { unfold entries1. apply Forall_forall. intros e' He'.
    apply list_elem_of_In, in_map_iff in He' as (e & <- & He%list_elem_of_In).
    rewrite Forall_forall in Hpaths. specialize (Hpaths e He).
    rewrite filter_app. case_decide as Hd; cbn [paths next].
    - rewrite filter_cons_True by (by rewrite Hr, Hd). by rewrite Hpaths.
    - rewrite filter_cons_False by (rewrite Hr; congruence).
      by rewrite filter_nil, app_nil_r. }
  assert (forallb (fun e => negb (bool_decide (r1 = next e))) entries = true
          <-> r1 ∉ omap second done) as Hnew.
  { rewrite <-first_occurrences_elem, <-Hnext, forallb_forall. split.
    - intros Hall (e & Heq & He)%list_elem_of_In%in_map_iff.
      specialize (Hall e He). by rewrite bool_decide_eq_true_2 in Hall.
    - intros Hnot e He. apply negb_true_iff, bool_decide_eq_false_2. intros Heq.
      apply Hnot. rewrite Heq. apply list_elem_of_In, in_map, He. }
  split_and!.
  - apply Forall_app. split; [done|]. apply Forall_singleton. by rewrite Hr.
  - rewrite omap_app. change (omap second [route]) with [r1].
    rewrite first_occurrences_snoc.
    destruct (forallb _ entries) eqn:Hfb.
    + rewrite decide_False by (by apply Hnew).
      rewrite map_app, Hn1, Hnext. done.
    + rewrite decide_True.
      { by rewrite app_nil_r, Hn1. }
      destruct (decide (r1 ∈ omap second done)) as [|Hnot]; [done|].
      apply Hnew in Hnot. congruence.
  - destruct (forallb _ entries) eqn:Hfb; [|done].
    apply Forall_app. split; [done|]. apply Forall_singleton. cbn [paths next].
    rewrite filter_app, filter_cons_True, filter_nil by done.
    replace (filter _ done) with (@nil (list addr)); [done|].
    symmetry. apply elem_of_nil_inv. intros r' [Hr' Hin]%list_elem_of_filter.
    destruct Hnew as [Hnew _]. apply Hnew; [done|]. apply list_elem_of_omap. eauto.
Qed.

Lemma foldlM_add_route_grouped routes : forall done entries entries',
  grouped done entries ->
  foldlM add_route routes entries = Done entries' ->
  grouped (done ++ routes) entries'.
Proof.
  induction routes as [|r routes IH]; intros done entries entries' Hg; cbn.
  - intros [= <-]. by rewrite app_nil_r.
  - intros (entries1 & Hadd & Hrest)%bind_Done.
    rewrite (assoc_L (++) done [r] routes : done ++ r :: routes = (done ++ [r]) ++ routes).
    eapply IH; [|done]. by eapply add_route_grouped.
Qed.

Lemma routes_to_grouped fuel G self dest entries :
  routes_to fuel G self dest = Done entries ->
  exists shortest_routes,
    all_shortest_paths fuel G self dest = Done shortest_routes /\
    grouped (map (map (address G)) shortest_routes) entries.
Proof.
  unfold routes_to. intros (routes & Hr & Hf)%bind_Done.
  exists routes. split; [done|].
  apply (foldlM_add_route_grouped _ [] []) in Hf; [done|].
  split_and!; by constructor.
Qed.

(** The table [update_routes_info] returns, destination by destination. *)
Lemma update_routes_info_fold fuel G self dests :
  forall tbl tbl' : gmap node (list route_entry),
  foldlM (fun tbl destrouter =>
            if decide (destrouter = self) then Done tbl
            else entries ← routes_to fuel G self destrouter;
                 Done (<[destrouter := entries]> tbl)) dests tbl = Done tbl' ->
  forall dest,
    (dest ∈ dests -> dest <> self ->
       exists entries, routes_to fuel G self dest = Done entries /\
                       tbl' !! dest = Some entries) /\
    ((dest ∉ dests \/ dest = self) -> tbl' !! dest = tbl !! dest).
Proof.
  induction dests as [|d dests IH]; intros tbl tbl'; cbn.
  - intros [= <-] dest. split; [by intros ?%elem_of_nil|done].
  - intros (tbl1 & Hstep & Hrest)%bind_Done dest.
    specialize (IH _ _ Hrest dest) as [IH1 IH2].
    case_decide as Hd.
    + injection Hstep as <-. subst d. split.
      * intros [->|Hin]%elem_of_cons Hne; [done|]. by apply IH1.
      * intros [Hnin| ->]; [|by apply IH2; right].
        apply IH2. left. intros Hin. apply Hnin. by apply list_elem_of_further.
    + apply bind_Done in Hstep as (entries & Hto & [= <-]). split.
      * intros Hin Hne. destruct (decide (dest ∈ dests)) as [Hin'|Hnin]; [by apply IH1|].
        apply elem_of_cons in Hin as [->|Hin]; [|done].
        exists entries. split; [done|]. rewrite IH2 by (by left). apply lookup_insert_eq.
      * intros Hor.
        assert (dest <> d) as Hne.
        { intros ->. destruct Hor as [Hnin| ->]; [|done]. apply Hnin, list_elem_of_here. }
        rewrite IH2.
        { by apply lookup_insert_ne. }
        destruct Hor as [Hnin| ->]; [|by right]. left. intros Hin.
        apply Hnin. by apply list_elem_of_further.
Qed.

Lemma update_routes_info_lookup fuel G self prior tbl dest entries :
  update_routes_info fuel G self prior = Done tbl ->
  tbl !! dest = Some entries ->
  dest ∈ nodes G /\ dest <> self /\ routes_to fuel G self dest = Done entries.
Proof.
  unfold update_routes_info, router_list. intros Hf Hl.
  destruct (update_routes_info_fold _ _ _ _ _ _ Hf dest) as [H1 H2].
  destruct (decide (dest ∈ nodes G)) as [Hin|Hnin].
  - destruct (decide (dest = self)) as [->|Hne].
    + rewrite H2 in Hl by (by right). by rewrite lookup_empty in Hl.
    + destruct (H1 Hin Hne) as (entries' & Hto & Hl'). split_and!; congruence.
  - rewrite H2 in Hl by (by left). by rewrite lookup_empty in Hl.
Qed.

(** C5: in the table [update_routes_info] builds at [self], the entries of a
    destination are grouped by first hop: their ["next"] fields are the second
    nodes of the shortest paths to the destination, each once and in the order
    the path enumeration first produced them (so the first path's first hop is
    entry 0); the ["paths"] of an entry are all the shortest paths with that
    second node, in the order of the enumeration; and two of the shortest paths
    are in the ["paths"] of one entry exactly when they have the same second
    node. *)
Theorem routes_grouped_by_first_hop fuel G self prior tbl dest entries :
  update_routes_info fuel G self prior = Done tbl ->
  tbl !! dest = Some entries ->
  exists shortest_routes,
    all_shortest_paths fuel G self dest = Done shortest_routes /\
    let routes := map (map (address G)) shortest_routes in
    map next entries = first_occurrences (omap second routes) /\
    (forall e, e ∈ entries ->
       paths e = filter (fun r => second r = Some (next e)) routes) /\
    (forall r1 r2, r1 ∈ routes -> r2 ∈ routes ->
       (exists e, e ∈ entries /\ r1 ∈ paths e /\ r2 ∈ paths e) <-> second r1 = second r2).
Proof.
  intros Hupd Hl.
  destruct (update_routes_info_lookup _ _ _ _ _ _ _ Hupd Hl) as (_ & _ & Hto).
  destruct (routes_to_grouped _ _ _ _ _ Hto) as (routes & Hasp & Hsec & Hnext & Hpaths).
  exists routes. split; [done|]. cbn.
  rewrite Forall_forall in Hpaths. rewrite Forall_forall in Hsec.
  split_and!; [done|done|].
  intros r1 r2 Hr1 Hr2. split.
  - intros (e & He & H1 & H2). rewrite (Hpaths e He) in H1, H2.
    apply list_elem_of_filter in H1 as [H1 _]. apply list_elem_of_filter in H2 as [H2 _].
    congruence.
  - intros Heq. destruct (Hsec _ Hr1) as [x Hx].
    assert (x ∈ map next entries) as Hin.
    { rewrite Hnext. apply first_occurrences_elem, list_elem_of_omap. eauto. }
    apply list_elem_of_In, in_map_iff in Hin as (e & <- & He%list_elem_of_In).
    exists e. rewrite (Hpaths e He). split; [done|].
    split; apply list_elem_of_filter; split; congruence.
Qed.

End grouping.

Lemma routes_grouped_by_first_hop_witness :
  exists shortest_routes,
    noc_base.all_shortest_paths 100 mesh.G 0 3 = Done shortest_routes /\
    let routes := map (map (noc_base.address mesh.G)) shortest_routes in
    map noc_base.next mesh.entries03 = noc_base.first_occurrences (omap noc_base.second routes) /\
    (forall e, e ∈ mesh.entries03 ->
       noc_base.paths e =
         filter (fun r => noc_base.second r = Some (noc_base.next e)) routes) /\
    (forall r1 r2, r1 ∈ routes -> r2 ∈ routes ->
       (exists e, e ∈ mesh.entries03 /\ r1 ∈ noc_base.paths e /\ r2 ∈ noc_base.paths e)
       <-> noc_base.second r1 = noc_base.second r2).
Proof.
  apply (routes_grouped_by_first_hop 100 mesh.G 0 ∅ mesh.table0 3 mesh.entries03).
  - vm_compute. reflexivity.
  - vm_compute. reflexivity.
Defined.

(** ** The routing table: determinism *)

Section determinism.
Import noc_base.

Lemma fuel_mono_agree {A} (F : nat -> outcome A) f1 f2 a1 a2 :
  fuel_mono F -> F f1 = Done a1 -> F f2 = Done a2 -> a1 = a2.
Proof.
  intros Hm H1 H2.
  apply (Hm _ (f1 `max` f2)%nat) in H1; [|lia].
  apply (Hm _ (f1 `max` f2)%nat) in H2; [|lia]. congruence.
Qed.

Lemma fuel_mono_bind {A B} (F : nat -> outcome A) (K : nat -> A -> outcome B) :
  fuel_mono F -> (forall a, fuel_mono (fun fuel => K fuel a)) ->
  fuel_mono (fun fuel => a ← F fuel; K fuel a).
Proof.
  intros HF HK fuel fuel' b (a & Ha & Hb)%bind_Done Hle.
  rewrite (HF _ _ _ Ha Hle). cbn. by apply (HK a fuel).
Qed.

Lemma fuel_mono_foldlM {A B} (f : nat -> A -> B -> outcome A) l :
  (forall a x, fuel_mono (fun fuel => f fuel a x)) ->
  forall a, fuel_mono (fun fuel => foldlM (f fuel) l a).
Proof.
  intros Hf. induction l as [|x l IH]; intros a fuel fuel' r; cbn.
  - done.
  - intros (a1 & Ha & Hr)%bind_Done Hle.
    rewrite (Hf a x _ _ _ Ha Hle). cbn. by apply (IH a1 fuel).
Qed.

Lemma bfs_loop_mono G : forall level st, fuel_mono (fun fuel => bfs_loop fuel G level st).
Proof.
  intros level st fuel. revert level st.
  induction fuel as [|fuel IH]; intros level st fuel' P; cbn.
  - destruct (nextlevel st) eqn:Hn; [|done]. intros [= <-] _.
    destruct fuel'; cbn; by rewrite Hn.
  - destruct (nextlevel st) eqn:Hn.
    + intros [= <-] _. destruct fuel'; cbn; by rewrite Hn.
    + intros H Hle. destruct fuel' as [|fuel']; [lia|]. cbn. rewrite Hn.
      apply (IH _ _ _ _ H). lia.
Qed.

Lemma asp_loop_mono pred b : forall st, fuel_mono (fun fuel => asp_loop fuel pred b st).
Proof.
  intros st fuel. revert st.
  induction fuel as [|fuel IH]; intros st fuel' r; cbn.
  - case_decide as Hi; [done|]. intros [= <-] _. destruct fuel'; cbn; by rewrite decide_False.
  - case_decide as Hi.
    + intros (st' & Hb & Hr)%bind_Done Hle. destruct fuel' as [|fuel']; [lia|]. cbn.
      rewrite decide_True by done. rewrite Hb. cbn. apply (IH _ _ _ Hr). lia.
    + intros [= <-] _. destruct fuel'; cbn; by rewrite decide_False.
Qed.

Lemma predecessor_mono G source : fuel_mono (fun fuel => predecessor fuel G source).
Proof.
  unfold predecessor. case_decide; [apply bfs_loop_mono|]. by intros ? ? ?.
Qed.

Lemma all_shortest_paths_mono G a b : fuel_mono (fun fuel => all_shortest_paths fuel G a b).
Proof.
  unfold all_shortest_paths. apply fuel_mono_bind.
  - apply predecessor_mono.
  - intros pred. destruct (pred !! a); [apply asp_loop_mono|]. by intros ? ? ?.
Qed.

Lemma routes_to_mono G self dest : fuel_mono (fun fuel => routes_to fuel G self dest).
Proof.
  unfold routes_to. apply fuel_mono_bind; [apply all_shortest_paths_mono|].
  by intros routes ? ? ?.
Qed.

Lemma update_routes_info_mono G self prior :
  fuel_mono (fun fuel => update_routes_info fuel G self prior).
Proof.
  unfold update_routes_info.
  apply (fuel_mono_foldlM (fun fuel tbl destrouter =>
           if decide (destrouter = self) then Done tbl
           else entries ← routes_to fuel G self destrouter;
                Done (<[destrouter := entries]> tbl))).
  intros tbl d. case_decide; [by intros ? ? ?|].
  apply fuel_mono_bind; [apply routes_to_mono|]. by intros ? ? ? ?.
Qed.

(** The table does not depend on what [routes_info] held before. *)
Lemma update_routes_info_clears fuel G self prior1 prior2 :
  update_routes_info fuel G self prior1 = update_routes_info fuel G self prior2.
Proof. reflexivity. Qed.

(** Two runs of [all_shortest_paths] on the same graph object and nodes
    return the same list of paths, and two runs of [update_routes_info] on the
    same router return the same table, whatever [routes_info] held before
    each run, the table of the first run included, and however long each run
    took. *)
Lemma update_routes_info_same_graph G :
  (forall a b fuel1 fuel2 paths1 paths2,
     all_shortest_paths fuel1 G a b = Done paths1 ->
     all_shortest_paths fuel2 G a b = Done paths2 ->
     paths1 = paths2) /\
  (forall self fuel1 fuel2 prior1 prior2 tbl1 tbl2,
     update_routes_info fuel1 G self prior1 = Done tbl1 ->
     update_routes_info fuel2 G self prior2 = Done tbl2 ->
     tbl1 = tbl2) /\
  (forall self fuel1 fuel2 prior tbl1 tbl2,
     update_routes_info fuel1 G self prior = Done tbl1 ->
     update_routes_info fuel2 G self tbl1 = Done tbl2 ->
     tbl2 = tbl1).
Proof.
  split_and!.
  - intros a b f1 f2 p1 p2.
    apply (fuel_mono_agree (fun fuel => all_shortest_paths fuel G a b)),
      all_shortest_paths_mono.
  - intros self f1 f2 prior1 prior2 t1 t2 H1 H2.
    rewrite (update_routes_info_clears _ _ _ prior2 prior1) in H2.
    by apply (fuel_mono_agree (fun fuel => update_routes_info fuel G self prior1)
                f1 f2 t1 t2 (update_routes_info_mono G self prior1)).
  - intros self f1 f2 prior t1 t2 H1 H2.
    rewrite (update_routes_info_clears _ _ _ t1 prior) in H2.
    by apply (fuel_mono_agree (fun fuel => update_routes_info fuel G self prior)
                f2 f1 t2 t1 (update_routes_info_mono G self prior)).
Qed.

End determinism.

(** ** The breadth-first search *)

Section bfs.
Import noc_base.
Variable G : noc.
Hypothesis G_wf : wf_noc G.
Variable source : node.

Lemma bfs_visit_seen_mono level v st w n i :
  seen st !! n = Some i -> seen (bfs_visit level v st w) !! n = Some i.
Proof.
  intros Hn. unfold bfs_visit. destruct (seen st !! w) as [l|] eqn:Hw.
  - by case_decide.
  - cbn. rewrite lookup_insert_ne; [done|]. congruence.
Qed.

Lemma unseen_insert (l : list node) (sn : gmap node nat) w x :
  sn !! w = None ->
  (length (filter (fun n => <[w := x]> sn !! n = None) l)
     <= length (filter (fun n => sn !! n = None) l))%nat /\
  (w ∈ l ->
   (length (filter (fun n => <[w := x]> sn !! n = None) l)
      < length (filter (fun n => sn !! n = None) l))%nat).
Proof.
  intros Hw. induction l as [|y l [IH1 IH2]]; [split; [done|by intros ?%elem_of_nil]|].
  destruct (decide (y = w)) as [->|Hne].
  - rewrite (filter_cons_False _ w) by (by rewrite lookup_insert_eq).
    rewrite (filter_cons_True _ w) by done. cbn. split; [lia|]. intros _. lia.
  - destruct (sn !! y) as [j|] eqn:Hy.
    + rewrite !filter_cons_False; [|by rewrite Hy|by rewrite lookup_insert_ne, Hy].
      split; [done|]. intros [?|Hin]%elem_of_cons; [done|]. by apply IH2.
    + rewrite !filter_cons_True; [|done|by rewrite lookup_insert_ne].
      cbn. split; [lia|]. intros [?|Hin]%elem_of_cons; [done|].
      specialize (IH2 Hin). lia.
Qed.

(** One neighbour [w] of a node [v] of the complete level. *)
Lemma bfs_visit_inv level st0 st v w :
  level_inv G source level st0 st ->
  seen st0 !! v = Some level -> w ∈ adj G v ->
  level_inv G source level st0 (bfs_visit (S level) v st w) /\
  exists i, seen (bfs_visit (S level) v st w) !! w = Some i /\ (i <= S level)%nat.
Proof.
  intros [Hsrc Hzero Hlevel Hfront Hold Hpred Hnodes Hdom Hmeas] Hv Hw.
  assert (seen st !! v = Some level) as Hv' by (by apply Hold).
  assert (v ∈ nodes G) as Hvn by (apply Hnodes; eauto).
  assert (w ∈ nodes G) as Hwn by (by eapply wf_closed).
  unfold bfs_visit. destruct (seen st !! w) as [l|] eqn:Hsw.
  - case_decide as Hl.
    + subst l. split; [|eauto]. split; cbn; try done.
      * destruct Hsrc as [Hs1 Hs2]. split; [done|].
        rewrite lookup_alter_ne; [done|]. intros <-. congruence.
      * intros n j Hn. destruct (decide (n = w)) as [->|Hne].
        -- rewrite lookup_alter_eq. rewrite Hsw in Hn. injection Hn as <-.
           destruct (Hpred _ _ Hsw) as (c & cs & -> & Hcs). cbn.
           exists c, (cs ++ [v]). split; [done|].
           intros u [Hu|Hu%list_elem_of_singleton]%(elem_of_app (c :: cs)); [by apply Hcs|].
           by subst u.
        -- rewrite lookup_alter_ne by done. by apply Hpred.
      * intros n. rewrite lookup_alter. case_decide; [|apply Hdom].
        subst n. eauto.
    + split; [by split|]. exists l. split; [done|]. by eapply Hlevel.
  - split; [|exists (S level); split; [by cbn; rewrite lookup_insert_eq|lia]].
    assert (w <> source) as Hws by (intros ->; destruct Hsrc; congruence).
    split; cbn.
    + destruct Hsrc. by rewrite !lookup_insert_ne.
    + intros n. rewrite lookup_insert. case_decide; [done|]. apply Hzero.
    + intros n j. rewrite lookup_insert. case_decide; [intros [= <-]; lia|]. apply Hlevel.
    + intros n. rewrite lookup_insert, elem_of_app, list_elem_of_singleton.
      case_decide as Hd; [subst n; naive_solver|]. rewrite Hfront. naive_solver.
    + intros n j Hj. rewrite lookup_insert. case_decide as Hd; [|by apply Hold].
      subst n. split; [intros [= <-]; lia|]. intros Hn%Hold; [congruence|done].
    + intros n j. rewrite lookup_insert. case_decide as Hd.
      * subst n. intros [= <-]. exists v, []. rewrite lookup_insert_eq. split; [done|].
        intros u ->%list_elem_of_singleton. rewrite lookup_insert_ne by congruence. done.
      * intros Hn. destruct (Hpred _ _ Hn) as (c & cs & Hp & Hcs).
        exists c, cs. rewrite lookup_insert_ne by done. split; [done|].
        intros u Hu. destruct (Hcs u Hu) as [Hu1 Hu2]. split; [|done].
        rewrite lookup_insert_ne; [done|]. congruence.
    + intros n. rewrite lookup_insert. case_decide; [by subst n|]. apply Hnodes.
    + intros n. rewrite !lookup_insert. case_decide; [eauto|]. apply Hdom.
    + rewrite length_app. cbn. unfold unseen in *. cbn.
      destruct (unseen_insert (nodes G) (seen st) w (S level) Hsw) as [_ Hlt].
      specialize (Hlt Hwn). lia.
Qed.

(** All the neighbours of a node [v] of the complete level. *)
Lemma bfs_expand_inv level st0 v ws : forall st,
  level_inv G source level st0 st ->
  seen st0 !! v = Some level -> (forall w, w ∈ ws -> w ∈ adj G v) ->
  level_inv G source level st0 (fold_left (bfs_visit (S level) v) ws st) /\
  (forall n i, seen st !! n = Some i ->
     seen (fold_left (bfs_visit (S level) v) ws st) !! n = Some i) /\
  forall w, w ∈ ws ->
    exists i, seen (fold_left (bfs_visit (S level) v) ws st) !! w = Some i /\
              (i <= S level)%nat.
Proof.
  induction ws as [|w ws IH]; intros st Hinv Hv Hws; cbn.
  - split_and!; [done|done|by intros w ?%elem_of_nil].
  - destruct (bfs_visit_inv _ _ _ v w Hinv Hv) as [Hinv1 (i & Hi & Hle)];
      [apply Hws, list_elem_of_here|].
    destruct (IH _ Hinv1 Hv) as (Hinv2 & Hmono & Hall);
      [intros w' Hw'; by apply Hws, list_elem_of_further|].
    split_and!; [done| |].
    + intros n j Hn. by apply Hmono, bfs_visit_seen_mono.
    + intros w' [->|Hw']%elem_of_cons; [|by apply Hall].
      exists i. split; [by apply Hmono|done].
Qed.

(** All the nodes of the complete level. *)
Lemma bfs_expand_all_inv level st0 vs : forall st,
  level_inv G source level st0 st ->
  (forall v, v ∈ vs -> seen st0 !! v = Some level) ->
  let st' := fold_left (fun st v => fold_left (bfs_visit (S level) v) (adj G v) st) vs st in
  level_inv G source level st0 st' /\
  (forall n i, seen st !! n = Some i -> seen st' !! n = Some i) /\
  forall v w, v ∈ vs -> w ∈ adj G v ->
    exists i, seen st' !! w = Some i /\ (i <= S level)%nat.
Proof.
  induction vs as [|v vs IH]; intros st Hinv Hvs; cbn.
  - split_and!; [done|done|by intros v w ?%elem_of_nil].
  - destruct (bfs_expand_inv level st0 v (adj G v) st Hinv) as (Hinv1 & Hmono1 & Hall1);
      [apply Hvs, list_elem_of_here|done|].
    destruct (IH _ Hinv1) as (Hinv2 & Hmono2 & Hall2);
      [intros v' Hv'; by apply Hvs, list_elem_of_further|].
    split_and!; [done| |].
    + intros n i Hn. by apply Hmono2, Hmono1.
    + intros v' w [->|Hv']%elem_of_cons Hw; [|by eapply Hall2].
      destruct (Hall1 w Hw) as (i & Hi & Hle). exists i. split; [by apply Hmono2|done].
Qed.

Lemma level_inv_start level st :
  bfs_inv G source level st ->
  level_inv G source level st {| seen := seen st; pred := pred st; nextlevel := [] |}.
Proof.
  intros [Hsrc Hzero Hlevel Hfront Hclosed Hpred Hnodes Hdom]. split; cbn; try done.
  - intros n j Hn. specialize (Hlevel _ _ Hn). lia.
  - intros n. split; [|by intros ?%elem_of_nil].
    intros Hn. specialize (Hlevel _ _ Hn). lia.
Qed.

(** One iteration of [while nextlevel]. *)
Lemma bfs_level_inv level st :
  bfs_inv G source level st ->
  bfs_inv G source (S level) (bfs_level G (S level) st) /\
  (nextlevel (bfs_level G (S level) st) = [] \/
   (unseen G (bfs_level G (S level) st) < unseen G st)%nat).
Proof.
  intros Hinv. pose proof (level_inv_start _ _ Hinv) as Hstart.
  destruct (bfs_expand_all_inv level st (nextlevel st) _ Hstart) as (Hlv & Hmono & Hall).
  { intros v Hv. by apply (inv_frontier _ _ _ _ Hinv). }
  fold (bfs_level G (S level) st) in Hlv, Hmono, Hall. cbn in Hmono.
  destruct Hinv as [Hsrc Hzero Hlevel Hfront Hclosed Hpred Hnodes Hdom].
  destruct Hlv as [Lsrc Lzero Llevel Lfront Lold Lpred Lnodes Ldom Lmeas].
  split.
  - split; try done. intros u j w Hu Hj Hw.
    destruct (decide (j = level)) as [->|Hne].
    + apply (Hall u w); [|done]. apply Hfront. by apply Lold.
    + assert (j < level)%nat as Hlt by lia.
      assert (seen st !! u = Some j) as Hu0 by (apply Lold; [lia|done]).
      destruct (Hclosed u j w Hu0 Hlt Hw) as (i & Hi & Hle).
      exists i. split; [|done]. by apply Hmono.
  - destruct (nextlevel (bfs_level G (S level) st)) as [|x l]; [by left|].
    right. cbn in Lmeas. lia.
Qed.

Lemma bfs_init_inv : source ∈ nodes G -> bfs_inv G source 0 (bfs_init source).
Proof.
  intros Hs. split; cbn.
  - by rewrite !lookup_singleton_eq.
  - intros n Hn. apply lookup_singleton_Some in Hn. by destruct Hn.
  - intros n j [_ <-]%lookup_singleton_Some. lia.
  - intros n. rewrite lookup_singleton_Some, list_elem_of_singleton. naive_solver.
  - intros u j w _ Hj. lia.
  - intros n j [_ [=]]%lookup_singleton_Some.
  - intros n [j [<- _]%lookup_singleton_Some]. done.
  - intros n [l [<- _]%lookup_singleton_Some]. rewrite lookup_singleton_eq. eauto.
Qed.

Lemma bfs_inv_tree level st :
  bfs_inv G source level st -> nextlevel st = [] ->
  bfs_tree G source (seen st) (pred st).
Proof.
  intros [Hsrc Hzero Hlevel Hfront Hclosed Hpred Hnodes Hdom] Hnil. split; try done.
  intros u j w Hu Hw. apply (Hclosed u j w Hu); [|done].
  specialize (Hlevel _ _ Hu). destruct (decide (j = level)) as [->|]; [|lia].
  apply Hfront in Hu. rewrite Hnil in Hu. by apply elem_of_nil in Hu.
Qed.

(** The loop ends, and leaves the levels and predecessors of a search. *)
Lemma bfs_loop_tree fuel : forall level st,
  bfs_inv G source level st ->
  nextlevel st = [] \/ (unseen G st < fuel)%nat ->
  exists levels preds,
    bfs_loop fuel G level st = Done preds /\ bfs_tree G source levels preds.
Proof.
  induction fuel as [|fuel IH]; intros level st Hinv Hfuel.
  - destruct Hfuel as [Hnil|?]; [|lia]. exists (seen st), (pred st). cbn. rewrite Hnil.
    split; [done|]. by eapply bfs_inv_tree.
  - cbn. destruct (nextlevel st) as [|x l] eqn:Hn.
    + exists (seen st), (pred st). split; [done|]. by eapply bfs_inv_tree.
    + destruct (bfs_level_inv _ _ Hinv) as [Hinv' Hm].
      apply (IH _ _ Hinv'). destruct Hm as [?|Hlt]; [by left|].
      right. destruct Hfuel as [?|?]; [done|lia].
Qed.

Lemma predecessor_tree fuel :
  source ∈ nodes G -> (length (nodes G) < fuel)%nat ->
  exists levels preds,
    predecessor fuel G source = Done preds /\ bfs_tree G source levels preds.
Proof.
  intros Hs Hfuel. unfold predecessor. rewrite decide_True by done.
  apply bfs_loop_tree; [by apply bfs_init_inv|].
  right. unfold unseen. pose proof (length_filter (fun n => seen (bfs_init source) !! n = None) (nodes G)).
  lia.
Qed.

End bfs.

(** ** Levels and distances *)

Section distances.
Import noc_base.
Variable G : noc.
Hypothesis G_wf : wf_noc G.

Lemma walk_snoc a c n j : walk G a c j -> n ∈ adj G c -> walk G a n (S j).
Proof.
  induction 1 as [v|u v w k Huv Hw IH]; intros Hn.
  - eapply walk_S; [done|]. apply walk_O.
  - eapply walk_S; [done|]. by apply IH.
Qed.

Lemma walk_sym a b k : walk G a b k -> walk G b a k.
Proof.
  induction 1 as [v|u v w k Huv Hw IH]; [apply walk_O|].
  eapply walk_snoc; [done|]. by apply (wf_sym G G_wf).
Qed.

Variable source : node.
Variable levels : gmap node nat.
Variable preds : gmap node (list node).
Hypothesis tree : bfs_tree G source levels preds.

Lemma tree_walk j : forall n, levels !! n = Some j -> walk G source n j.
Proof.
  induction j as [|j IH]; intros n Hn.
  - apply (tree_zero _ _ _ _ tree) in Hn as ->. apply walk_O.
  - destruct (tree_pred _ _ _ _ tree _ _ Hn) as (c & l & _ & Hc).
    destruct (Hc c) as [Hlc Hadj]; [apply list_elem_of_here|].
    eapply walk_snoc; [by apply IH|done].
Qed.

Lemma walk_tree u w m :
  walk G u w m -> forall j, levels !! u = Some j ->
  exists i, levels !! w = Some i /\ (i <= j + m)%nat.
Proof.
  induction 1 as [v|u v w k Huv Hw IH]; intros j Hj.
  - exists j. split; [done|lia].
  - destruct (tree_closed _ _ _ _ tree u j v Hj Huv) as (i & Hi & Hle).
    destruct (IH _ Hi) as (i' & Hi' & Hle'). exists i'. split; [done|lia].
Qed.

(** The level of a node is its distance to the source. *)
Lemma tree_dist a d : shortest_dist G a source d -> levels !! a = Some d.
Proof.
  intros [Hw Hmin]. apply walk_sym in Hw.
  destruct (walk_tree _ _ _ Hw 0%nat) as (i & Hi & Hle);
    [apply (tree_source _ _ _ _ tree)|].
  pose proof (Hmin _ (walk_sym _ _ _ (tree_walk _ _ Hi))). rewrite Hi. f_equal. lia.
Qed.

Lemma tree_preds_defined n j : levels !! n = Some j -> is_Some (preds !! n).
Proof.
  destruct j as [|j]; intros Hn.
  - apply (tree_zero _ _ _ _ tree) in Hn as ->.
    destruct (tree_source _ _ _ _ tree) as [_ ->]. eauto.
  - destruct (tree_pred _ _ _ _ tree _ _ Hn) as (c & l & -> & _). eauto.
Qed.

End distances.

(** ** The stack walk of [all_shortest_paths] *)

Section stack_walk.
Import noc_base.
Variable preds : gmap node (list node).
Variable b : node.

Lemma asp_up_snoc stk m i tl ret :
  asp_up (stk ++ [(m, i)]) tl ret = asp_at stk m (S i) tl ret.
Proof.
  unfold asp_up, asp_at. rewrite length_app. cbn [length].
  replace (Nat.pred (length stk + 1)) with (length stk + 0)%nat by lia.
  rewrite alter_app_r. cbn. rewrite <-!(assoc_L (++)). cbn. f_equal.
  - rewrite !length_app. cbn. lia.
  - lia.
Qed.

Lemma asp_reaches_refl st : asp_reaches preds b st st.
Proof. by exists 0%nat. Qed.

Lemma asp_reaches_trans st1 st2 st3 :
  asp_reaches preds b st1 st2 -> asp_reaches preds b st2 st3 ->
  asp_reaches preds b st1 st3.
Proof.
  intros [f1 H1] [f2 H2]. exists (f1 + f2)%nat. intros f.
  by rewrite <-Nat.add_assoc, H1, H2.
Qed.

Lemma asp_reaches_step st st' :
  0 <= ind st -> asp_body preds b st = Done st' -> asp_reaches preds b st st'.
Proof.
  intros Hi Hb. exists 1%nat. intros f. cbn. rewrite decide_True by done.
  by rewrite Hb.
Qed.

Ltac solve_length := rewrite ?length_app; cbn [length]; lia.

Lemma listitem_middle {A} (l1 l2 : list A) x : listitem (l1 ++ x :: l2) (length l1) = Done x.
Proof. unfold listitem. by rewrite list_lookup_middle. Qed.

(** One iteration at a position of the stack. *)
Lemma asp_body_at stk n i rest ret pn :
  preds !! n = Some pn ->
  asp_body preds b (asp_at stk n i rest ret) =
    let ret' := if decide (n = b) then ret ++ [map fst stk ++ [n]] else ret in
    match pn !! i with
    | Some c => Done (asp_at (stk ++ [(n, i)]) c 0 (tail rest) ret')
    | None => Done (asp_up stk ((n, i) :: rest) ret')
    end.
Proof.
  intros Hpn. unfold asp_body, asp_at. cbn [pth ind noc_base.ret pthlength].
  rewrite Nat2Z.id, listitem_middle.
  cbn [mbind outcome_bind obind]. unfold getitem. rewrite Hpn.
  cbn [mbind outcome_bind obind].
  replace (Z.to_nat (Z.of_nat (length stk) + 1)) with (S (length stk)) by lia.
  replace (take (S (length stk)) (stk ++ (n, i) :: rest)) with (stk ++ [(n, i)]).
  2:{ rewrite (take_app_ge stk) by lia.
      replace (S (length stk) - length stk)%nat with 1%nat by lia. done. }
  rewrite map_app. cbn [map fst].
  destruct (pn !! i) as [c|] eqn:Hc.
  - rewrite decide_True by (by eapply lookup_lt_Some).
    rewrite (proj2 (listitem_Done _ _ _) Hc). cbn [mbind outcome_bind obind].
    destruct rest as [|y rest].
    + rewrite decide_True by (rewrite !length_app; cbn; lia).
      cbn zeta. f_equal. rewrite <-!(assoc_L (++)). cbn. f_equal.
      * solve_length.
      * solve_length.
    + rewrite decide_False by (rewrite !length_app; cbn; lia).
      rewrite decide_True by (rewrite !length_app; cbn; lia).
      cbn zeta. f_equal. rewrite <-!(assoc_L (++)). cbn. f_equal.
      * replace (S (length stk)) with (length stk + 1)%nat by lia.
        by rewrite insert_app_r.
      * solve_length.
      * solve_length.
  - rewrite decide_False by (apply lookup_ge_None in Hc; lia).
    cbn zeta. destruct stk as [|s stk _] using rev_ind.
    + cbn. rewrite decide_False by lia. done.
    + destruct s as [m j]. rewrite decide_True by (rewrite length_app; cbn; lia).
      rewrite asp_up_snoc. unfold asp_at.
      replace (Z.to_nat (Z.of_nat (length (stk ++ [(m, j)])) - 1)) with (length stk + 0)%nat
        by (rewrite length_app; cbn; lia).
      rewrite <-!(assoc_L (++)). cbn [app].
      rewrite Nat.add_0_r, listitem_middle. cbn [mbind outcome_bind obind].
      rewrite <-(Nat.add_0_r (length stk)) at 1.
      rewrite insert_app_r. cbn. f_equal. f_equal.
      * solve_length.
      * solve_length.
Qed.

Variable G : noc.
Variable levels : gmap node nat.
Hypothesis tree : bfs_tree G b levels preds.

Lemma enum_paths_target depth : enum_paths depth preds b b = [[b]].
Proof. destruct depth; cbn; by rewrite decide_True. Qed.

Lemma enum_paths_inner depth n cs :
  n <> b -> preds !! n = Some cs ->
  enum_paths (S depth) preds b n =
    flat_map (fun c => map (cons n) (enum_paths depth preds b c)) cs.
Proof. intros Hn Hcs. cbn. rewrite decide_False by done. by rewrite Hcs. Qed.

Lemma flat_map_prefix (pre : list node) n (f : node -> list (list node)) cs :
  map (app pre) (flat_map (fun c => map (cons n) (f c)) cs) =
  flat_map (fun c => map (app (pre ++ [n])) (f c)) cs.
Proof.
  induction cs as [|c cs IH]; cbn; [done|].
  rewrite map_app, IH, map_map. f_equal. apply map_ext. intros p.
  by rewrite <-(assoc_L (++)).
Qed.

(** The walk at the target: the path is listed and the loop steps back. *)
Lemma asp_visit_target depth stk rest ret :
  asp_reaches preds b (asp_at stk b 0 rest ret)
    (asp_up stk ((b, 0%nat) :: rest)
       (ret ++ map (app (map fst stk)) (enum_paths depth preds b b))).
Proof.
  apply asp_reaches_step; [cbn; lia|].
  destruct (tree_source _ _ _ _ tree) as [_ Hb].
  rewrite (asp_body_at _ _ _ _ _ _ Hb). cbn. rewrite decide_True by done.
  by rewrite enum_paths_target.
Qed.

(** The walk below a node other than the target, from its [i]-th
    predecessor on, given the walk below each predecessor. *)
Lemma asp_visit_children depth n cs stk :
  n <> b -> preds !! n = Some cs ->
  (forall c, c ∈ cs -> forall stk rest ret, exists tl,
     asp_reaches preds b (asp_at stk c 0 rest ret)
       (asp_up stk tl (ret ++ map (app (map fst stk)) (enum_paths depth preds b c)))) ->
  forall m i rest ret, (i + m = length cs)%nat ->
  exists tl,
    asp_reaches preds b (asp_at stk n i rest ret)
      (asp_up stk tl
         (ret ++ flat_map (fun c => map (app (map fst stk ++ [n]))
                                        (enum_paths depth preds b c)) (drop i cs))).
Proof.
  intros Hn Hcs Hvisit. induction m as [|m IH]; intros i rest ret Hlen.
  - exists ((n, i) :: rest). apply asp_reaches_step; [cbn; lia|].
    rewrite (asp_body_at _ _ _ _ _ _ Hcs). cbn zeta.
    rewrite decide_False by done.
    rewrite (proj2 (lookup_ge_None _ _)) by lia.
    rewrite drop_ge by lia. cbn. by rewrite app_nil_r.
  - destruct (lookup_lt_is_Some_2 cs i) as [c Hc]; [lia|].
    destruct (Hvisit c (list_elem_of_lookup_2 _ _ _ Hc) (stk ++ [(n, i)]) (tail rest) ret)
      as [tl1 H1].
    rewrite asp_up_snoc in H1.
    destruct (IH (S i) tl1
                (ret ++ map (app (map fst (stk ++ [(n, i)]))) (enum_paths depth preds b c)))
      as [tl2 H2]; [lia|].
    exists tl2. eapply asp_reaches_trans; [|eapply asp_reaches_trans; [exact H1|]].
    + apply asp_reaches_step; [cbn; lia|].
      rewrite (asp_body_at _ _ _ _ _ _ Hcs). cbn zeta.
      rewrite decide_False by done. by rewrite Hc.
    + rewrite (drop_S _ _ _ Hc). cbn [flat_map].
      rewrite map_app in H2 |- *. cbn [map fst] in H2 |- *.
      by rewrite <-(assoc_L (++)) in H2.
Qed.

(** The walk below a node whose level is at most [depth]. *)
Lemma asp_visit depth : forall n j,
  levels !! n = Some j -> (j <= depth)%nat ->
  forall stk rest ret, exists tl,
    asp_reaches preds b (asp_at stk n 0 rest ret)
      (asp_up stk tl (ret ++ map (app (map fst stk)) (enum_paths depth preds b n))).
Proof.
  induction depth as [|depth IH]; intros n j Hn Hj stk rest ret.
  - assert (j = 0%nat) as -> by lia. apply (tree_zero _ _ _ _ tree) in Hn as ->.
    eexists. apply asp_visit_target.
  - destruct (decide (n = b)) as [->|Hne]; [eexists; apply asp_visit_target|].
    destruct j as [|j]; [by apply (tree_zero _ _ _ _ tree) in Hn|].
    destruct (tree_pred _ _ _ _ tree _ _ Hn) as (c & l & Hcs & Hlv).
    destruct (asp_visit_children depth n (c :: l) stk Hne Hcs) with
      (m := length (c :: l)) (i := 0%nat) (rest := rest) (ret := ret) as [tl Htl];
      [|done|].
    { intros c' Hc'. destruct (Hlv c' Hc') as [Hl' _]. apply (IH c' j Hl'). lia. }
    exists tl. rewrite (enum_paths_inner _ _ _ Hne Hcs), flat_map_prefix.
    by rewrite drop_0 in Htl.
Qed.

(** The stack walk ends and lists the paths [enum_paths] describes. *)
Lemma asp_loop_enum a j :
  levels !! a = Some j ->
  exists fuel0, forall fuel, (fuel0 <= fuel)%nat ->
    asp_loop fuel preds b (asp_init a) = Done (enum_paths j preds b a).
Proof.
  intros Ha. destruct (asp_visit j a j Ha (le_n _) [] [] []) as [tl [fuel0 H]].
  exists fuel0. intros fuel Hle.
  replace fuel with (fuel0 + (fuel - fuel0))%nat by lia.
  change (asp_init a) with (asp_at [] a 0 [] []). rewrite H.
  destruct (fuel - fuel0)%nat; cbn; rewrite decide_False by lia;
    cbn; f_equal; rewrite <-(map_id (enum_paths _ _ _ _)) at 2; by apply map_ext.
Qed.

End stack_walk.

(** ** The routing table is built, and its first entries *)

Section table.
Import noc_base.
Variable G : noc.
Hypothesis G_wf : wf_noc G.

(** With enough iterations [all_shortest_paths] returns what [enum_paths]
    describes, for any two nodes. *)
Lemma all_shortest_paths_tree a b levels preds fuel1 :
  bfs_tree G b levels preds -> predecessor fuel1 G b = Done preds ->
  exists fuel0, forall fuel, (fuel0 <= fuel)%nat ->
    all_shortest_paths fuel G a b =
      Done (match levels !! a with
            | Some j => enum_paths j preds b a
            | None => []
            end).
Proof.
  intros Htree Hpred.
  assert (forall fuel, (fuel1 <= fuel)%nat -> predecessor fuel G b = Done preds) as Hpred'.
  { intros fuel Hle. by apply (predecessor_mono G b _ _ _ Hpred). }
  destruct (levels !! a) as [j|] eqn:Ha.
  - destruct (asp_loop_enum preds b G levels Htree a j Ha) as [fuel2 H2].
    exists (fuel1 `max` fuel2)%nat. intros fuel Hle.
    unfold all_shortest_paths. rewrite Hpred' by lia. cbn.
    destruct (tree_preds_defined G b levels preds Htree a j Ha) as [cs ->].
    apply H2. lia.
  - exists fuel1. intros fuel Hle.
    unfold all_shortest_paths. rewrite Hpred' by lia. cbn.
    destruct (preds !! a) as [cs|] eqn:Hcs; [|done].
    destruct (tree_dom _ _ _ _ Htree a) as [j Hj]; [eauto|congruence].
Qed.

Lemma enum_paths_head depth preds b n p :
  p ∈ enum_paths depth preds b n -> exists q, p = n :: q.
Proof.
  destruct depth; cbn; case_decide.
  - intros ->%list_elem_of_singleton. eauto.
  - by intros ?%elem_of_nil.
  - intros ->%list_elem_of_singleton. eauto.
  - intros (c & _ & (q & <- & _)%in_map_iff)%list_elem_of_In%in_flat_map.
    eauto.
Qed.

Lemma enum_paths_second depth preds b n p :
  n <> b -> p ∈ enum_paths depth preds b n ->
  exists c q, p = n :: c :: q /\ c ∈ default [] (preds !! n).
Proof.
  intros Hn. destruct depth; cbn; rewrite decide_False by done.
  - by intros ?%elem_of_nil.
  - intros (c & Hc & (q & <- & Hq)%in_map_iff)%list_elem_of_In%in_flat_map.
    apply list_elem_of_In, enum_paths_head in Hq as [q' ->].
    exists c, q'. split; [done|]. by apply list_elem_of_In.
Qed.

Lemma foldlM_add_route_total routes : forall entries,
  Forall (fun r => is_Some (second r)) routes ->
  exists entries', foldlM add_route routes entries = Done entries'.
Proof.
  induction routes as [|r routes IH]; intros entries Hall; cbn; [eauto|].
  apply Forall_cons in Hall as [[x Hx] Hall].
  destruct r as [|r0 [|r1 r]]; [done..|]. cbn. by apply IH.
Qed.

Lemma routes_to_tree a b levels preds fuel1 :
  bfs_tree G b levels preds -> predecessor fuel1 G b = Done preds -> a <> b ->
  exists fuel0, forall fuel, (fuel0 <= fuel)%nat ->
    exists entries,
      routes_to fuel G a b = Done entries /\
      grouped (map (map (address G))
                 (match levels !! a with
                  | Some j => enum_paths j preds b a
                  | None => []
                  end)) entries.
Proof.
  intros Htree Hpred Hab.
  destruct (all_shortest_paths_tree a b _ _ _ Htree Hpred) as (fuel0 & Hasp).
  exists fuel0. intros fuel Hle. specialize (Hasp fuel Hle).
  set (routes := match levels !! a with Some j => _ | None => _ end) in *.
  assert (Forall (fun r => is_Some (second r)) (map (map (address G)) routes)) as Hsec.
  { apply Forall_forall. intros r (p & <- & Hp)%list_elem_of_In%in_map_iff.
    assert (exists c q, p = a :: c :: q) as (c & q & ->); [|by eexists].
    unfold routes in Hp. destruct (levels !! a); [|done].
    apply list_elem_of_In, enum_paths_second in Hp as (c & q & -> & _); eauto. }
  destruct (foldlM_add_route_total _ [] Hsec) as [entries Hentries].
  exists entries. split.
  - unfold routes_to. rewrite Hasp. done.
  - apply (foldlM_add_route_grouped _ [] []) in Hentries; [done|].
    split_and!; by constructor.
Qed.

Lemma foldlM_total {A B} (f : nat -> A -> B -> outcome A) l :
  (forall a x, fuel_mono (fun fuel => f fuel a x)) ->
  (forall a x, x ∈ l -> exists fuel y, f fuel a x = Done y) ->
  forall a, exists fuel y, foldlM (f fuel) l a = Done y.
Proof.
  intros Hmono. induction l as [|x l IH]; intros Htot a; cbn; [by exists 0%nat, a|].
  destruct (Htot a x) as (f1 & a1 & H1); [apply list_elem_of_here|].
  destruct (IH (fun a x Hx => Htot a x (list_elem_of_further _ _ _ Hx)) a1) as (f2 & y & H2).
  exists (f1 `max` f2)%nat, y.
  rewrite (Hmono a x f1 _ a1 H1) by lia. cbn.
  apply (fuel_mono_foldlM f l Hmono a1 f2); [done|lia].
Qed.

(** With enough iterations [update_routes_info] returns. *)
Lemma update_routes_info_total self prior :
  exists fuel0, forall fuel, (fuel0 <= fuel)%nat ->
    exists tbl, update_routes_info fuel G self prior = Done tbl.
Proof.
  destruct (foldlM_total
              (fun fuel (tbl : gmap node (list route_entry)) destrouter =>
                 if decide (destrouter = self) then Done tbl
                 else entries ← routes_to fuel G self destrouter;
                      Done (<[destrouter := entries]> tbl))
              (router_list G)) with (a := (∅ : gmap node (list route_entry)))
    as (fuel0 & tbl & Htbl).
  - intros tbl d. case_decide; [by intros ? ? ?|].
    apply fuel_mono_bind; [apply routes_to_mono|]. by intros ? ? ? ?.
  - intros tbl d Hd. case_decide as Hne; [by exists 0%nat, tbl|].
    destruct (predecessor_tree G G_wf d (S (length (nodes G))) Hd (Nat.lt_succ_diag_r _))
      as (levels & preds & Hpred & Htree).
    destruct (routes_to_tree self d _ _ _ Htree Hpred) as (f & Hf); [done|].
    destruct (Hf f (le_n _)) as (entries & Hentries & _).
    exists f. rewrite Hentries. cbn. eauto.
  - exists fuel0. intros fuel Hle. exists tbl.
    by apply (update_routes_info_mono G self prior fuel0).
Qed.

End table.

(** ** Following the preferred next hop *)

Section chain.
Import noc_base.
Variable G : noc.
Hypothesis G_wf : wf_noc G.
Hypothesis address_inj :
  forall u v, u ∈ nodes G -> v ∈ nodes G -> address G u = address G v -> u = v.

Lemma get_router_by_address_node c :
  c ∈ nodes G -> get_router_by_address G (address G c) = Some c.
Proof.
  intros Hc. unfold get_router_by_address, router_list.
  assert (forall l, (forall r, r ∈ l -> r ∈ nodes G) -> c ∈ l ->
            head (filter (fun r => address G r = address G c) l) = Some c) as Hhead.
  { induction l as [|r l IH]; intros Hl Hin; [by apply elem_of_nil in Hin|].
    destruct (decide (address G r = address G c)) as [Heq|Hne].
    - rewrite filter_cons_True by done. cbn. f_equal.
      apply address_inj; [apply Hl, list_elem_of_here|done|done].
    - rewrite filter_cons_False by done. apply IH.
      + intros r' Hr'. by apply Hl, list_elem_of_further.
      + apply elem_of_cons in Hin as [->|Hin]; [done|done]. }
  by apply Hhead.
Qed.

Variable b : node.
Variable levels : gmap node nat.
Variable preds : gmap node (list node).
Hypothesis tree : bfs_tree G b levels preds.

Lemma enum_paths_nonempty depth : forall c j,
  levels !! c = Some j -> (j <= depth)%nat -> enum_paths depth preds b c <> [].
Proof.
  induction depth as [|depth IH]; intros c j Hc Hj.
  - assert (j = 0%nat) as -> by lia. apply (tree_zero _ _ _ _ tree) in Hc as ->.
    by rewrite enum_paths_target.
  - destruct (decide (c = b)) as [->|Hne]; [by rewrite enum_paths_target|].
    destruct j as [|j]; [by apply (tree_zero _ _ _ _ tree) in Hc|].
    destruct (tree_pred _ _ _ _ tree _ _ Hc) as (c' & l & Hcs & Hlv).
    rewrite (enum_paths_inner _ _ _ _ _ Hne Hcs). cbn [flat_map].
    destruct (Hlv c') as [Hc' _]; [apply list_elem_of_here|].
    specialize (IH c' j Hc' ltac:(lia)).
    destruct (enum_paths depth preds b c'); [done|]. by cbn.
Qed.

(** The first path listed from a node goes through its first predecessor. *)
Lemma enum_paths_first a j c l :
  a <> b -> levels !! a = Some (S j) -> preds !! a = Some (c :: l) ->
  exists q rest, enum_paths (S j) preds b a = (a :: c :: q) :: rest.
Proof.
  intros Hne Ha Hcs. rewrite (enum_paths_inner _ _ _ _ _ Hne Hcs). cbn [flat_map].
  destruct (tree_pred _ _ _ _ tree _ _ Ha) as (c' & l' & Hcs' & Hlv).
  rewrite Hcs in Hcs'. injection Hcs' as <- <-.
  destruct (Hlv c) as [Hc _]; [apply list_elem_of_here|].
  pose proof (enum_paths_nonempty j c j Hc (le_n _)) as Hnonempty.
  destruct (enum_paths j preds b c) as [|p ps] eqn:Hp; [done|].
  destruct (enum_paths_head j preds b c p) as [q ->]; [rewrite Hp; apply list_elem_of_here|].
  cbn. eauto.
Qed.

(** The preferred entry of a table built from such paths. *)
Lemma grouped_first c q rest entries :
  grouped (map (map (address G)) ((c :: q) :: rest)) entries ->
  match q with
  | [] => True
  | c1 :: _ => exists e es, entries = e :: es /\ next e = address G c1
  end.
Proof.
  intros (_ & Hnext & _). destruct q as [|c1 q]; [done|].
  cbn in Hnext. destruct entries as [|e es]; [done|].
  injection Hnext as Hn _. eauto.
Qed.

Variable fuel1 : nat.
Hypothesis Hpred : predecessor fuel1 G b = Done preds.
Hypothesis Hb : b ∈ nodes G.

(** From a node of level [j], the chain of preferred next hops has [j] hops,
    each to a neighbour, and ends at [b]. *)
Lemma next_hop_chain_level j : forall a,
  a ∈ nodes G -> levels !! a = Some j ->
  exists fuel0, forall hops fuel, (j <= hops)%nat -> (fuel0 <= fuel)%nat ->
    exists chain,
      next_hop_chain hops fuel G a b = Done chain /\
      length chain = S j /\ head chain = Some a /\ last chain = Some b /\
      forall i u v, chain !! i = Some u -> chain !! S i = Some v -> v ∈ adj G u.
Proof.
  induction j as [|j IH]; intros a Ha Hlv.
  - apply (tree_zero _ _ _ _ tree) in Hlv as ->. exists 0%nat. intros hops fuel _ _.
    exists [b]. split_and!; try done.
    destruct hops; cbn; by rewrite decide_True.
  - assert (a <> b) as Hne.
    { intros ->. destruct (tree_source _ _ _ _ tree) as [Hs _]. congruence. }
    destruct (tree_pred _ _ _ _ tree _ _ Hlv) as (c & l & Hcs & Hcl).
    destruct (Hcl c) as [Hc Hadj]; [apply list_elem_of_here|].
    assert (c ∈ adj G a) as Hca by (by apply (wf_sym G G_wf)).
    assert (c ∈ nodes G) as Hcn by (by eapply (wf_closed G G_wf)).
    destruct (IH c Hcn Hc) as [f3 Hchain].
    destruct (routes_to_tree G a b levels preds fuel1 tree Hpred Hne) as [f1 Hroutes].
    destruct (update_routes_info_total G G_wf a ∅) as [f2 Htable].
    exists ((f1 `max` f2) `max` f3)%nat. intros hops fuel Hhops Hfuel.
    destruct hops as [|hops]; [lia|].
    destruct (Htable fuel) as [tbl Htbl]; [lia|].
    destruct (Hroutes fuel) as (entries & Hentries & Hgrouped); [lia|].
    destruct (Hchain hops fuel) as (chain & Hch & Hlen & Hhead & Hlast & Hedges); [lia..|].
    rewrite Hlv in Hgrouped.
    destruct (enum_paths_first a j c l Hne Hlv Hcs) as (q & rest & Henum).
    rewrite Henum in Hgrouped. apply grouped_first in Hgrouped as (e & es & -> & He).
    assert (tbl !! b = Some (e :: es)) as Hlookup.
    { unfold update_routes_info in Htbl.
      destruct (update_routes_info_fold _ _ _ _ _ _ Htbl b) as [H1 _].
      destruct (H1 Hb) as (entries' & Hto & Hl); [done|]. congruence. }
    exists (a :: chain). split_and!.
    + cbn. rewrite decide_False by done. rewrite Htbl. cbn.
      rewrite (proj2 (getitem_Done _ _ _) Hlookup). cbn.
      rewrite He, (get_router_by_address_node c Hcn), Hch. done.
    + cbn. lia.
    + done.
    + destruct chain as [|x chain]; [done|]. by rewrite last_cons, Hlast.
    + intros [|i] u v Hu Hv; cbn in Hu, Hv.
      * injection Hu as <-. destruct chain as [|x chain]; [done|].
        cbn in Hv, Hhead. congruence.
      * by eapply Hedges.
Qed.

End chain.


(** C1 as stated fails when two routers have the same address: in [twins]
    router 3 is two hops from router 0, through router 2.  The preferred
    next hop at router 0 is the address 7, which [get_router_by_address]
    resolves to router 1, and the preferred next hop at router 1 is the
    address of router 0: the chain goes to and fro between routers 0 and 1
    and never reaches router 3, however long it is followed. *)
Lemma next_hop_chain_same_address :
  noc_base.wf_noc examples.twins /\
  noc_base.shortest_dist examples.twins 0 3 2 /\
  noc_base.all_shortest_paths 100 examples.twins 0 3 = Done [[0; 2; 3]] /\
  examples.twins_table 0 !! 3
    = Some [ {| noc_base.next := 7; noc_base.paths := [[0; 7; 3]] |} ] /\
  noc_base.get_router_by_address examples.twins 7 = Some 1 /\
  forall hops fuel chain,
    noc_base.next_hop_chain hops fuel examples.twins 0 3 <> Done chain.
Proof.
  assert (noc_base.wf_noc examples.twins) as Hwf.
  { split.
    - cbn. compute_done.
    - intros u v Hu Hv. cbn in Hu. mesh_cases Hu; vm_compute in Hv;
        mesh_cases Hv; mesh_member.
    - intros u v Hv.
      destruct (decide (u = 0)) as [->|?]; [vm_compute in Hv; mesh_cases Hv; mesh_member|].
      destruct (decide (u = 1)) as [->|?]; [vm_compute in Hv; mesh_cases Hv; mesh_member|].
      destruct (decide (u = 2)) as [->|?]; [vm_compute in Hv; mesh_cases Hv; mesh_member|].
      destruct (decide (u = 3)) as [->|?]; [vm_compute in Hv; mesh_cases Hv; mesh_member|].
      exfalso. unfold examples.twins, mesh.pick in Hv. cbn in Hv.
      rewrite !decide_False in Hv by done. by apply elem_of_nil in Hv. }
  assert (examples.twins_table 0 !! 3
          = Some [ {| noc_base.next := 7; noc_base.paths := [[0; 7; 3]] |} ]) as H03
    by (vm_compute; reflexivity).
  assert (examples.twins_table 1 !! 3
          = Some [ {| noc_base.next := 0; noc_base.paths := [[7; 0; 7; 3]] |} ]) as H13
    by (vm_compute; reflexivity).
  assert (forall r fuel tbl, r = 0 \/ r = 1 ->
            noc_base.update_routes_info fuel examples.twins r ∅ = Done tbl ->
            tbl = examples.twins_table r) as Htbl.
  { intros r fuel tbl Hr Hdone.
    apply (fuel_mono_agree _ fuel 100%nat _ _ (update_routes_info_mono examples.twins r ∅) Hdone).
    destruct Hr as [->| ->]; vm_compute; reflexivity. }
  split_and!; [done| |vm_compute; reflexivity|done|vm_compute; reflexivity|].
  - split.
    + apply (noc_base.walk_S _ 0 2 3); [mesh_member|].
      apply (noc_base.walk_S _ 2 3 3); [mesh_member|]. apply noc_base.walk_O.
    + intros k Hk. destruct k as [|[|k]]; [| |lia].
      * inversion Hk.
      * inversion Hk as [|u v w k' Hv Hw]; subst. inversion Hw; subst.
        apply list_elem_of_In in Hv. vm_compute in Hv. intuition discriminate.
  - intros hops.
    assert (forall fuel chain,
              noc_base.next_hop_chain hops fuel examples.twins 0 3 <> Done chain /\
              noc_base.next_hop_chain hops fuel examples.twins 1 3 <> Done chain) as Hboth;
      [|intros fuel chain; apply Hboth].
    induction hops as [|hops IH]; intros fuel chain; [by split|].
    split; cbn [noc_base.next_hop_chain]; rewrite decide_False by done.
    + destruct (noc_base.update_routes_info fuel examples.twins 0 ∅) as [tbl| |] eqn:Hupd;
        [|done..].
      apply Htbl in Hupd as ->; [|by left]. cbn.
      destruct (getitem _ _) as [entries| |] eqn:Hg; cbn; [|done..].
      apply getitem_Done in Hg. pose proof (eq_trans (eq_sym Hg) H03) as [= ->]. cbn.
      change (noc_base.get_router_by_address examples.twins 7) with (Some 1).
      cbv iota beta.
      destruct (noc_base.next_hop_chain hops fuel examples.twins 1 3) as [rest| |] eqn:Hrest;
        cbn; [|done..].
      destruct (IH fuel rest) as [_ Hno]. by destruct Hno.
    + destruct (noc_base.update_routes_info fuel examples.twins 1 ∅) as [tbl| |] eqn:Hupd;
        [|done..].
      apply Htbl in Hupd as ->; [|by right]. cbn.
      destruct (getitem _ _) as [entries| |] eqn:Hg; cbn; [|done..].
      apply getitem_Done in Hg. pose proof (eq_trans (eq_sym Hg) H13) as [= ->]. cbn.
      change (noc_base.get_router_by_address examples.twins 0) with (Some 0).
      cbv iota beta.
      destruct (noc_base.next_hop_chain hops fuel examples.twins 0 3) as [rest| |] eqn:Hrest;
        cbn; [|done..].
      destruct (IH fuel rest) as [Hno _]. by destruct Hno.
Qed.

Lemma mesh_dist_0_3 : noc_base.shortest_dist mesh.G 0 3 2.
Proof.
  split.
  - apply (noc_base.walk_S _ 0 1 3); [mesh_member|].
    apply (noc_base.walk_S _ 1 3 3); [mesh_member|]. apply noc_base.walk_O.
  - intros k Hk. destruct k as [|[|k]]; [| |lia].
    + inversion Hk.
    + inversion Hk as [|u v w k' Hv Hw]; subst. inversion Hw; subst.
      apply list_elem_of_In in Hv. vm_compute in Hv. intuition discriminate.
Qed.

Example mesh_chain_0_3 : noc_base.next_hop_chain 5 100 mesh.G 0 3 = Done [0; 1; 3].
Proof. vm_compute. reflexivity. Qed.


(** * Further properties *)

(** ** The breadth-first search lists every predecessor *)

Section bfs_complete.
Import noc_base shortest.
Variable G : noc.
Hypothesis G_wf : wf_noc G.
Variable source : node.

Lemma fold_left_inv {A B C} (f : A -> B -> A) (g : B -> C) (I : A -> Prop)
    (Q : C -> A -> Prop) (R : A -> Prop) l :
  (forall a x, x ∈ l -> I a -> I (f a x) /\ Q (g x) (f a x)) ->
  (forall a x y, x ∈ l -> I a -> Q y a -> Q y (f a x)) ->
  (forall a x, x ∈ l -> I a -> R a -> R (f a x)) ->
  forall a, I a ->
    I (fold_left f l a) /\ (forall x, x ∈ l -> Q (g x) (fold_left f l a)) /\
    (forall y, Q y a -> Q y (fold_left f l a)) /\ (R a -> R (fold_left f l a)).
Proof.
  induction l as [|x l IH]; intros Hstep Hstable HR a Ha; cbn.
  - split_and!; [done| |done|done]. by intros x ?%elem_of_nil.
  - destruct (Hstep a x) as [Ha' Hq]; [apply list_elem_of_here|done|].
    destruct (IH (fun a y Hy => Hstep a y (list_elem_of_further _ _ _ Hy))
                 (fun a y z Hy => Hstable a y z (list_elem_of_further _ _ _ Hy))
                 (fun a y Hy => HR a y (list_elem_of_further _ _ _ Hy))
                 (f a x) Ha') as (Hi & Hall & Hkeep & Hr).
    split_and!; [done| | |].
    + intros y [->|Hy]%elem_of_cons; [by apply Hkeep|by apply Hall].
    + intros y Hy. apply Hkeep, Hstable; [apply list_elem_of_here|done..].
    + intros Hra. apply Hr, HR; [apply list_elem_of_here|done..].
Qed.

(** The lists of predecessors only grow. *)
Lemma bfs_visit_pred_mono level st0 st v w n l x :
  level_inv G source level st0 st ->
  pred st !! n = Some l -> x ∈ l ->
  exists l', pred (bfs_visit (S level) v st w) !! n = Some l' /\ x ∈ l'.
Proof.
  intros Hinv Hn Hx. unfold bfs_visit.
  destruct (seen st !! w) as [i|] eqn:Hw.
  - case_decide; [|eauto]. cbn. rewrite lookup_alter. case_decide; [|eauto].
    subst n. rewrite Hn. cbn. eexists. split; [done|]. apply elem_of_app. by left.
  - cbn. rewrite lookup_insert_ne; [eauto|]. intros <-.
    destruct (lv_dom _ _ _ _ _ Hinv w) as [i Hi]; [eauto|congruence].
Qed.

Lemma bfs_visit_edge_done level st0 st v w :
  level_inv G source level st0 st ->
  edge_done level (v, w) (bfs_visit (S level) v st w).
Proof.
  intros Hinv. unfold edge_done, bfs_visit. cbn.
  destruct (seen st !! w) as [i|] eqn:Hw.
  - case_decide as Hi.
    + subst i. exists (S level). split; [done|]. intros _. cbn.
      rewrite lookup_alter_eq.
      destruct (lv_pred _ _ _ _ _ Hinv _ _ Hw) as (c & cs & -> & _).
      exists ((c :: cs) ++ [v]). split; [done|].
      apply elem_of_app. right. apply list_elem_of_here.
    + exists i. split; [done|]. by intros ->.
  - cbn. exists (S level). rewrite !lookup_insert_eq. split; [done|]. intros _.
    eexists. split; [done|]. apply list_elem_of_here.
Qed.

Lemma bfs_visit_edge_stable level st0 st v w e :
  level_inv G source level st0 st ->
  edge_done level e st -> edge_done level e (bfs_visit (S level) v st w).
Proof.
  intros Hinv (i & Hi & Hl). exists i. split; [by apply bfs_visit_seen_mono|].
  intros Heq. destruct (Hl Heq) as (l & Hp & Hin).
  by eapply bfs_visit_pred_mono.
Qed.

(** One iteration of [while nextlevel] keeps the predecessors complete. *)
Lemma bfs_level_complete level st :
  bfs_inv G source level st -> complete_upto G level st ->
  complete_upto G (S level) (bfs_level G (S level) st).
Proof.
  intros Hinv Hcomp. pose proof (level_inv_start G source _ _ Hinv) as Hstart.
  set (R := fun st' : bfs_state =>
     forall x y j, seen st !! x = Some j -> seen st !! y = Some (S j) ->
       y ∈ adj G x -> (S j <= level)%nat ->
       exists l, pred st' !! y = Some l /\ x ∈ l).
  assert (forall v, v ∈ nextlevel st ->
            forall a, level_inv G source level st a ->
              let a' := fold_left (bfs_visit (S level) v) (adj G v) a in
              level_inv G source level st a' /\
              (forall w, w ∈ adj G v -> edge_done level (v, w) a') /\
              (forall e, edge_done level e a -> edge_done level e a') /\
              (R a -> R a')) as Hinner.
  { intros v Hv a Ha.
    assert (seen st !! v = Some level) as Hlv by (by apply (inv_frontier _ _ _ _ Hinv)).
    apply (fold_left_inv (bfs_visit (S level) v) (fun w => (v, w))
             (level_inv G source level st) (edge_done level) R (adj G v)); [| | |done].
    - intros a0 w Hw Ha0. split; [by apply (bfs_visit_inv G G_wf)|].
      by eapply bfs_visit_edge_done.
    - intros a0 w y Hw Ha0 Hy. by eapply bfs_visit_edge_stable.
    - intros a0 w Hw Ha0 Hr x y j Hx Hy Hadj Hj.
      destruct (Hr x y j Hx Hy Hadj Hj) as (l & Hl & Hin).
      by eapply bfs_visit_pred_mono. }
  destruct (fold_left_inv
              (fun st' v => fold_left (bfs_visit (S level) v) (adj G v) st')
              (fun v => v)
              (level_inv G source level st)
              (fun v a' => forall w, w ∈ adj G v -> edge_done level (v, w) a')
              R (nextlevel st)) with
    (a := {| seen := seen st; pred := pred st; nextlevel := [] |})
    as (Hlv & Hall & _ & Hr); [| | |done|].
  - intros a v Hv Ha. destruct (Hinner v Hv a Ha) as (H1 & H2 & _). by split.
  - intros a v y Hv Ha Hy w Hw. destruct (Hinner v Hv a Ha) as (_ & _ & H3 & _).
    by apply H3, Hy.
  - intros a v Hv Ha Hra. by destruct (Hinner v Hv a Ha) as (_ & _ & _ & H4); apply H4.
  - fold (bfs_level G (S level) st) in Hlv, Hall, Hr.
    intros v w j Hv Hw Hadj Hj.
    destruct (decide (j = level)) as [->|Hne].
    + assert (seen st !! v = Some level) as Hv0 by (by apply (lv_old _ _ _ _ _ Hlv)).
      apply (inv_frontier _ _ _ _ Hinv) in Hv0.
      destruct (Hall v Hv0 w Hadj) as (i & Hi & Hl). cbn in Hi, Hl.
      rewrite Hw in Hi. injection Hi as <-. by apply Hl.
    + assert (S j <= level)%nat as Hj' by lia.
      assert (R {| seen := seen st; pred := pred st; nextlevel := [] |}) as Hr0.
      { intros x y j0 Hx Hy Hxy Hj0. by apply (Hcomp x y j0). }
      apply (Hr Hr0 v w j); [|by apply (lv_old _ _ _ _ _ Hlv)|done|done].
      apply (lv_old _ _ _ _ _ Hlv); [lia|done].
Qed.

(** The loop ends with the levels and the complete predecessors of a
    search. *)
Lemma bfs_loop_complete fuel : forall level st,
  bfs_inv G source level st -> complete_upto G level st ->
  nextlevel st = [] \/ (unseen G st < fuel)%nat ->
  exists levels preds,
    bfs_loop fuel G level st = Done preds /\ bfs_tree G source levels preds /\
    preds_complete G levels preds.
Proof.
  induction fuel as [|fuel IH]; intros level st Hinv Hcomp Hfuel.
  - destruct Hfuel as [Hnil|?]; [|lia]. exists (seen st), (pred st). cbn. rewrite Hnil.
    split_and!; [done|by eapply bfs_inv_tree|].
    intros v w j Hv Hw Hadj. apply (Hcomp v w j Hv Hw Hadj).
    apply (inv_level _ _ _ _ Hinv _ _ Hw).
  - cbn. destruct (nextlevel st) as [|x l] eqn:Hn.
    + exists (seen st), (pred st). split_and!; [done|by eapply bfs_inv_tree|].
      intros v w j Hv Hw Hadj. apply (Hcomp v w j Hv Hw Hadj).
      apply (inv_level _ _ _ _ Hinv _ _ Hw).
    + destruct (bfs_level_inv G G_wf source _ _ Hinv) as [Hinv' Hm].
      apply (IH _ _ Hinv'); [by apply bfs_level_complete|].
      destruct Hm as [?|Hlt]; [by left|]. right. destruct Hfuel as [?|?]; [done|lia].
Qed.

Lemma predecessor_complete fuel :
  source ∈ nodes G -> (length (nodes G) < fuel)%nat ->
  exists levels preds,
    predecessor fuel G source = Done preds /\ bfs_tree G source levels preds /\
    preds_complete G levels preds.
Proof.
  intros Hs Hfuel. unfold predecessor. rewrite decide_True by done.
  apply bfs_loop_complete; [by apply bfs_init_inv| |].
  - intros v w j _ Hw _ Hj. lia.
  - right. unfold unseen.
    pose proof (length_filter (fun n => seen (bfs_init source) !! n = None) (nodes G)).
    lia.
Qed.

End bfs_complete.

(** ** [all_shortest_paths] lists the shortest paths *)

Section shortest_paths.
Import noc_base shortest.
Variable G : noc.
Hypothesis G_wf : wf_noc G.

Lemma is_path_walk p : forall a b,
  head p = Some a -> last p = Some b -> is_path G p ->
  walk G a b (Nat.pred (length p)).
Proof.
  induction p as [|u q IH]; intros a b Hh Hl Hp; [done|].
  injection Hh as ->. destruct q as [|v q].
  - injection Hl as ->. apply walk_O.
  - destruct Hp as [Hv Hq]. cbn [length Nat.pred].
    eapply walk_S; [done|]. by apply (IH v b).
Qed.

Lemma walk_is_path a b k :
  walk G a b k ->
  exists p, head p = Some a /\ last p = Some b /\ is_path G p /\ length p = S k.
Proof.
  induction 1 as [v|u v w k Huv Hw (p & Hh & Hl & Hp & Hlen)].
  - by exists [v].
  - exists (u :: p). destruct p as [|x p]; [done|]. injection Hh as ->.
    split_and!; [done|by rewrite last_cons, Hl|done|cbn in *; lia].
Qed.

Variable b : node.
Variable levels : gmap node nat.
Variable preds : gmap node (list node).
Hypothesis tree : bfs_tree G b levels preds.

Lemma level_le_walk a k j : walk G a b k -> levels !! a = Some j -> (j <= k)%nat.
Proof.
  intros Hw%(walk_sym G G_wf) Ha.
  destruct (walk_tree G b levels preds tree _ _ _ Hw 0%nat) as (i & Hi & Hle);
    [apply (tree_source _ _ _ _ tree)|].
  rewrite Ha in Hi. injection Hi as <-. lia.
Qed.

Lemma walk_level a k : walk G a b k -> is_Some (levels !! a).
Proof.
  intros Hw%(walk_sym G G_wf).
  destruct (walk_tree G b levels preds tree _ _ _ Hw 0%nat) as (i & Hi & _);
    [apply (tree_source _ _ _ _ tree)|eauto].
Qed.

Lemma level_shortest_dist a j : levels !! a = Some j -> shortest_dist G a b j.
Proof.
  intros Ha. split.
  - apply (walk_sym G G_wf), (tree_walk G b levels preds tree), Ha.
  - intros k Hk. by eapply level_le_walk.
Qed.

(** What [enum_paths] lists are the chains of predecessors. *)
Lemma enum_paths_chain depth : forall n p,
  p ∈ enum_paths depth preds b n -> pred_chain preds b n p.
Proof.
  induction depth as [|depth IH]; intros n p; cbn; case_decide as Hn.
  - intros ->%list_elem_of_singleton. subst n. constructor.
  - by intros ?%elem_of_nil.
  - intros ->%list_elem_of_singleton. subst n. constructor.
  - intros (c & Hc & (q & <- & Hq)%in_map_iff)%list_elem_of_In%in_flat_map.
    destruct (preds !! n) as [cs|] eqn:Hcs; [|done]. cbn in Hc.
    eapply chain_step; [done|done|by apply list_elem_of_In|].
    by apply IH, list_elem_of_In.
Qed.

Lemma chain_enum_paths n p :
  pred_chain preds b n p ->
  forall depth, (length p <= S depth)%nat -> p ∈ enum_paths depth preds b n.
Proof.
  induction 1 as [|n c cs q Hn Hcs Hc Hq IH]; intros depth Hlen.
  - rewrite enum_paths_target. apply list_elem_of_here.
  - assert (q <> []) as Hq0 by (by destruct Hq).
    destruct depth as [|depth]; [destruct q; [done|cbn in Hlen; lia]|].
    rewrite (enum_paths_inner _ _ _ _ _ Hn Hcs).
    apply list_elem_of_In, in_flat_map. exists c. split; [by apply list_elem_of_In|].
    apply in_map, list_elem_of_In, IH. cbn in Hlen. lia.
Qed.

(** A chain of predecessors from a node of level [j] is a path of [j]
    edges to [b]. *)
Lemma chain_path n p :
  pred_chain preds b n p ->
  forall j, levels !! n = Some j ->
    length p = S j /\ head p = Some n /\ last p = Some b /\ is_path G p.
Proof.
  induction 1 as [|n c cs q Hn Hcs Hc Hq IH]; intros j Hj.
  - destruct (tree_source _ _ _ _ tree) as [Hb _].
    rewrite Hb in Hj. by injection Hj as <-.
  - destruct j as [|j]; [by apply (tree_zero _ _ _ _ tree) in Hj|].
    destruct (tree_pred _ _ _ _ tree _ _ Hj) as (c0 & l & Hcs' & Hall).
    rewrite Hcs in Hcs'. injection Hcs' as ->.
    destruct (Hall c Hc) as [Hlc Hadj].
    destruct (IH j Hlc) as (Hlen & Hhead & Hlast & Hpath).
    destruct q as [|x q]; [done|]. injection Hhead as ->.
    split_and!; [cbn in *; lia|done|by rewrite last_cons, Hlast|].
    split; [by apply (wf_sym G G_wf)|done].
Qed.

Hypothesis complete : preds_complete G levels preds.

(** A shortest path to [b] is a chain of predecessors. *)
Lemma shortest_path_chain p : forall a,
  shortest_path G a b p -> pred_chain preds b a p.
Proof.
  induction p as [|u q IH]; intros a (Hh & Hl & Hp & Hmin); [done|].
  injection Hh as ->. destruct q as [|c q].
  - injection Hl as ->. constructor.
  - destruct Hp as [Hc Hq]. rewrite last_cons in Hl.
    assert (last (c :: q) = Some b) as Hl'.
    { destruct (last (c :: q)) eqn:E; [done|]. by apply last_None in E. }
    clear Hl.
    pose proof (is_path_walk (c :: q) c b eq_refl Hl' Hq) as Hwc.
    assert (walk G a b (S (length q))) as Hwa by (by eapply walk_S).
    destruct (walk_level _ _ Hwa) as [ja Hja].
    destruct (walk_level _ _ Hwc) as [jc Hjc].
    pose proof (level_le_walk _ _ _ Hwc Hjc) as Hle. cbn in Hle.
    pose proof (Hmin ja (proj1 (level_shortest_dist _ _ Hja))) as Hge. cbn in Hge.
    destruct (tree_closed _ _ _ _ tree c jc a Hjc) as (i & Hi & Hi');
      [by apply (wf_sym G G_wf)|].
    rewrite Hja in Hi. injection Hi as <-.
    assert (jc = length q) as -> by lia. assert (ja = S (length q)) as -> by lia.
    destruct (complete c a (length q) Hjc Hja) as (cs & Hcs & Hin);
      [by apply (wf_sym G G_wf)|].
    eapply chain_step; [|done|done|].
    + intros ->. destruct (tree_source _ _ _ _ tree) as [Hb _]. congruence.
    + apply IH. split_and!; [done|done|done|].
      intros k Hk. pose proof (level_le_walk _ _ _ Hk Hjc). cbn. lia.
Qed.

Lemma chain_shortest_path a p :
  pred_chain preds b a p -> shortest_path G a b p.
Proof.
  intros Hchain.
  assert (is_Some (levels !! a)) as [j Hj].
  { destruct Hchain as [|n c cs q Hn Hcs _ _].
    - destruct (tree_source _ _ _ _ tree) as [-> _]. eauto.
    - apply (tree_dom _ _ _ _ tree). eauto. }
  destruct (chain_path _ _ Hchain j Hj) as (Hlen & Hh & Hl & Hp).
  split_and!; [done..|]. intros k Hk. pose proof (level_le_walk _ _ _ Hk Hj). lia.
Qed.

(** What [enum_paths] lists from a node are the shortest paths to [b]. *)
Lemma enum_paths_shortest a p :
  p ∈ match levels !! a with
      | Some j => enum_paths j preds b a
      | None => []
      end <-> shortest_path G a b p.
Proof.
  split.
  - destruct (levels !! a) as [j|]; [|by intros ?%elem_of_nil].
    intros Hp%enum_paths_chain. by apply chain_shortest_path.
  - intros Hsp. pose proof (shortest_path_chain _ _ Hsp) as Hchain.
    destruct Hsp as (Hh & Hl & Hp & Hmin).
    pose proof (is_path_walk p a b Hh Hl Hp) as Hw.
    destruct (walk_level _ _ Hw) as [j Hj]. rewrite Hj.
    apply chain_enum_paths; [done|].
    by destruct (chain_path _ _ Hchain j Hj) as (-> & _).
Qed.

Lemma enum_paths_empty a :
  match levels !! a with
  | Some j => enum_paths j preds b a
  | None => []
  end = [] <-> ~ reachable G a b.
Proof.
  split.
  - intros Hnil [k Hk]. destruct (walk_level _ _ Hk) as [j Hj]. rewrite Hj in Hnil.
    by apply (enum_paths_nonempty G b levels preds tree j a j Hj (le_n _)).
  - intros Hno. destruct (levels !! a) as [j|] eqn:Hj; [|done].
    destruct Hno. exists j. by apply level_shortest_dist.
Qed.

End shortest_paths.

Section all_shortest_paths.
Import noc_base shortest.
Variable G : noc.
Hypothesis G_wf : wf_noc G.

(** What [all_shortest_paths] returns, when it returns. *)
Lemma all_shortest_paths_Done fuel a b ps :
  b ∈ nodes G -> all_shortest_paths fuel G a b = Done ps ->
  exists levels preds,
    bfs_tree G b levels preds /\ preds_complete G levels preds /\
    predecessor (S (length (nodes G))) G b = Done preds /\
    ps = match levels !! a with
         | Some j => enum_paths j preds b a
         | None => []
         end.
Proof.
  intros Hb Hps.
  destruct (predecessor_complete G G_wf b (S (length (nodes G))) Hb (Nat.lt_succ_diag_r _))
    as (levels & preds & Hpred & Htree & Hcomp).
  exists levels, preds. split_and!; [done..|].
  destruct (all_shortest_paths_tree G a b levels preds _ Htree Hpred) as [fuel0 Hasp].
  apply (fuel_mono_agree (fun fuel => all_shortest_paths fuel G a b) fuel fuel0);
    [apply all_shortest_paths_mono|done|by apply Hasp].
Qed.

(** X1: in a well-formed graph, when [all_shortest_paths(G, a, b)] returns
    for a node [b] of the graph, the paths it lists are exactly the shortest
    paths from [a] to [b]: every path listed starts at [a], ends at [b],
    follows edges and has as few edges as any walk from [a] to [b], and every
    such path is listed. *)
Theorem all_shortest_paths_exact fuel a b ps :
  b ∈ nodes G ->
  all_shortest_paths fuel G a b = Done ps ->
  forall p, p ∈ ps <-> shortest_path G a b p.
Proof.
  intros Hb Hps p.
  destruct (all_shortest_paths_Done _ _ _ _ Hb Hps) as (levels & preds & Ht & Hc & _ & ->).
  by apply enum_paths_shortest.
Qed.

(** X2: in a well-formed graph, given enough iterations
    [all_shortest_paths(G, a, b)] returns for every node [b] of the graph,
    and the list it returns is empty exactly when [b] cannot be reached from
    [a]. *)
Theorem all_shortest_paths_reachable a b :
  b ∈ nodes G ->
  exists fuel0, forall fuel, (fuel0 <= fuel)%nat ->
    exists ps, all_shortest_paths fuel G a b = Done ps /\
               (ps = [] <-> ~ reachable G a b).
Proof.
  intros Hb.
  destruct (predecessor_complete G G_wf b (S (length (nodes G))) Hb (Nat.lt_succ_diag_r _))
    as (levels & preds & Hpred & Htree & Hcomp).
  destruct (all_shortest_paths_tree G a b levels preds _ Htree Hpred) as [fuel0 Hasp].
  exists fuel0. intros fuel Hle. eexists. split; [by apply Hasp|].
  by apply enum_paths_empty.
Qed.

End all_shortest_paths.

(** ** The routing information of a router *)

Section routes_table.
Import noc_base shortest.
Variable G : noc.
Hypothesis G_wf : wf_noc G.

Lemma first_occurrences_nil (l : list addr) : first_occurrences l = [] -> l = [].
Proof. by destruct l. Qed.

Lemma omap_second_nil (routes : list (list addr)) :
  Forall (fun r => is_Some (second r)) routes -> omap second routes = [] -> routes = [].
Proof.
  destruct routes as [|r routes]; [done|].
  intros [[x Hx] _]%Forall_cons. cbn. by rewrite Hx.
Qed.

(** The entries of a destination are grouped from the shortest paths to it. *)
Lemma routes_to_shortest fuel self dest entries :
  dest ∈ nodes G -> routes_to fuel G self dest = Done entries ->
  exists routes,
    (forall p, p ∈ routes <-> shortest_path G self dest p) /\
    (routes = [] <-> ~ reachable G self dest) /\
    grouped (map (map (address G)) routes) entries.
Proof.
  intros Hdest (routes & Hasp & Hgr)%routes_to_grouped.
  destruct (all_shortest_paths_Done G G_wf _ _ _ _ Hdest Hasp)
    as (levels & preds & Ht & Hc & _ & Heq).
  exists routes. split_and!; [| |done]; subst routes.
  - intros p. by apply enum_paths_shortest.
  - by apply enum_paths_empty.
Qed.

Lemma grouped_nil routes entries :
  grouped (map (map (address G)) routes) entries -> (entries = [] <-> routes = []).
Proof.
  intros (Hsec & Hnext & _). split.
  - intros ->. cbn in Hnext. symmetry in Hnext.
    apply first_occurrences_nil, omap_second_nil in Hnext; [|done].
    by destruct routes.
  - intros ->. cbn in Hnext. by destruct entries.
Qed.

(** A shortest path from [self] to another node starts with an edge to a
    neighbour one hop closer. *)
Lemma shortest_path_first_hop self dest p :
  self <> dest -> shortest_path G self dest p ->
  exists c q d, p = self :: c :: q /\ c ∈ adj G self /\
    shortest_dist G self dest (S d) /\ shortest_dist G c dest d.
Proof.
  intros Hne (Hh & Hl & Hp & Hmin).
  destruct p as [|u [|c q]]; [done| |]; injection Hh as ->.
  - by injection Hl as ->.
  - destruct Hp as [Hc Hq]. rewrite last_cons in Hl.
    assert (last (c :: q) = Some dest) as Hl'.
    { destruct (last (c :: q)) eqn:E; [done|]. by apply last_None in E. }
    pose proof (is_path_walk G (c :: q) c dest eq_refl Hl' Hq) as Hwc. cbn in Hwc.
    exists c, q, (length q). split_and!; [done|done| |].
    + split; [by eapply walk_S|]. intros k Hk. specialize (Hmin k Hk). cbn in Hmin. lia.
    + split; [done|]. intros k Hk.
      specialize (Hmin (S k) (walk_S _ _ _ _ _ Hc Hk)). cbn in Hmin. lia.
Qed.

Lemma first_hop_shortest_path self dest c d :
  c ∈ adj G self -> shortest_dist G self dest (S d) -> shortest_dist G c dest d ->
  exists q, shortest_path G self dest (self :: c :: q).
Proof.
  intros Hc [_ Hmin] [Hw _].
  destruct (walk_is_path G _ _ _ Hw) as (p & Hh & Hl & Hp & Hlen).
  destruct p as [|x q]; [done|]. injection Hh as ->. exists q.
  split_and!; [done|by rewrite last_cons, Hl|done|].
  intros k Hk. specialize (Hmin k Hk). cbn in *. lia.
Qed.

Lemma routes_to_nil fuel self dest entries :
  dest ∈ nodes G -> routes_to fuel G self dest = Done entries ->
  entries = [] <-> ~ reachable G self dest.
Proof.
  intros Hin Hto.
  destruct (routes_to_shortest _ _ _ _ Hin Hto) as (routes & _ & Hreach & Hgr).
  by rewrite (grouped_nil _ _ Hgr).
Qed.

Lemma routes_to_next_hops fuel self dest entries :
  dest ∈ nodes G -> dest <> self -> routes_to fuel G self dest = Done entries ->
  forall x, x ∈ map next entries <->
    exists c d, c ∈ adj G self /\ x = address G c /\
      shortest_dist G self dest (S d) /\ shortest_dist G c dest d.
Proof.
  intros Hin Hne Hto x.
  destruct (routes_to_shortest _ _ _ _ Hin Hto) as (routes & Hsp & _ & _ & Hnext & _).
  rewrite Hnext, first_occurrences_elem, list_elem_of_omap. split.
  - intros (r & (p & <- & Hp%list_elem_of_In)%list_elem_of_In%in_map_iff & Hsec).
    apply Hsp, shortest_path_first_hop in Hp as (c & q & d & -> & Hc & Hd & Hd'); [|done].
    injection Hsec as <-. by exists c, d.
  - intros (c & d & Hc & -> & Hd & Hd').
    destruct (first_hop_shortest_path _ _ _ _ Hc Hd Hd') as [q Hq].
    exists (map (address G) (self :: c :: q)). split; [|done].
    apply list_elem_of_In, in_map, list_elem_of_In. by apply Hsp.
Qed.

Lemma update_routes_info_entries fuel self prior tbl dest :
  update_routes_info fuel G self prior = Done tbl ->
  dest ∈ nodes G -> dest <> self ->
  exists entries, routes_to fuel G self dest = Done entries /\ tbl !! dest = Some entries.
Proof.
  unfold update_routes_info, router_list. intros Hf Hin Hne.
  by destruct (update_routes_info_fold _ _ _ _ _ _ Hf dest) as [H1 _]; apply H1.
Qed.

(** X3: the table [update_routes_info] builds at [self] has one entry list
    for every router of the graph other than [self] and for nothing else,
    and the list of a destination is empty exactly when the destination
    cannot be reached from [self]. *)
Theorem routes_info_destinations fuel self prior tbl :
  update_routes_info fuel G self prior = Done tbl ->
  forall dest,
    (is_Some (tbl !! dest) <-> dest ∈ nodes G /\ dest <> self) /\
    (tbl !! dest = Some [] <-> dest ∈ nodes G /\ dest <> self /\ ~ reachable G self dest).
Proof.
  intros Hupd dest. split; split.
  - intros [entries He].
    by destruct (update_routes_info_lookup _ _ _ _ _ _ _ Hupd He) as (? & ? & _).
  - intros [Hin Hne].
    destruct (update_routes_info_entries _ _ _ _ _ Hupd Hin Hne) as (entries & _ & He). eauto.
  - intros He.
    destruct (update_routes_info_lookup _ _ _ _ _ _ _ Hupd He) as (Hin & Hne & Hto).
    split_and!; [done..|]. by apply (routes_to_nil _ _ _ _ Hin Hto).
  - intros (Hin & Hne & Hno).
    destruct (update_routes_info_entries _ _ _ _ _ Hupd Hin Hne) as (entries & Hto & He).
    rewrite He. f_equal. by apply (routes_to_nil _ _ _ _ Hin Hto).
Qed.

(** X4: in the table [update_routes_info] builds at [self], the ["next"]
    fields of the entries of a destination are exactly the addresses of the
    neighbours of [self] that are one hop closer to the destination than
    [self] is. *)
Theorem routes_info_next_hops fuel self prior tbl dest entries :
  update_routes_info fuel G self prior = Done tbl ->
  tbl !! dest = Some entries ->
  forall x, x ∈ map next entries <->
    exists c d, c ∈ adj G self /\ x = address G c /\
      shortest_dist G self dest (S d) /\ shortest_dist G c dest d.
Proof.
  intros Hupd He.
  destruct (update_routes_info_lookup _ _ _ _ _ _ _ Hupd He) as (Hin & Hne & Hto).
  by apply (routes_to_next_hops fuel).
Qed.

End routes_table.

(** ** The ports of a router *)

Section ports.
Import noc_base.
Variable G : noc.
Variable self : node.

(** The loop over the neighbours in [update_ports_info]. *)
Lemma update_ports_info_loop l : forall (ports ports1 : gmap addr port) updated updated1,
  foldlM (fun '(ports, updated_addr) neighborhash =>
            match edge_channel G (address G self) neighborhash with
            | None => Raised KeyError
            | Some ch_ref =>
                Done (<[address G neighborhash :=
                          {| peer := ep_router neighborhash; channel := Some ch_ref |}]> ports,
                      updated_addr ++ [address G neighborhash])
            end) l (ports, updated) = Done (ports1, updated1) ->
  updated1 = updated ++ map (address G) l /\
  forall k,
    (k ∉ map (address G) l -> ports1 !! k = ports !! k) /\
    (k ∈ map (address G) l ->
       exists c ch, c ∈ l /\ address G c = k /\
         edge_channel G (address G self) c = Some ch /\
         ports1 !! k = Some {| peer := ep_router c; channel := Some ch |}).
Proof.
  induction l as [|n l IH]; intros ports ports1 updated updated1; cbn.
  - intros [= <- <-]. split; [by rewrite app_nil_r|].
    intros k. split; [done|by intros ?%elem_of_nil].
  - intros ([pa ua] & Hstep & Hrest)%bind_Done.
    destruct (edge_channel G (address G self) n) as [ch|] eqn:Hch; [|done].
    injection Hstep as <- <-.
    destruct (IH _ _ _ _ Hrest) as [-> Hk]. split; [by rewrite <- app_assoc|].
    intros k. destruct (Hk k) as [Hout Hin]. split.
    + intros Hnin. rewrite Hout.
      * apply lookup_insert_ne. intros <-. apply Hnin, list_elem_of_here.
      * intros ?. apply Hnin. by apply list_elem_of_further.
    + intros Hk'. destruct (decide (k ∈ map (address G) l)) as [Hl|Hl].
      * destruct (Hin Hl) as (c & ch' & Hc & <- & Hch' & Hp).
        exists c, ch'. split_and!; [by apply list_elem_of_further|done..].
      * apply elem_of_cons in Hk' as [->|Hk']; [|done].
        exists n, ch. split_and!; [apply list_elem_of_here|done|done|].
        rewrite (Hout Hl). apply lookup_insert_eq.
Qed.

Lemma update_ports_info_loop_channels l : forall (ports ports1 : gmap addr port) updated updated1,
  foldlM (fun '(ports, updated_addr) neighborhash =>
            match edge_channel G (address G self) neighborhash with
            | None => Raised KeyError
            | Some ch_ref =>
                Done (<[address G neighborhash :=
                          {| peer := ep_router neighborhash; channel := Some ch_ref |}]> ports,
                      updated_addr ++ [address G neighborhash])
            end) l (ports, updated) = Done (ports1, updated1) ->
  forall n, n ∈ l -> is_Some (edge_channel G (address G self) n).
Proof.
  induction l as [|n l IH]; intros ports ports1 updated updated1; cbn.
  - by intros _ n ?%elem_of_nil.
  - intros ([pa ua] & Hstep & Hrest)%bind_Done m.
    destruct (edge_channel G (address G self) n) as [ch|] eqn:Hch; [|done].
    injection Hstep as <- <-.
    intros [->|Hm]%elem_of_cons; [by rewrite Hch|]. by apply (IH _ _ _ _ Hrest).
Qed.

(** The loop raises only when an edge has no channel. *)
Lemma update_ports_info_loop_total l : forall (ports : gmap addr port) updated,
  (forall n, n ∈ l -> is_Some (edge_channel G (address G self) n)) ->
  exists ports1 updated1,
    foldlM (fun '(ports, updated_addr) neighborhash =>
              match edge_channel G (address G self) neighborhash with
              | None => Raised KeyError
              | Some ch_ref =>
                  Done (<[address G neighborhash :=
                            {| peer := ep_router neighborhash; channel := Some ch_ref |}]> ports,
                        updated_addr ++ [address G neighborhash])
              end) l (ports, updated) = Done (ports1, updated1).
Proof.
  induction l as [|n l IH]; intros ports updated Hall; cbn; [eauto|].
  destruct (Hall n) as [ch Hch]; [apply list_elem_of_here|]. rewrite Hch. cbn.
  apply IH. intros m Hm. by apply Hall, list_elem_of_further.
Qed.

Lemma update_ports_info_Done ports ports' :
  update_ports_info G self ports = Done ports' ->
  exists ports1 ip,
    address G self ∈ nodes G /\
    ipcore_ref G self = Some ip /\
    ports' = <[address G self :=
                 {| peer := ep_ipcore ip; channel := ip_channel_ref ip |}]> ports1 /\
    (forall k, is_Some (ports' !! k) ->
       k ∈ address G self :: map (address G) (adj G (address G self))) /\
    forall k,
      (k ∉ map (address G) (adj G (address G self)) -> ports1 !! k = ports !! k) /\
      (k ∈ map (address G) (adj G (address G self)) ->
         exists c ch, c ∈ adj G (address G self) /\ address G c = k /\
           edge_channel G (address G self) c = Some ch /\
           ports1 !! k = Some {| peer := ep_router c; channel := Some ch |}).
Proof.
  rewrite update_ports_info_eq. case_decide as Hnode; [|done].
  intros ([ports1 updated] & Hloop & Hrest)%bind_Done.
  destruct (ipcore_ref G self) as [ip|]; [|done].
  case_decide as Hkeys; [|done]. injection Hrest as <-.
  apply update_ports_info_loop in Hloop as [-> Hk].
  exists ports1, ip. split_and!; [done..| |done].
  intros k [p Hp]. by apply (Hkeys k p).
Qed.

Lemma update_ports_info_keys ports ports' :
  update_ports_info G self ports = Done ports' ->
  forall k, is_Some (ports' !! k) <->
    k = address G self \/ exists c, c ∈ adj G (address G self) /\ k = address G c.
Proof.
  intros (ports1 & ip & _ & Hip & -> & Hkeys & Hk)%update_ports_info_Done k. split.
  - intros [->|(c & <- & Hc%list_elem_of_In)%list_elem_of_In%in_map_iff]%Hkeys%elem_of_cons;
      [by left|right; eauto].
  - intros [->|(c & Hc & ->)]; [by rewrite lookup_insert_eq|].
    rewrite lookup_insert. case_decide; [done|].
    destruct (Hk (address G c)) as [_ Hin].
    destruct Hin as (c' & ch & _ & _ & _ & ->); [|done].
    by apply list_elem_of_In, in_map, list_elem_of_In.
Qed.

(** X5: when [update_ports_info] returns, the router's ports are keyed by
    its own address and the addresses of its neighbours in the graph, and by
    nothing else; no port the dictionary held before is missing; the port of
    the router's own address holds its ipcore and the ipcore's channel; and
    the port of a neighbour whose address is not the router's own and not
    shared with another neighbour holds that neighbour and the channel of the
    edge to it. *)
Theorem update_ports_info_ports ports ports' :
  update_ports_info G self ports = Done ports' ->
  (forall k, is_Some (ports' !! k) <->
     k = address G self \/ exists c, c ∈ adj G (address G self) /\ k = address G c) /\
  (forall k, is_Some (ports !! k) -> is_Some (ports' !! k)) /\
  (exists ip, ipcore_ref G self = Some ip /\
     ports' !! address G self =
       Some {| peer := ep_ipcore ip; channel := ip_channel_ref ip |}) /\
  (forall c, c ∈ adj G (address G self) -> address G c <> address G self ->
     (forall c', c' ∈ adj G (address G self) -> address G c' = address G c -> c' = c) ->
     exists ch, edge_channel G (address G self) c = Some ch /\
       ports' !! address G c = Some {| peer := ep_router c; channel := Some ch |}).
Proof.
  intros Hupd.
  pose proof Hupd as (ports1 & ip & _ & Hip & -> & Hkeys & Hk)%update_ports_info_Done.
  assert (forall k, is_Some (ports1 !! k) ->
            is_Some ((<[address G self :=
                          {| peer := ep_ipcore ip; channel := ip_channel_ref ip |}]> ports1) !! k))
    as Hkeep.
  { intros k Hs. rewrite lookup_insert. by case_decide. }
  split_and!.
  - by apply (update_ports_info_keys ports).
  - intros k Hs. apply Hkeep. destruct (Hk k) as [Hout Hin].
    destruct (decide (k ∈ map (address G) (adj G (address G self)))) as [Hl|Hl].
    + by destruct (Hin Hl) as (c' & ch & _ & _ & _ & ->).
    + by rewrite (Hout Hl).
  - exists ip. split; [done|]. apply lookup_insert_eq.
  - intros c Hc Hne Huniq. destruct (Hk (address G c)) as [_ Hin].
    destruct Hin as (c' & ch & Hc' & Heq & Hch & Hp);
      [by apply list_elem_of_In, in_map, list_elem_of_In|].
    apply Huniq in Heq as ->; [|done]. exists ch. split; [done|].
    by rewrite lookup_insert_ne.
Qed.

Lemma port_definitions_Done ports ports' updated :
  port_definitions G self ports = Done (ports', updated) ->
  exists ports1 ip,
    address G self ∈ nodes G /\
    ipcore_ref G self = Some ip /\
    updated = address G self :: map (address G) (adj G (address G self)) /\
    ports' = <[address G self :=
                 {| peer := ep_ipcore ip; channel := ip_channel_ref ip |}]> ports1 /\
    (forall n, n ∈ adj G (address G self) -> is_Some (edge_channel G (address G self) n)) /\
    forall k,
      (k ∉ map (address G) (adj G (address G self)) -> ports1 !! k = ports !! k) /\
      (k ∈ map (address G) (adj G (address G self)) ->
         exists c ch, c ∈ adj G (address G self) /\ address G c = k /\
           edge_channel G (address G self) c = Some ch /\
           ports1 !! k = Some {| peer := ep_router c; channel := Some ch |}).
Proof.
  unfold port_definitions. case_decide as Hnode; [|done].
  intros ([ports1 updated1] & Hloop & Hrest)%bind_Done.
  destruct (ipcore_ref G self) as [ip|]; [|done]. injection Hrest as <- <-.
  pose proof (update_ports_info_loop_channels _ _ _ _ _ Hloop) as Hch.
  apply update_ports_info_loop in Hloop as [-> Hk].
  by exists ports1, ip.
Qed.

(** The loop over the neighbours gives the ports of the neighbours' addresses
    whatever the dictionary held at these addresses. *)
Lemma update_ports_info_loop_again l : forall (p p1 q : gmap addr port) u u1 u',
  foldlM (fun '(ports, updated_addr) neighborhash =>
            match edge_channel G (address G self) neighborhash with
            | None => Raised KeyError
            | Some ch_ref =>
                Done (<[address G neighborhash :=
                          {| peer := ep_router neighborhash; channel := Some ch_ref |}]> ports,
                      updated_addr ++ [address G neighborhash])
            end) l (p, u) = Done (p1, u1) ->
  exists q1,
    foldlM (fun '(ports, updated_addr) neighborhash =>
              match edge_channel G (address G self) neighborhash with
              | None => Raised KeyError
              | Some ch_ref =>
                  Done (<[address G neighborhash :=
                            {| peer := ep_router neighborhash; channel := Some ch_ref |}]> ports,
                        updated_addr ++ [address G neighborhash])
              end) l (q, u') = Done (q1, u' ++ map (address G) l) /\
    forall k,
      (k ∈ map (address G) l -> q1 !! k = p1 !! k) /\
      (k ∉ map (address G) l -> q1 !! k = q !! k).
Proof.
  induction l as [|n l IH]; intros p p1 q u u1 u'; cbn.
  - intros _. exists q. rewrite app_nil_r. split; [done|].
    intros k. split; [by intros ?%elem_of_nil|done].
  - intros ([pa ua] & Hstep & Hrest)%bind_Done.
    destruct (edge_channel G (address G self) n) as [ch|] eqn:Hch; [|done].
    injection Hstep as <- <-. cbn.
    destruct (IH _ _ (<[address G n := {| peer := ep_router n; channel := Some ch |}]> q)
                _ _ (u' ++ [address G n]) Hrest) as (q1 & Hq & Hk).
    exists q1. rewrite <- app_assoc in Hq. split; [done|].
    apply update_ports_info_loop in Hrest as [_ Hp].
    intros k. destruct (Hk k) as [Hin Hout]. destruct (Hp k) as [Hpout _]. split.
    + intros Hk'. destruct (decide (k ∈ map (address G) l)) as [Hl|Hl]; [by apply Hin|].
      apply elem_of_cons in Hk' as [->|?]; [|done].
      by rewrite (Hout Hl), (Hpout Hl), !lookup_insert_eq.
    + intros Hk'. rewrite Hout.
      * apply lookup_insert_ne. intros <-. apply Hk', list_elem_of_here.
      * intros ?. by apply Hk', list_elem_of_further.
Qed.

(** The port definitions do not see what the clean-up of an earlier call
    deleted. *)
Lemma port_definitions_again ports ports' updated deleted :
  port_definitions G self ports = Done (ports', updated) ->
  deleted ∉ updated ->
  port_definitions G self (delete deleted ports') = Done (delete deleted ports', updated).
Proof.
  intros Hdef Hd. pose proof Hdef as (ports1 & ip & Hnode & Hip & -> & -> & Hch & Hk1)%port_definitions_Done.
  revert Hdef. unfold port_definitions. rewrite !decide_True by done.
  intros ([p1 u1] & Hloop & Hrest)%bind_Done. rewrite Hip in Hrest |- *.
  injection Hrest as Hp1 _.
  destruct (update_ports_info_loop_again _ _ _
              (delete deleted
                 (<[address G self := {| peer := ep_ipcore ip; channel := ip_channel_ref ip |}]>
                    ports1))
              _ _ [address G self] Hloop) as (q1 & Hq & Hk).
  rewrite Hq. cbn. do 2 f_equal. apply map_eq. intros k.
  apply not_elem_of_cons in Hd as [Hne Hnin].
  destruct (decide (k = address G self)) as [->|Hself].
  { rewrite lookup_insert_eq, lookup_delete_ne by done. by rewrite lookup_insert_eq. }
  rewrite lookup_insert_ne by done. destruct (Hk k) as [Hin Hout].
  destruct (decide (k ∈ map (address G) (adj G (address G self)))) as [Hl|Hl].
  - rewrite (Hin Hl). rewrite lookup_delete_ne by (by intros <-).
    rewrite <- Hp1. by rewrite lookup_insert_ne.
  - by rewrite (Hout Hl).
Qed.

(** The clean-up deletes nothing when every key is in [updated_addr];
    otherwise it deletes the first key that is not, and raises. *)
Lemma clean_deleted_spec keys updated (ports : gmap addr port) :
  (Forall (fun k => k ∈ updated) keys /\
   clean_deleted keys updated ports = (Done (), ports)) \/
  (exists before deleted after,
     keys = before ++ deleted :: after /\
     Forall (fun k => k ∈ updated) before /\
     (deleted ∉ updated) /\
     clean_deleted keys updated ports = (Raised RuntimeError, delete deleted ports)).
Proof.
  induction keys as [|k keys IH]; cbn; [by left|].
  case_decide as Hk.
  - destruct IH as [[Hall ->]|(before & deleted & after & -> & Hall & Hd & ->)].
    + left. by split; [constructor|].
    + right. exists (k :: before), deleted, after. by split_and!; [|constructor|..].
  - right. by exists [], k, keys.
Qed.


End ports.

(** ** The ports and the routing of a running router *)

Section wiring.
Import basic_router_tlm router_sim.
Context {W : Type}.
Variable channel_recv :
  noc_base.chan -> pyobj -> pyobj -> packet -> option (gmap string Z) -> W -> outcome Z * W.

Lemma ports_static_refl self : ports_static self self.
Proof. intros k. by destruct (ports_info self !! k); constructor. Qed.

Lemma ports_static_trans self1 self2 self3 :
  ports_static self1 self2 -> ports_static self2 self3 -> ports_static self1 self3.
Proof.
  intros H12 H23 k. specialize (H12 k). specialize (H23 k).
  destruct H12 as [d1 d2 [Hp Hc]|]; inversion H23 as [? d3 [Hp' Hc']|]; subst;
    constructor. split; congruence.
Qed.

Lemma set_port_static self k d d' :
  ports_info self !! k = Some d -> same_wiring d d' -> ports_static self (set_port self k d').
Proof.
  intros Hk Hw j. cbn. rewrite lookup_insert. case_decide as Hj.
  - subst j. rewrite Hk. by constructor.
  - by destruct (ports_info self !! j); constructor.
Qed.

Lemma routing_take_ports self port self' p nextaddr :
  routing_take self port = Done (self', p, nextaddr) -> ports_static self self'.
Proof.
  intros (data & rest & ? & ? & Hd & Hf & -> & _)%routing_take_Done.
  by eapply set_port_static.
Qed.

Lemma routing_put_ports self p nextaddr self' :
  routing_put self p nextaddr = Done self' -> ports_static self self'.
Proof.
  unfold routing_put. intros (data & Hd%getitem_Done & [= <-])%bind_Done.
  by eapply set_port_static.
Qed.

Lemma flush_take_ports self port self' p :
  flush_take self port = Done (self', p) -> ports_static self self'.
Proof.
  unfold flush_take. intros (data & Hd%getitem_Done & H)%bind_Done.
  destruct (fifo_out data) as [|p' rest]; [done|]. injection H as <- <-.
  by eapply set_port_static.
Qed.

Lemma flush_send_ports self port p w self' w' :
  flush_send channel_recv self port p w = Done (self', w') -> ports_static self self'.
Proof.
  unfold flush_send. intros (data & Hd%getitem_Done & H)%bind_Done.
  destruct (send _ _ _ _ _ _ _) as [[retval| |] w1]; [|done..].
  apply bind_Done in H as (self1 & H & [= <- <-]).
  unfold flush_result in H. apply bind_Done in H as (data1 & Hd1%getitem_Done & H).
  case_decide; injection H as <-; by eapply set_port_static.
Qed.

Lemma recv_ports self src dest p addattrs :
  ports_static self (recv self src dest p addattrs).2.
Proof.
  unfold recv. destruct (recv_thesrc self src) as [[thesrc|]|e|];
    try apply ports_static_refl.
  destruct (ports_info self !! thesrc) as [data|] eqn:Hd; [|apply ports_static_refl].
  case_decide; [apply ports_static_refl|]. by eapply set_port_static.
Qed.

Lemma commit_ports self : ports_static self (commit_signals self).
Proof.
  intros k. cbn. rewrite lookup_fmap. by destruct (ports_info self !! k); constructor.
Qed.

Lemma step_ports s a s' :
  step channel_recv s a = Some s' -> ports_static (tlm s) (tlm s').
Proof.
  destruct a as [src dest p aa|port| |port| | |w]; cbn; intros H.
  - pose proof (recv_ports (tlm s) src dest p aa) as Hs.
    destruct (recv _ _ _ _ _) as [[c| |] self']; [|done..]. by injection H as <-.
  - destruct (routing_hold s); [done|].
    destruct (routing_take _ _) as [[[self' p] n]| |] eqn:Ht; [|done..].
    injection H as <-. cbn. by eapply routing_take_ports.
  - destruct (routing_hold s) as [[p n]|]; [|done]. cbn in H.
    destruct (routing_put _ _ _) as [self'| |] eqn:Ht; [|done..].
    injection H as <-. cbn. by eapply routing_put_ports.
  - destruct (flush_hold s); [done|].
    destruct (flush_take _ _) as [[self' p]| |] eqn:Ht; [|done..].
    injection H as <-. cbn. by eapply flush_take_ports.
  - destruct (flush_hold s) as [[port p]|]; [|done]. cbn in H.
    destruct (flush_send _ _ _ _ _) as [[self' w']| |] eqn:Ht; [|done..].
    injection H as <-. cbn. by eapply flush_send_ports.
  - injection H as <-. apply commit_ports.
  - injection H as <-. apply ports_static_refl.
Qed.

Lemma run_ports acts : forall s s',
  run channel_recv s acts = Some s' -> ports_static (tlm s) (tlm s').
Proof.
  induction acts as [|a acts IH]; intros s s'; cbn.
  - intros [= <-]. apply ports_static_refl.
  - destruct (step channel_recv s a) as [s1|] eqn:Hs; [|done]. cbn. intros H.
    eapply ports_static_trans; [by eapply step_ports|by apply IH].
Qed.

(** X7: the ports of a constructed router never change during a simulation:
    whatever is received, routed, sent and committed, the router has a port
    for its own address and for the address of each of its neighbours in the
    graph and no other port, and every port keeps the peer and the channel
    [update_ports_info] gave it. *)
Theorem ports_never_change fuel G r fl ports routes self w acts s :
  init fuel G r fl ports routes = Done self ->
  run channel_recv (start self w) acts = Some s ->
  exists ports',
    noc_base.update_ports_info G r ports = Done ports' /\
    (forall k, is_Some (ports_info (tlm s) !! k) <->
       k = noc_base.address G r \/
       exists c, c ∈ noc_base.adj G (noc_base.address G r) /\ k = noc_base.address G c) /\
    forall k data, ports_info (tlm s) !! k = Some data ->
      exists p, ports' !! k = Some p /\
        peer data = noc_base.peer p /\ channel data = noc_base.channel p.
Proof.
  intros (ports' & routes' & ? & ? & Hports & _ & _ & _ & ->)%init_Done Hrun%run_ports.
  unfold start in Hrun. cbn in Hrun.
  exists ports'. split; [done|].
  pose proof (update_ports_info_keys _ _ _ _ Hports) as Hkeys.
  split.
  - intros k. rewrite <- Hkeys. specialize (Hrun k). cbn in Hrun.
    rewrite lookup_fmap in Hrun.
    destruct (ports' !! k); inversion Hrun; split; intros [? ?]; done || eauto.
  - intros k data Hd. specialize (Hrun k). cbn in Hrun.
    rewrite lookup_fmap, Hd in Hrun.
    destruct (ports' !! k) as [p|]; inversion Hrun as [? ? [Hp Hc]|]; subst.
    exists p. by split_and!.
Qed.

End wiring.

(** ** The routing process of a constructed router *)

Section routing.
Import basic_router_tlm router_sim.
Context {W : Type}.
Variable channel_recv :
  noc_base.chan -> pyobj -> pyobj -> packet -> option (gmap string Z) -> W -> outcome Z * W.

(** The routing table of a running router is the one its constructor made. *)
Lemma running_table fuel G r fl ports routes self w acts s :
  noc_base.address G r = r ->
  init fuel G r fl ports routes = Done self ->
  run channel_recv (start self w) acts = Some s ->
  exists routes',
    noc_base.update_routes_info fuel G r routes = Done routes' /\
    routingtable (tlm s) = <[r := [r]]> (map noc_base.next <$> routes').
Proof.
  intros Hr (ports' & routes' & ? & ? & _ & Hroutes & _ & _ & ->)%init_Done (_ & Ht & _)%run_static.
  exists routes'. split; [done|]. rewrite Ht. cbn. by rewrite Hr.
Qed.

Lemma getitem_Some {K V} `{Countable K} (d : gmap K V) k v :
  d !! k = Some v -> getitem d k = Done v.
Proof. by intros ?%getitem_Done. Qed.

Lemma getitem_None {K V} `{Countable K} (d : gmap K V) k :
  d !! k = None -> getitem d k = Raised KeyError.
Proof. unfold getitem. by intros ->. Qed.

Lemma bind_Done_l {A B} (m : outcome A) (f : A -> outcome B) a :
  m = Done a -> m ≫= f = f a.
Proof. by intros ->. Qed.

Lemma bind_Raised_l {A B} (m : outcome A) (f : A -> outcome B) e :
  m = Raised e -> m ≫= f = Raised e.
Proof. by intros ->. Qed.

(** What the routing process does with the packet at the head of a FIFO. *)
Lemma routing_take_head self port data p rest :
  ports_info self !! port = Some data -> fifo_in data = p :: rest ->
  routing_take self port =
    (destaddr ← getitem p "dst"%string;
     route ← getitem (routingtable self) destaddr;
     nextaddr ← listitem route 0;
     Done (set_port self port
             {| peer := peer data; channel := channel data;
                fifo_in := rest; fifo_out := fifo_out data;
                fifo_in_event := myhdl.set_next (fifo_in_event data) false;
                fifo_out_event := fifo_out_event data |}, p, nextaddr)).
Proof.
  intros Hd Hf. unfold routing_take. rewrite (getitem_Some _ _ _ Hd). cbn.
  by rewrite Hf.
Qed.

(** C6: the router constructed for [r] has its own address as preferred next
    hop for its own address, at construction and ever after, and the port of
    that address is the one of its ipcore.  At any point of a simulation the
    routing process takes a packet at the head of an input FIFO whose
    destination is the router's own address, finds the own address as next
    hop, and appends the packet to the output FIFO of the ipcore's port. *)
Theorem self_route fuel G r fl ports routes self :
  init fuel G r fl ports routes = Done self ->
  myaddress self = noc_base.address G r /\
  routingtable self !! myaddress self = Some [myaddress self] /\
  (exists data ip,
     ports_info self !! myaddress self = Some data /\
     noc_base.ipcore_ref G r = Some ip /\
     peer data = noc_base.ep_ipcore ip /\
     channel data = noc_base.ip_channel_ref ip) /\
  forall w acts s,
    run channel_recv (start self w) acts = Some s ->
    routingtable (tlm s) !! myaddress (tlm s) = Some [myaddress (tlm s)] /\
    myaddress (tlm s) = myaddress self /\
    forall port data p rest,
      ports_info (tlm s) !! port = Some data -> fifo_in data = p :: rest ->
      p !! "dst"%string = Some (myaddress self) ->
      exists self' self'' before local ip,
        routing_take (tlm s) port = Done (self', p, myaddress self) /\
        ports_info self' !! myaddress self = Some before /\
        routing_put self' p (myaddress self) = Done self'' /\
        ports_info self'' !! myaddress self = Some local /\
        noc_base.ipcore_ref G r = Some ip /\
        peer local = noc_base.ep_ipcore ip /\
        channel local = noc_base.ip_channel_ref ip /\
        fifo_out local = fifo_out before ++ [p] /\
        myhdl.next (fifo_out_event local) = true.
Proof.
  intros Hinit.
  destruct (init_Done _ _ _ _ _ _ _ Hinit) as (ports' & routes' & ? & ? & Hp & _ & _ & _ & Hself).
  assert (routingtable self !! myaddress self = Some [myaddress self]) as Hrt.
  { subst self. cbn. apply lookup_insert_eq. }
  assert (exists data ip,
            ports_info self !! myaddress self = Some data /\
            noc_base.ipcore_ref G r = Some ip /\
            peer data = noc_base.ep_ipcore ip /\
            channel data = noc_base.ip_channel_ref ip) as Hlocal.
  { destruct (update_ports_info_local _ _ _ _ Hp) as (ip & Hip & Hl).
    subst self. cbn. rewrite lookup_fmap, Hl. cbn.
    eexists _, ip. split; [reflexivity|]. by cbn. }
  split_and!; [by subst self|done..|].
  intros w acts s Hrun.
  destruct (run_static _ _ _ _ Hrun) as (_ & Hr & Ha). cbn in Hr, Ha.
  split_and!; [by rewrite Hr, Ha|done|].
  intros port data p rest Hd Hf Hdst.
  destruct Hlocal as (data0 & ip & Hd0 & Hip & Hpeer & Hchan).
  pose proof (run_ports channel_recv _ _ _ Hrun (myaddress self)) as Hstatic.
  unfold start in Hstatic. cbn in Hstatic. rewrite Hd0 in Hstatic.
  destruct (ports_info (tlm s) !! myaddress self) as [dl|] eqn:Hdl;
    [|by inversion Hstatic].
  assert (same_wiring data0 dl) as [Hpl Hcl] by by inversion Hstatic.
  assert (routingtable (tlm s) !! myaddress self = Some [myaddress self]) as Hroute
    by by rewrite Hr.
  assert (routing_take (tlm s) port =
            Done (set_port (tlm s) port
                    {| peer := peer data; channel := channel data;
                       fifo_in := rest; fifo_out := fifo_out data;
                       fifo_in_event := myhdl.set_next (fifo_in_event data) false;
                       fifo_out_event := fifo_out_event data |}, p, myaddress self)) as Htake.
  { rewrite (routing_take_head _ _ _ _ _ Hd Hf).
    erewrite bind_Done_l by (apply getitem_Some; exact Hdst).
    by erewrite bind_Done_l by (apply getitem_Some; exact Hroute). }
  destruct (decide (port = myaddress self)) as [->|Hport].
  - pose proof (eq_trans (eq_sym Hd) Hdl) as [= ->].
    eexists _, _, _, _, ip. split_and!; [exact Htake| | | |done|..].
    + cbn. apply lookup_insert_eq.
    + unfold routing_put.
      by erewrite bind_Done_l by (apply getitem_Some, lookup_insert_eq).
    + cbn. apply lookup_insert_eq.
    + cbn. congruence.
    + cbn. congruence.
    + done.
    + done.
  - eexists _, _, _, _, ip. split_and!; [exact Htake| | | |done|..].
    + cbn. rewrite lookup_insert_ne by done. exact Hdl.
    + unfold routing_put.
      by erewrite bind_Done_l
        by (apply getitem_Some; cbn; rewrite lookup_insert_ne by done; exact Hdl).
    + cbn. apply lookup_insert_eq.
    + cbn. congruence.
    + cbn. congruence.
    + done.
    + done.
Qed.

(** X8: in a well-formed graph, a constructed router whose address is its
    node index can always route a packet for a router it can reach: at any
    point of a simulation, for a packet at the head of an input FIFO whose
    ["dst"] is another router of the graph reachable from this one, the
    routing process finds as next hop the address of a neighbour one hop
    closer to the destination, the router has a port for that address, and
    the packet is appended to the output FIFO of that port. *)
Theorem routing_reachable_destination fuel G r fl ports routes self w acts s
    port data p rest d :
  noc_base.wf_noc G ->
  noc_base.address G r = r ->
  init fuel G r fl ports routes = Done self ->
  run channel_recv (start self w) acts = Some s ->
  ports_info (tlm s) !! port = Some data -> fifo_in data = p :: rest ->
  p !! "dst"%string = Some d ->
  d ∈ noc_base.nodes G -> d <> r -> shortest.reachable G r d ->
  exists self' c k,
    routing_take (tlm s) port = Done (self', p, noc_base.address G c) /\
    c ∈ noc_base.adj G r /\
    noc_base.shortest_dist G r d (S k) /\ noc_base.shortest_dist G c d k /\
    exists self'' data'',
      routing_put self' p (noc_base.address G c) = Done self'' /\
      ports_info self'' !! noc_base.address G c = Some data'' /\
      last (fifo_out data'') = Some p.
Proof.
  intros G_wf Hr Hinit Hrun Hd Hf Hdst Hin Hne Hreach.
  destruct (running_table _ _ _ _ _ _ _ _ _ _ Hr Hinit Hrun) as (routes' & Hroutes & Htbl).
  destruct (update_routes_info_entries G _ _ _ _ _ Hroutes Hin Hne) as (entries & Hto & He).
  pose proof (routes_to_nil G G_wf _ _ _ _ Hin Hto) as Hnil.
  pose proof (routes_to_next_hops G G_wf _ _ _ _ Hin Hne Hto) as Hnext.
  destruct entries as [|e entries]; [by apply Hnil in Hreach|].
  destruct (Hnext (noc_base.next e)) as [(c & k & Hc & Hcaddr & Hk & Hk') _];
    [apply list_elem_of_here|].
  pose proof (run_ports channel_recv _ _ _ Hrun) as Hstatic.
  assert (is_Some (ports_info (tlm s) !! noc_base.address G c)) as [dc Hdc].
  { apply init_Done in Hinit as (ports' & ? & ? & ? & Hports & _ & _ & _ & ->).
    specialize (Hstatic (noc_base.address G c)).
    unfold start in Hstatic. cbn in Hstatic. rewrite lookup_fmap in Hstatic.
    assert (is_Some (ports' !! noc_base.address G c)) as [pc Hpc].
    { apply (update_ports_info_keys _ _ _ _ Hports). right. exists c.
      by rewrite Hr. }
    rewrite Hpc in Hstatic. inversion Hstatic. eauto. }
  assert (routingtable (tlm s) !! d = Some (map noc_base.next (e :: entries))) as Hroute.
  { rewrite Htbl, lookup_insert_ne by done.
    apply lookup_fmap_Some. by exists (e :: entries). }
  eexists _, c, k. split_and!; [|done..|].
  - rewrite (routing_take_head _ _ _ _ _ Hd Hf).
    erewrite bind_Done_l by (apply getitem_Some; exact Hdst).
    erewrite bind_Done_l by (apply getitem_Some; exact Hroute).
    cbn. by rewrite Hcaddr.
  - unfold routing_put.
    destruct (decide (port = noc_base.address G c)) as [<-|Hp].
    + erewrite bind_Done_l by (apply getitem_Some, lookup_insert_eq).
      eexists _, _. split; [done|]. cbn. rewrite lookup_insert_eq. split; [done|].
      cbn. by rewrite last_snoc.
    + erewrite bind_Done_l
        by (apply getitem_Some; cbn; rewrite lookup_insert_ne by done; exact Hdc).
      eexists _, _. split; [done|]. cbn. rewrite lookup_insert_eq.
      split; [done|]. cbn. by rewrite last_snoc.
Qed.

(** X9: what the routing process of a constructed router (its address being
    its node index) cannot route, at any point of a simulation: a packet
    without ["dst"] and a packet for an address that is no router of the
    graph raise [KeyError], and in a well-formed graph a packet for a router
    that cannot be reached from this one raises [IndexError]. *)
Theorem routing_unroutable fuel G r fl ports routes self w acts s port data p rest :
  noc_base.wf_noc G ->
  noc_base.address G r = r ->
  init fuel G r fl ports routes = Done self ->
  run channel_recv (start self w) acts = Some s ->
  ports_info (tlm s) !! port = Some data -> fifo_in data = p :: rest ->
  (p !! "dst"%string = None -> routing_take (tlm s) port = Raised KeyError) /\
  (forall d, p !! "dst"%string = Some d -> d <> r -> d ∉ noc_base.nodes G ->
     routing_take (tlm s) port = Raised KeyError) /\
  (forall d, p !! "dst"%string = Some d -> d <> r -> d ∈ noc_base.nodes G ->
     ~ shortest.reachable G r d -> routing_take (tlm s) port = Raised IndexError).
Proof.
  intros G_wf Hr Hinit Hrun Hd Hf.
  destruct (running_table _ _ _ _ _ _ _ _ _ _ Hr Hinit Hrun) as (routes' & Hroutes & Htbl).
  rewrite (routing_take_head _ _ _ _ _ Hd Hf). split_and!.
  - intros Hdst. apply bind_Raised_l, getitem_None, Hdst.
  - intros d Hdst Hne Hnin.
    erewrite bind_Done_l by (apply getitem_Some; exact Hdst).
    apply bind_Raised_l, getitem_None.
    rewrite Htbl, lookup_insert_ne by done. apply eq_None_not_Some.
    intros [? (entries & _ & He)%lookup_fmap_Some].
    by destruct (update_routes_info_lookup _ _ _ _ _ _ _ Hroutes He) as (? & _).
  - intros d Hdst Hne Hin Hno.
    erewrite bind_Done_l by (apply getitem_Some; exact Hdst).
    destruct (update_routes_info_entries G _ _ _ _ _ Hroutes Hin Hne) as (entries & Hto & He).
    apply (routes_to_nil G G_wf _ _ _ _ Hin Hto) in Hno as ->.
    erewrite bind_Done_l; cycle 1.
    { apply getitem_Some. rewrite Htbl, lookup_insert_ne by done.
      apply lookup_fmap_Some. by exists []. }
    done.
Qed.

End routing.

(** ** Receiving from a channel *)

Section recv_channel.
Import basic_router_tlm.

(** X10: [recv] called with a channel of two endpoints, one of them this
    router, takes the packet as coming from the other endpoint, whichever
    comes first in [endpoints]: it does what it does when called with that
    router, or with the router of that ipcore.  Called with a channel that
    does not have this router as an endpoint it raises [ValueError] and
    leaves the router as it was. *)
Theorem recv_from_channel self c e0 e1 dest p addattrs :
  noc_base.endpoints (graph_ref self) c = [e0; e1] ->
  ((e0 = noc_base.ep_router (router_ref self) \/
    e1 = noc_base.ep_router (router_ref self)) ->
   recv self (PyChannel c) dest p addattrs =
     match (if decide (e0 = noc_base.ep_router (router_ref self)) then e1 else e0) with
     | noc_base.ep_router r' => recv self (PyRouter r') dest p addattrs
     | noc_base.ep_ipcore ip =>
         match noc_base.ip_router_ref ip with
         | Some r' => recv self (PyRouter r') dest p addattrs
         | None => (Raised AttributeError, self)
         end
     | noc_base.ep_none => (Done noc_tlm_errcodes.tlm_badcall_recv, self)
     end) /\
  (e0 <> noc_base.ep_router (router_ref self) ->
   e1 <> noc_base.ep_router (router_ref self) ->
   recv self (PyChannel c) dest p addattrs = (Raised ValueError, self)).
Proof.
  intros Hends. unfold recv, recv_thesrc. rewrite Hends. cbn [list_index].
  split.
  - intros Hme. case_decide as H0.
    + cbn. change (pyindex [e0; e1] (0 - 1)) with (Done e1). cbn.
      destruct e1 as [r'|ip|]; [done| |done].
      by destruct (noc_base.ip_router_ref ip).
    + destruct Hme as [?|H1]; [done|]. rewrite decide_True by done.
      cbn. change (pyindex [e0; e1] (0 + 1 - 1)) with (Done e0). cbn.
      destruct e0 as [r'|ip|]; [done| |done].
      by destruct (noc_base.ip_router_ref ip).
  - intros H0 H1. by rewrite !decide_False by done.
Qed.

End recv_channel.

(** ** The packets inside a router *)

Section packets.
Import basic_router_tlm router_sim.
Context {W : Type}.
Variable channel_recv :
  noc_base.chan -> pyobj -> pyobj -> packet -> option (gmap string Z) -> W -> outcome Z * W.

Ltac packets_solver :=
  repeat match goal with
         | H : context [list_to_set_disj (_ ++ _)] |- _ => rewrite list_to_set_disj_app in H
         | H : context [list_to_set_disj (_ :: _)] |- _ => rewrite list_to_set_disj_cons in H
         | H : context [list_to_set_disj []] |- _ => rewrite list_to_set_disj_nil in H
         end;
  multiset_solver.

Lemma ports_packets_insert (m : gmap noc_base.addr tlm_port) k d :
  m !! k = None -> ports_packets (<[k := d]> m) = port_packets d ⊎ ports_packets m.
Proof.
  intros Hk. unfold ports_packets. rewrite map_fold_insert_L; [done| |done].
  intros. multiset_solver.
Qed.

Lemma ports_packets_replace (m : gmap noc_base.addr tlm_port) k d d' :
  m !! k = Some d ->
  ports_packets (<[k := d']> m) ⊎ port_packets d = ports_packets m ⊎ port_packets d'.
Proof.
  intros Hk. rewrite <- (insert_delete_id m k d Hk) at 2.
  rewrite <- (insert_delete_eq m k d').
  rewrite !ports_packets_insert by apply lookup_delete_eq. multiset_solver.
Qed.

Lemma ports_packets_fmap (g : tlm_port -> tlm_port) (m : gmap noc_base.addr tlm_port) :
  (forall d, port_packets (g d) = port_packets d) ->
  ports_packets (g <$> m) = ports_packets m.
Proof.
  intros Hg. induction m as [|k d m Hk IH] using map_ind.
  - by rewrite fmap_empty.
  - rewrite fmap_insert, !ports_packets_insert, Hg, IH; [done..|].
    by rewrite lookup_fmap, Hk.
Qed.

Lemma ports_packets_empty (m : gmap noc_base.addr tlm_port) :
  (forall k d, m !! k = Some d -> fifo_in d = [] /\ fifo_out d = []) ->
  ports_packets m = ∅.
Proof.
  induction m as [|k d m Hk IH] using map_ind; intros Hall; [done|].
  rewrite ports_packets_insert by done. rewrite IH.
  - destruct (Hall k d) as [Hi Ho]; [apply lookup_insert_eq|].
    unfold port_packets. rewrite Hi, Ho. multiset_solver.
  - intros j dj Hj. apply (Hall j dj). rewrite lookup_insert_ne; [done|].
    intros ->. congruence.
Qed.

Lemma recv_packets self src dest p addattrs :
  ((recv self src dest p addattrs).1 = Done noc_tlm_errcodes.no_error /\
   ports_packets (ports_info (recv self src dest p addattrs).2) =
     ports_packets (ports_info self) ⊎ {[+ p +]}) \/
  ((recv self src dest p addattrs).1 <> Done noc_tlm_errcodes.no_error /\
   (recv self src dest p addattrs).2 = self).
Proof.
  unfold recv. destruct (recv_thesrc self src) as [[thesrc|]|e|]; try by right.
  destruct (ports_info self !! thesrc) as [data|] eqn:Hd; [|by right].
  case_decide; [by right|]. left. split; [done|]. cbn.
  pose proof (ports_packets_replace _ _ _
    {| peer := peer data; channel := channel data;
       fifo_in := fifo_in data ++ [p]; fifo_out := fifo_out data;
       fifo_in_event := myhdl.set_next (fifo_in_event data) true;
       fifo_out_event := fifo_out_event data |} Hd) as Heq.
  unfold port_packets in Heq. cbn in Heq. packets_solver.
Qed.

Lemma routing_take_packets self port self' p nextaddr :
  routing_take self port = Done (self', p, nextaddr) ->
  ports_packets (ports_info self) = ports_packets (ports_info self') ⊎ {[+ p +]}.
Proof.
  intros (data & rest & ? & ? & Hd & Hf & -> & _)%routing_take_Done. cbn.
  pose proof (ports_packets_replace _ _ _
    {| peer := peer data; channel := channel data;
       fifo_in := rest; fifo_out := fifo_out data;
       fifo_in_event := myhdl.set_next (fifo_in_event data) false;
       fifo_out_event := fifo_out_event data |} Hd) as Heq.
  unfold port_packets in Heq. cbn in Heq. rewrite Hf in Heq. packets_solver.
Qed.

Lemma routing_put_packets self p nextaddr self' :
  routing_put self p nextaddr = Done self' ->
  ports_packets (ports_info self') = ports_packets (ports_info self) ⊎ {[+ p +]}.
Proof.
  unfold routing_put. intros (data & Hd%getitem_Done & [= <-])%bind_Done. cbn.
  pose proof (ports_packets_replace _ _ _
    {| peer := peer data; channel := channel data;
       fifo_in := fifo_in data; fifo_out := fifo_out data ++ [p];
       fifo_in_event := fifo_in_event data;
       fifo_out_event := myhdl.set_next (fifo_out_event data) true |} Hd) as Heq.
  unfold port_packets in Heq. cbn in Heq. packets_solver.
Qed.

Lemma flush_take_packets self port self' p :
  flush_take self port = Done (self', p) ->
  ports_packets (ports_info self) = ports_packets (ports_info self') ⊎ {[+ p +]}.
Proof.
  unfold flush_take. intros (data & Hd%getitem_Done & H)%bind_Done.
  destruct (fifo_out data) as [|p' rest] eqn:Hf; [done|]. injection H as <- <-. cbn.
  pose proof (ports_packets_replace _ _ _
    {| peer := peer data; channel := channel data;
       fifo_in := fifo_in data; fifo_out := rest;
       fifo_in_event := fifo_in_event data;
       fifo_out_event := fifo_out_event data |} Hd) as Heq.
  unfold port_packets in Heq. cbn in Heq. rewrite Hf in Heq. packets_solver.
Qed.

(** What the flush process does with the packet it holds: gone when the
    send returned [no_error], back in the router otherwise. *)
Lemma flush_send_packets self port p w self' w' :
  flush_send channel_recv self port p w = Done (self', w') ->
  exists data retval,
    ports_info self !! port = Some data /\
    send channel_recv self (PyRouter (router_ref self)) (chan_obj (channel data)) p None w
      = (Done retval, w') /\
    ports_packets (ports_info self') =
      if decide (retval = noc_tlm_errcodes.no_error)
      then ports_packets (ports_info self)
      else ports_packets (ports_info self) ⊎ {[+ p +]}.
Proof.
  unfold flush_send. intros (data & Hd%getitem_Done & H)%bind_Done.
  exists data.
  destruct (send _ _ _ _ _ _ _) as [[retval| |] w1]; [|done..]. exists retval.
  apply bind_Done in H as (self1 & H & [= <- <-]).
  split_and!; [done..|].
  unfold flush_result in H. apply bind_Done in H as (data1 & Hd1%getitem_Done & H).
  case_decide; injection H as <-; cbn.
  - pose proof (ports_packets_replace _ _ _
      {| peer := peer data1; channel := channel data1;
         fifo_in := fifo_in data1; fifo_out := fifo_out data1;
         fifo_in_event := fifo_in_event data1;
         fifo_out_event := myhdl.set_next (fifo_out_event data1) false |} Hd1) as Heq.
    unfold port_packets in Heq. cbn in Heq. multiset_solver.
  - pose proof (ports_packets_replace _ _ _
      {| peer := peer data1; channel := channel data1;
         fifo_in := fifo_in data1; fifo_out := fifo_out data1 ++ [p];
         fifo_in_event := fifo_in_event data1;
         fifo_out_event := fifo_out_event data1 |} Hd1) as Heq.
    unfold port_packets in Heq. cbn in Heq. packets_solver.
Qed.

Lemma commit_packets self :
  ports_packets (ports_info (commit_signals self)) = ports_packets (ports_info self).
Proof. cbn. by apply ports_packets_fmap. Qed.

(** The packets inside the router along a step that raises nothing. *)
Lemma step_packets s a s' :
  step channel_recv s a = Some s' ->
  match a with
  | do_recv src dest p addattrs =>
      ((recv (tlm s) src dest p addattrs).1 = Done noc_tlm_errcodes.no_error /\
       held s' = held s ⊎ {[+ p +]}) \/
      ((recv (tlm s) src dest p addattrs).1 <> Done noc_tlm_errcodes.no_error /\
       held s' = held s)
  | do_flush_send =>
      exists port p data retval,
        flush_hold s = Some (port, p) /\
        ports_info (tlm s) !! port = Some data /\
        (send channel_recv (tlm s) (PyRouter (router_ref (tlm s)))
              (chan_obj (channel data)) p None (world s)).1 = Done retval /\
        if decide (retval = noc_tlm_errcodes.no_error)
        then held s = held s' ⊎ {[+ p +]}
        else held s' = held s
  | _ => held s' = held s
  end.
Proof.
  destruct a as [src dest p aa|port| |port| | |w]; cbn; intros H.
  - destruct (recv_packets (tlm s) src dest p aa) as [[Hc Hp]|[Hc Hp]].
    + left. split; [done|].
      destruct (recv _ _ _ _ _) as [[c| |] self']; [|done..]. injection H as <-.
      unfold held. cbn in *. rewrite Hp. multiset_solver.
    + right. split; [done|].
      destruct (recv _ _ _ _ _) as [[c| |] self']; [|done..]. injection H as <-.
      unfold held. cbn in *. by rewrite Hp.
  - destruct (routing_hold s) eqn:Hh; [done|].
    destruct (routing_take _ _) as [[[self' p] n]| |] eqn:Ht; [|done..].
    injection H as <-. apply routing_take_packets in Ht.
    unfold held. cbn. rewrite Hh, Ht. multiset_solver.
  - destruct (routing_hold s) as [[p n]|] eqn:Hh; [|done]. cbn in H.
    destruct (routing_put _ _ _) as [self'| |] eqn:Ht; [|done..].
    injection H as <-. apply routing_put_packets in Ht.
    unfold held. cbn. rewrite Hh, Ht. multiset_solver.
  - destruct (flush_hold s) eqn:Hh; [done|].
    destruct (flush_take _ _) as [[self' p]| |] eqn:Ht; [|done..].
    injection H as <-. apply flush_take_packets in Ht.
    unfold held. cbn. rewrite Hh, Ht. multiset_solver.
  - destruct (flush_hold s) as [[port p]|] eqn:Hh; [|done]. cbn in H.
    destruct (flush_send _ _ _ _ _) as [[self' w']| |] eqn:Ht; [|done..].
    injection H as <-.
    apply flush_send_packets in Ht as (data & retval & Hd & Hsend & Hp).
    exists port, p, data, retval. split_and!; [done|done|by rewrite Hsend|].
    unfold held. cbn. rewrite Hh, Hp. case_decide; multiset_solver.
  - injection H as <-. unfold held. cbn -[commit_signals]. by rewrite commit_packets.
  - by injection H as <-.
Qed.

Lemma routing_take_pop self port :
  routing_take self port =
    '(popped, p) ← routing_pop self port;
    destaddr ← getitem p "dst"%string;
    route ← getitem (routingtable self) destaddr;
    nextaddr ← listitem route 0;
    Done (popped, p, nextaddr).
Proof.
  unfold routing_take, routing_pop.
  destruct (getitem (ports_info self) port) as [data| |]; cbn; [|done..].
  by destruct (fifo_in data).
Qed.

Lemma routing_pop_Done self port popped p :
  routing_pop self port = Done (popped, p) ->
  exists data rest,
    ports_info self !! port = Some data /\ fifo_in data = p :: rest /\
    ports_packets (ports_info self) = ports_packets (ports_info popped) ⊎ {[+ p +]}.
Proof.
  unfold routing_pop. intros (data & Hd%getitem_Done & H)%bind_Done.
  destruct (fifo_in data) as [|p' rest] eqn:Hf; [done|]. injection H as <- <-.
  exists data, rest. split_and!; [done..|]. cbn.
  pose proof (ports_packets_replace _ _ _
    {| peer := peer data; channel := channel data;
       fifo_in := rest; fifo_out := fifo_out data;
       fifo_in_event := myhdl.set_next (fifo_in_event data) false;
       fifo_out_event := fifo_out_event data |} Hd) as Heq.
  unfold port_packets in Heq. cbn in Heq. rewrite Hf in Heq. packets_solver.
Qed.

(** [exec] goes on exactly where [step] does, to the same state. *)
Lemma exec_step s a s' :
  exec channel_recv s a = Some (Goes s') <-> step channel_recv s a = Some s'.
Proof.
  destruct a as [src dest p aa|port| |port| | |w]; cbn.
  - destruct (recv _ _ _ _ _) as [[c|e|] self']; split; intros H; by simplify_eq.
  - destruct (routing_hold s); [done|]. rewrite routing_take_pop.
    destruct (routing_pop _ _) as [[popped p]|e|]; cbn; [|done..].
    match goal with
    | |- context [of_outcome ?X] => destruct X as [[[self' p'] n]|e|]
    end; cbn; split; intros H; by simplify_eq.
  - destruct (routing_hold s) as [[p n]|]; cbn; [|done].
    destruct (routing_put _ _ _) as [self'|e|]; cbn; split; intros H; by simplify_eq.
  - destruct (flush_hold s); [done|].
    destruct (flush_take _ _) as [[self' p]|e|]; cbn; split; intros H; by simplify_eq.
  - destruct (flush_hold s) as [[port p]|]; cbn; [|done]. unfold flush_send, getitem.
    destruct (ports_info (tlm s) !! port) as [data|]; cbn; [|done].
    destruct (send _ _ _ _ _ _ _) as [[retval|e|] w']; cbn;
      [|split; intros H; by simplify_eq..].
    destruct (flush_result _ _ _ _) as [self'|e|]; cbn; split; intros H; by simplify_eq.
  - split; intros H; by simplify_eq.
  - split; intros H; by simplify_eq.
Qed.


Lemma offered_one (a : @action W) :
  offered [a] = match a with do_recv _ _ p _ => {[+ p +]} | _ => ∅ end.
Proof. destruct a; cbn [offered]; multiset_solver. Qed.

Lemma step_offered s a s' :
  step channel_recv s a = Some s' -> held s' ⊆ held s ⊎ offered [a].
Proof.
  rewrite offered_one. destruct a as [src dest p aa|port| |port| | |w]; cbn; intros H.
  - destruct (recv_packets (tlm s) src dest p aa) as [[Hc Hp]|[Hc Hp]];
      destruct (recv _ _ _ _ _) as [[c| |] self']; try done; injection H as <-;
      unfold held; cbn in *; rewrite Hp; multiset_solver.
  - destruct (routing_hold s) eqn:Hh; [done|].
    destruct (routing_take _ _) as [[[self' p] n]| |] eqn:Ht; [|done..].
    injection H as <-. apply routing_take_packets in Ht.
    unfold held. cbn. rewrite Hh, Ht. multiset_solver.
  - destruct (routing_hold s) as [[p n]|] eqn:Hh; [|done]. cbn in H.
    destruct (routing_put _ _ _) as [self'| |] eqn:Ht; [|done..].
    injection H as <-. apply routing_put_packets in Ht.
    unfold held. cbn. rewrite Hh, Ht. multiset_solver.
  - destruct (flush_hold s) eqn:Hh; [done|].
    destruct (flush_take _ _) as [[self' p]| |] eqn:Ht; [|done..].
    injection H as <-. apply flush_take_packets in Ht.
    unfold held. cbn. rewrite Hh, Ht. multiset_solver.
  - destruct (flush_hold s) as [[port p]|] eqn:Hh; [|done]. cbn in H.
    destruct (flush_send _ _ _ _ _) as [[self' w']| |] eqn:Ht; [|done..].
    injection H as <-.
    apply flush_send_packets in Ht as (data & retval & Hd & Hsend & Hp).
    unfold held. cbn. rewrite Hh, Hp. case_decide; multiset_solver.
  - injection H as <-. unfold held. cbn -[commit_signals]. rewrite commit_packets.
    multiset_solver.
  - injection H as <-. unfold held. cbn. multiset_solver.
Qed.

Lemma offered_cons (a : @action W) acts : offered (a :: acts) = offered [a] ⊎ offered acts.
Proof. rewrite offered_one. destruct a; cbn [offered]; multiset_solver. Qed.

Lemma run_offered acts : forall s s',
  run channel_recv s acts = Some s' -> held s' ⊆ held s ⊎ offered acts.
Proof.
  induction acts as [|a acts IH]; intros s s'.
  - cbn. intros [= <-]. multiset_solver.
  - rewrite offered_cons. cbn [run]. intros H.
    destruct (step channel_recv s a) as [s1|] eqn:Hs; [|done]. cbn in H.
    apply IH in H. apply step_offered in Hs. multiset_solver.
Qed.

(** X12: every packet inside a constructed router, at any point of a
    simulation, was brought by a [recv] call, and the router holds no more
    copies of it than the [recv] calls brought. *)
Theorem held_were_received fuel G r fl ports routes self w acts s :
  init fuel G r fl ports routes = Done self ->
  run channel_recv (start self w) acts = Some s ->
  held s ⊆ offered acts.
Proof.
  intros Hinit Hrun%run_offered.
  assert (held (start self w) = ∅) as Hstart.
  { unfold held, start. cbn. rewrite ports_packets_empty; [multiset_solver|].
    intros k d. by apply (init_fifos_empty _ _ _ _ _ _ _ _ _ Hinit). }
  rewrite Hstart in Hrun. multiset_solver.
Qed.

End packets.

(** ** The packet layout of a protocol *)

Section protocol_layout.
Import protocol.

Lemma index_Ret x l i : index x l = Ret i -> l !! i = Some x.
Proof.
  revert i. induction l as [|y l IH]; intros i; cbn; [done|].
  case_decide as Hy; [by intros [= <-]; subst|].
  destruct (index x l) as [j|e]; [|done]. cbn. intros [= <-]. by apply IH.
Qed.

Lemma index_elem x l : x ∈ l -> exists i, index x l = Ret i.
Proof.
  induction l as [|y l IH]; [by intros ?%elem_of_nil|]. cbn.
  case_decide as Hy; [eauto|].
  intros [->|Hx]%elem_of_cons; [done|]. destruct (IH Hx) as [i ->]. cbn. eauto.
Qed.

Lemma index_head x l i : index x l = Ret i -> i = 0%nat <-> head l = Some x.
Proof.
  destruct l as [|y l]; cbn; [done|]. case_decide as Hy.
  - intros [= <-]. subst. done.
  - destruct (index x l) as [j|e]; [|done]. cbn. intros [= <-].
    split; [done|]. intros [= ?]. done.
Qed.

Lemma total_bits_ext (d d' : gmap string field) l :
  (forall n, n ∈ l -> bitlen <$> d !! n = bitlen <$> d' !! n) ->
  total_bits d l = total_bits d' l.
Proof.
  induction l as [|n l IH]; intros Hext; cbn; [done|].
  rewrite (Hext n) by apply list_elem_of_here. f_equal.
  apply IH. intros m Hm. by apply Hext, list_elem_of_further.
Qed.

Lemma total_bits_app (d : gmap string field) l1 l2 :
  total_bits d (l1 ++ l2) = total_bits d l1 + total_bits d l2.
Proof. unfold total_bits. induction l1 as [|n l1 IH]; cbn; [done|]. rewrite IH. lia. Qed.

Lemma total_bits_insert (d : gmap string field) n f l :
  n ∉ l -> total_bits (<[n := f]> d) l = total_bits d l.
Proof.
  intros Hn. apply total_bits_ext. intros m Hm.
  rewrite lookup_insert_ne; [done|]. by intros ->.
Qed.

Lemma total_bits_snoc (d : gmap string field) l n f :
  d !! n = Some f -> total_bits d (l ++ [n]) = total_bits d l + bitlen f.
Proof. intros Hf. rewrite total_bits_app. cbn. rewrite Hf. cbn. lia. Qed.

(** The loop that moves the fields after a resized one. *)
Lemma adjust_loop l : forall done (d : gmap string field) next,
  NoDup (done ++ l) ->
  (forall n, n ∈ l -> is_Some (d !! n)) ->
  next = total_bits d done ->
  exists d',
    foldl_res adjust l (d, next) = Ret (d', total_bits d (done ++ l)) /\
    (forall n, n ∉ l -> d' !! n = d !! n) /\
    (forall n, bitlen <$> d' !! n = bitlen <$> d !! n) /\
    forall i n, l !! i = Some n ->
      exists f, d !! n = Some f /\
        d' !! n = Some {| type := type f; position := position f; bitlen := bitlen f;
                          lsb := total_bits d (done ++ take i l) + bitlen f;
                          msb := total_bits d (done ++ take i l) |}.
Proof.
  induction l as [|n l IH]; intros done d next Hnd Hdom ->.
  - exists d. cbn. rewrite app_nil_r. split_and!; [done..|]. by intros i n ?.
  - destruct (Hdom n) as [f Hf]; [apply list_elem_of_here|].
    cbn. unfold getfield. rewrite Hf. cbn.
    set (f' := {| type := type f; position := position f; bitlen := bitlen f;
                  lsb := total_bits d done + bitlen f; msb := total_bits d done |}).
    assert (forall m, bitlen <$> <[n := f']> d !! m = bitlen <$> d !! m) as Hbit.
    { intros m. rewrite lookup_insert. case_decide; [subst; by rewrite Hf|done]. }
    assert (forall k, total_bits (<[n := f']> d) k = total_bits d k) as Htot.
    { intros k. apply total_bits_ext. intros m _. apply Hbit. }
    destruct (IH (done ++ [n]) (<[n := f']> d) (total_bits d done + bitlen f))
      as (d' & Hloop & Hout & Hbit' & Hin).
    + by rewrite <- app_assoc.
    + intros m Hm. rewrite lookup_insert. case_decide; [done|].
      by apply Hdom, list_elem_of_further.
    + rewrite Htot. by rewrite (total_bits_snoc _ _ _ _ Hf).
    + exists d'. rewrite Hloop, Htot, <- app_assoc. split_and!; [done| | |].
      * intros m Hm. rewrite Hout.
        -- apply lookup_insert_ne. intros ->. apply Hm, list_elem_of_here.
        -- intros ?. apply Hm. by apply list_elem_of_further.
      * intros m. by rewrite Hbit', Hbit.
      * intros [|i] m Hm.
        -- injection Hm as <-. exists f. split; [done|]. cbn. rewrite app_nil_r.
           rewrite Hout; [apply lookup_insert_eq|].
           apply NoDup_app in Hnd as (_ & _ & Hnd). by apply NoDup_cons in Hnd as [? _].
        -- cbn in Hm. destruct (Hin i m Hm) as (g & Hg & Hd'). exists g.
           assert (m <> n) as Hmn.
           { intros ->. apply NoDup_app in Hnd as (_ & _ & Hnd).
             apply NoDup_cons in Hnd as [Hnin _]. apply Hnin.
             by eapply list_elem_of_lookup_2. }
           rewrite lookup_insert_ne in Hg by done. split; [done|].
           rewrite Hd', Htot. cbn. by rewrite <- app_assoc.
Qed.

(** Where a new field starts. *)
Lemma append_offset self :
  laid_out self ->
  (if decide (size (packet_format self) = 0%nat) then Ret 0
   else match last (packet_order self) with
        | None => Raise IndexError
        | Some lastname => f ← getfield (packet_format self) lastname; Ret (lsb f)
        end) = Ret (total_bits (packet_format self) (packet_order self)).
Proof.
  intros [Hnd Hdom Hlay]. case_decide as Hsize.
  - apply map_size_empty_iff in Hsize.
    destruct (packet_order self) as [|n l]; [done|].
    destruct (proj2 (Hdom n)) as [f Hf]; [apply list_elem_of_here|].
    by rewrite Hsize in Hf.
  - destruct (packet_order self) as [|n0 l0] eqn:Horder using rev_ind.
    + destruct Hsize. apply map_size_empty_iff, map_empty. intros k.
      apply eq_None_not_Some. intros Hk%Hdom. by apply elem_of_nil in Hk.
    + clear IHl0. rewrite last_snoc.
      destruct (Hlay (length l0) n0) as (f & Hf & _ & Hmsb & Hlsb).
      { by rewrite lookup_app_r, Nat.sub_diag. }
      unfold getfield. rewrite Hf. cbn. f_equal.
      rewrite Hlsb, Hmsb, take_app_length.
      by rewrite (total_bits_snoc _ _ _ _ Hf).
Qed.

(** A call of [update_packet_field] that returns keeps the layout
    consistent. *)
Lemma update_packet_field_laid_out self name ty blen self' :
  laid_out self ->
  update_packet_field self name ty blen = Ret self' ->
  laid_out self' /\
  packet_order self' =
    (if decide (name ∈ packet_order self) then packet_order self
     else packet_order self ++ [name]) /\
  exists f, packet_format self' !! name = Some f /\ type f = ty /\ bitlen f = blen.
Proof.
  intros Hlaid. pose proof Hlaid as [Hnd Hdom Hlay].
  unfold update_packet_field. case_decide as Hty; [done|].
  destruct (packet_format self !! name) as [old0|] eqn:Hold.
  - assert (name ∈ packet_order self) as Hin by (apply Hdom; eauto).
    rewrite (decide_True (P := name ∈ packet_order self)) by done.
    destruct (index_elem _ _ Hin) as [idx Hidx]. rewrite Hidx. cbn.
    pose proof (index_Ret _ _ _ Hidx) as Hat.
    destruct idx as [|idx].
    + change (Z.of_nat 0 - 1) with (-1). rewrite decide_True by lia.
      change (-1 + 1) with 0. change (Z.to_nat (-1 + 2)) with 1%nat.
      cbn [mbind res_bind]. unfold getfield. rewrite Hold. cbn [mbind res_bind].
      destruct (packet_order self) as [|n0 rest] eqn:Horder; [done|].
      injection Hat as ->.
      destruct (Hlay 0%nat name eq_refl) as (f0 & Hf0 & Hpos & Hmsb & Hlsb).
      rewrite Hold in Hf0. injection Hf0 as <-. cbn in Hmsb.
      case_decide as Hlen.
      * cbn [drop]. rewrite drop_0.
        apply NoDup_cons in Hnd as Hnd'. destruct Hnd' as [Hname Hrest].
        set (resized := {| type := ty; position := 0; bitlen := blen;
                           lsb := 0 + blen; msb := 0 |}).
        destruct (adjust_loop rest [name] (<[name := resized]> (packet_format self)) (0 + blen))
          as (d' & Hloop & Hout & Hbit & Hmoved).
        { done. }
        { intros n Hn. rewrite lookup_insert_ne by (by intros ->).
          apply Hdom. by apply list_elem_of_further. }
        { cbn. rewrite lookup_insert_eq. cbn. lia. }
        rewrite Hloop. cbn. intros [= <-]. cbn.
        assert (d' !! name = Some resized) as Hname'.
        { rewrite Hout by done. apply lookup_insert_eq. }
        assert (forall k, total_bits d' k = total_bits (<[name := resized]> (packet_format self)) k)
          as Htot.
        { intros k. apply total_bits_ext. intros m _. apply Hbit. }
        split_and!; [|done|by exists resized].
        split; cbn.
        -- done.
        -- intros n. rewrite <- Hdom. split.
           ++ intros [g Hg]. destruct (decide (n = name)) as [->|Hne]; [eauto|].
              destruct (decide (n ∈ rest)) as [Hn|Hn].
              ** apply Hdom. by apply list_elem_of_further.
              ** rewrite Hout, lookup_insert_ne in Hg by done. eauto.
           ++ intros Hn%Hdom. apply elem_of_cons in Hn as [->|Hn]; [eauto|].
              apply list_elem_of_lookup in Hn as [i Hi].
              destruct (Hmoved i n Hi) as (g & _ & ->). eauto.
        -- intros [|i] n Hn.
           ++ injection Hn as <-. exists resized. by split_and!.
           ++ cbn in Hn. destruct (Hmoved i n Hn) as (g & Hg & Hd').
              eexists. split; [done|].
              assert (n <> name) as Hne.
              { intros ->. apply Hname. by eapply list_elem_of_lookup_2. }
              rewrite lookup_insert_ne in Hg by done.
              destruct (Hlay (S i) n Hn) as (g' & Hg' & Hpos' & _).
              rewrite Hg in Hg'. injection Hg' as <-.
              split_and!; cbn [position msb lsb bitlen]; [done|by rewrite Htot|lia].
      * cbn in Hlen. intros [= <-]. cbn.
        set (retyped := {| type := ty; position := 0; bitlen := bitlen old0;
                           lsb := lsb old0; msb := msb old0 |}).
        assert (forall k, total_bits (<[name := retyped]> (packet_format self)) k
                          = total_bits (packet_format self) k) as Htot.
        { intros k. apply total_bits_ext. intros m _. rewrite lookup_insert.
          case_decide; [subst; by rewrite Hold|done]. }
        split_and!; [|done|exists retyped; by rewrite lookup_insert_eq].
        split; cbn.
        -- done.
        -- intros n. rewrite <- Hdom, lookup_insert. case_decide; [|done].
           subst. by rewrite Hold.
        -- intros i n Hn. destruct (Hlay i n Hn) as (g & Hg & Hpos' & Hmsb' & Hlsb').
           rewrite Htot, lookup_insert. case_decide as Hname.
           ++ subst n. rewrite Hold in Hg. injection Hg as <-.
              exists retyped. split; [done|]. cbn. split_and!; [lia|done|done].
           ++ by exists g.
    + rewrite decide_False by lia.
      unfold getname. replace (Z.to_nat (Z.of_nat (S idx) - 1)) with idx by lia.
      destruct (packet_order self !! idx) as [prev|]; [|done]. cbn [mbind res_bind].
      by destruct (getfield (packet_format self) prev).
  - assert (name ∉ packet_order self) as Hnin.
    { intros [f Hf]%Hdom. congruence. }
    rewrite (decide_False (P := name ∈ packet_order self)) by done.
    rewrite (append_offset _ Hlaid). cbn. intros [= <-]. cbn.
    set (added := {| type := ty; position := Z.of_nat (length (packet_order self));
                     bitlen := blen;
                     lsb := total_bits (packet_format self) (packet_order self) + blen;
                     msb := total_bits (packet_format self) (packet_order self) |}).
    split_and!; [|done|exists added; by rewrite lookup_insert_eq].
    split; cbn.
    + apply NoDup_app. split_and!; [done| |apply NoDup_singleton].
      intros n Hn ->%list_elem_of_singleton. done.
    + intros n. rewrite elem_of_app, list_elem_of_singleton, <- Hdom, lookup_insert.
      case_decide; [subst; split; eauto|]. split; [by left|]. by intros [?|?].
    + intros i n Hn. destruct (decide (i < length (packet_order self))%nat) as [Hi|Hi].
      * rewrite lookup_app_l in Hn by done.
        destruct (Hlay i n Hn) as (g & Hg & Hpos' & Hmsb' & Hlsb').
        assert (n <> name) as Hne.
        { intros ->. apply Hnin. by eapply list_elem_of_lookup_2. }
        exists g. rewrite lookup_insert_ne by done. split_and!; [done..| |done].
        rewrite take_app_le by lia. rewrite total_bits_insert; [done|].
        intros (j & Hj & _)%elem_of_take. apply Hnin. by eapply list_elem_of_lookup_2.
      * assert (i = length (packet_order self)) as ->.
        { apply lookup_lt_Some in Hn. rewrite length_app in Hn. cbn in Hn. lia. }
        rewrite lookup_app_r, Nat.sub_diag in Hn by done. injection Hn as <-.
        exists added. rewrite lookup_insert_eq. split_and!; [done..| |done].
        rewrite take_app_length. by rewrite total_bits_insert.
Qed.

End protocol_layout.


Section protocol_use.
Import protocol.

Lemma new_laid_out : laid_out new.
Proof.
  split; cbn.
  - constructor.
  - intros name. rewrite lookup_empty. split; [by intros [? ?]|by intros ?%elem_of_nil].
  - by intros i name ?.
Qed.

Lemma declare_from calls : forall self self',
  laid_out self -> declare calls self = Ret self' ->
  laid_out self' /\
  forall name, name ∈ packet_order self' <->
    name ∈ packet_order self \/ name ∈ calls.*1.*1.
Proof.
  induction calls as [|[[name ty] blen] calls IH]; intros self self' Hlaid; cbn.
  - intros [= <-]. split; [done|]. intros name. split; [by left|].
    by intros [?|?%elem_of_nil].
  - destruct (update_packet_field self name ty blen) as [self1|e] eqn:Hupd; [|done]. cbn.
    intros Hrest.
    destruct (update_packet_field_laid_out _ _ _ _ _ Hlaid Hupd) as (Hlaid1 & Horder & _).
    destruct (IH _ _ Hlaid1 Hrest) as [Hlaid' Hnames]. split; [done|].
    intros n. rewrite Hnames, Horder, elem_of_cons. case_decide as Hin.
    + split; [intros [?|?]; eauto|]. intros [?|[->|?]]; eauto.
    + rewrite elem_of_app, list_elem_of_singleton. naive_solver.
Qed.

(** X13: a protocol made from an empty one by [update_packet_field] calls,
    none of which raised, has a consistent layout: [packet_format] holds the
    fields of [packet_order], each once; the position of a field is its index
    in [packet_order]; its ["msb"] is the number of bits the fields before it
    take and its ["lsb"] is ["msb"] plus its ["bitlen"], so the fields follow
    each other without gap or overlap; and the fields are those the calls
    named. *)
Theorem declared_protocol_laid_out calls self :
  declare calls new = Ret self ->
  laid_out self /\
  forall name, name ∈ packet_order self <-> name ∈ calls.*1.*1.
Proof.
  intros Hdecl. destruct (declare_from _ _ _ new_laid_out Hdecl) as [Hlaid Hnames].
  split; [done|]. intros name. rewrite Hnames. cbn. split; [|by right].
  by intros [?%elem_of_nil|?].
Qed.

(** X14: on a protocol made by [update_packet_field] calls, a further call
    raises [ValueError] for a type other than ["int"], ["fixed"] and
    ["float"]; with one of these types it returns for a new field and for
    the first field of [packet_order], and raises [NameError] for any other
    field the protocol has: such a field cannot be updated. *)
Theorem update_packet_field_outcome calls self name ty blen :
  declare calls new = Ret self ->
  ((ty <> "int"%string /\ ty <> "fixed"%string /\ ty <> "float"%string) ->
   update_packet_field self name ty blen = Raise ValueError) /\
  ((ty = "int"%string \/ ty = "fixed"%string \/ ty = "float"%string) ->
   (name ∈ packet_order self -> head (packet_order self) <> Some name ->
    update_packet_field self name ty blen = Raise NameError) /\
   (name ∉ packet_order self \/ head (packet_order self) = Some name ->
    exists self', update_packet_field self name ty blen = Ret self')).
Proof.
  intros Hdecl. destruct (declare_from _ _ _ new_laid_out Hdecl) as [Hlaid _].
  pose proof Hlaid as [Hnd Hdom Hlay].
  unfold update_packet_field. split.
  - intros Hty. by rewrite decide_True.
  - intros Hty. rewrite decide_False by naive_solver. split.
    + intros Hin Hhead. destruct (proj2 (Hdom name) Hin) as [old Hold]. rewrite Hold.
      destruct (index_elem _ _ Hin) as [idx Hidx]. rewrite Hidx. cbn [mbind res_bind].
      pose proof (index_Ret _ _ _ Hidx) as Hat.
      destruct idx as [|idx]; [by destruct Hhead; apply (index_head _ _ _ Hidx)|].
      rewrite decide_False by lia.
      unfold getname. replace (Z.to_nat (Z.of_nat (S idx) - 1)) with idx by lia.
      destruct (lookup_lt_is_Some_2 (packet_order self) idx) as [prev Hprev].
      { apply lookup_lt_Some in Hat. lia. }
      rewrite Hprev. cbn [mbind res_bind].
      destruct (proj2 (Hdom prev)) as [f Hf]; [by eapply list_elem_of_lookup_2|].
      unfold getfield. by rewrite Hf.
    + intros [Hnin|Hhead].
      * destruct (packet_format self !! name) as [old|] eqn:Hold;
          [destruct Hnin; apply Hdom; eauto|].
        rewrite (append_offset _ Hlaid). cbn. eauto.
      * assert (name ∈ packet_order self) as Hin.
        { destruct (packet_order self); [done|]. injection Hhead as ->.
          apply list_elem_of_here. }
        destruct (proj2 (Hdom name) Hin) as [old Hold]. rewrite Hold.
        destruct (index_elem _ _ Hin) as [idx Hidx]. rewrite Hidx. cbn [mbind res_bind].
        apply (index_head _ _ _ Hidx) in Hhead as ->.
        change (Z.of_nat 0 - 1) with (-1). rewrite decide_True by lia.
        change (-1 + 1) with 0. change (Z.to_nat (-1 + 2)) with 1%nat.
        cbn [mbind res_bind]. unfold getfield. rewrite Hold. cbn [mbind res_bind].
        case_decide as Hlen; [|eauto].
        destruct (packet_order self) as [|n0 rest] eqn:Horder; [done|].
        apply index_Ret in Hidx. injection Hidx as ->. cbn [drop]. rewrite drop_0.
        apply NoDup_cons in Hnd as Hnd'. destruct Hnd' as [Hname Hrest].
        destruct (adjust_loop rest [name]
                    (<[name := {| type := ty; position := 0; bitlen := blen;
                                  lsb := 0 + blen; msb := 0 |}]> (packet_format self))
                    (0 + blen)) as (d' & Hloop & _).
        { done. }
        { intros n Hn. rewrite lookup_insert_ne by (by intros ->).
          apply Hdom. by apply list_elem_of_further. }
        { cbn. rewrite lookup_insert_eq. cbn. lia. }
        rewrite Hloop. cbn. eauto.
Qed.

(** *** Packets *)

Lemma remove_elem x l y : NoDup l -> y ∈ remove x l <-> y ∈ l /\ y <> x.
Proof.
  induction 1 as [|z l Hz Hnd IH]; cbn.
  - split; [by intros ?%elem_of_nil|by intros [?%elem_of_nil _]].
  - case_decide as Hzx.
    + subst z. rewrite elem_of_cons. split; [|naive_solver].
      intros Hy. split; [by right|]. by intros ->.
    + rewrite !elem_of_cons, IH. naive_solver.
Qed.

Lemma remove_NoDup x l : NoDup l -> NoDup (remove x l).
Proof.
  induction 1 as [|z l Hz Hnd IH]; cbn; [constructor|].
  case_decide; [done|]. constructor; [|done].
  intros Hin. apply (remove_elem x l z Hnd) in Hin as [? _]. done.
Qed.

(** The two loops of [newpacket] that fill in values. *)
Lemma fill_loop (kvs : list (string * Z)) : forall (pkt : packet) fl,
  NoDup fl -> NoDup kvs.*1 ->
  let st' := foldl (fun st kv => fill st kv.1 kv.2) (pkt, fl) kvs in
  NoDup st'.2 /\
  (forall f, f ∈ st'.2 <-> f ∈ fl /\ (list_to_map kvs : gmap string Z) !! f = None) /\
  (forall f, st'.1 !! f =
     match (list_to_map kvs : gmap string Z) !! f with
     | Some v => if decide (f ∈ fl) then Some v else pkt !! f
     | None => pkt !! f
     end).
Proof.
  unfold packet.
  induction kvs as [|[k v] kvs IH]; intros pkt fl Hfl Hkeys; cbn.
  - split_and!; [done| |done]. intros f. rewrite lookup_empty. naive_solver.
  - apply NoDup_cons in Hkeys as [Hk Hkeys].
    assert ((list_to_map kvs : gmap string Z) !! k = None) as Hknone
      by (by apply not_elem_of_list_to_map).
    unfold fill at 2. destruct (decide (k ∈ fl)) as [Hin|Hin].
    + destruct (IH (<[k := v]> pkt) (remove k fl) (remove_NoDup _ _ Hfl) Hkeys)
        as (Hnd & Hmem & Hval).
      split_and!; [done| |].
      * intros f. rewrite Hmem, (remove_elem _ _ _ Hfl).
        destruct (decide (k = f)) as [<-|Hkf];
          [rewrite lookup_insert_eq|rewrite lookup_insert_ne by done]; naive_solver.
      * intros f. rewrite Hval. destruct (decide (k = f)) as [<-|Hkf].
        -- rewrite Hknone, !lookup_insert_eq. by case_decide.
        -- rewrite !lookup_insert_ne by done.
           destruct (list_to_map kvs !! f); [|done].
           destruct (decide (f ∈ fl)) as [Hffl|Hffl].
           ++ rewrite decide_True; [done|]. by apply remove_elem.
           ++ rewrite decide_False; [done|]. by intros [? _]%remove_elem.
    + destruct (IH pkt fl Hfl Hkeys) as (Hnd & Hmem & Hval).
      split_and!; [done| |].
      * intros f. rewrite Hmem.
        destruct (decide (k = f)) as [<-|Hkf];
          [rewrite lookup_insert_eq|rewrite lookup_insert_ne by done]; naive_solver.
      * intros f. rewrite Hval. destruct (decide (k = f)) as [<-|Hkf].
        -- rewrite Hknone, lookup_insert_eq. by case_decide.
        -- by rewrite lookup_insert_ne.
Qed.

Lemma fill_args_zip self args : forall fidx st,
  (fidx <= length (packet_order self))%nat ->
  fill_args self fidx args st =
    if decide (fidx + length args <= length (packet_order self))%nat
    then Ret (foldl (fun st kv => fill st kv.1 kv.2) st
                    (zip (drop fidx (packet_order self)) args))
    else Raise IndexError.
Proof.
  induction args as [|v args IH]; intros fidx st Hidx; cbn [fill_args length].
  - rewrite decide_True by lia. by rewrite zip_with_nil_r.
  - unfold getname. destruct (packet_order self !! fidx) as [fkey|] eqn:Hkey.
    + cbn [mbind res_bind]. pose proof (lookup_lt_Some _ _ _ Hkey) as Hlt.
      rewrite IH by lia. rewrite (drop_S _ _ _ Hkey). cbn [zip_with foldl].
      replace (S fidx + length args)%nat with (fidx + S (length args))%nat by lia.
      done.
    + apply lookup_ge_None in Hkey. by rewrite decide_False by lia.
Qed.

Lemma zip_keys (order : list string) : forall (args : list Z),
  NoDup order -> NoDup (zip order args).*1.
Proof.
  induction order as [|k order IH]; intros args Hnd; [constructor|].
  destruct args as [|v args]; [constructor|]. cbn.
  apply NoDup_cons in Hnd as [Hk Hnd]. constructor; [|by apply IH].
  intros Hin. apply Hk. clear -Hin. revert args Hin.
  induction order as [|k' order IH']; intros [|v' args]; cbn; try by intros ?%elem_of_nil.
  intros [->|Hin]%elem_of_cons; [apply list_elem_of_here|].
  apply list_elem_of_further. by eapply IH'.
Qed.

Lemma zip_lookup (order : list string) : forall (args : list Z) i f,
  NoDup order -> order !! i = Some f ->
  (list_to_map (zip order args) : gmap string Z) !! f = args !! i.
Proof.
  induction order as [|k order IH]; intros args i f Hnd Hi; [done|].
  apply NoDup_cons in Hnd as [Hk Hnd].
  destruct args as [|v args]; [by rewrite lookup_nil|].
  destruct i as [|i]; cbn.
  - injection Hi as ->. apply lookup_insert_eq.
  - cbn in Hi. rewrite lookup_insert_ne; [by apply IH|].
    intros ->. apply Hk. by eapply list_elem_of_lookup_2.
Qed.

(** The packet and the fields left when the two loops are over. *)
Lemma newpacket_filled self args (kwargs : gmap string Z) :
  NoDup (packet_order self) ->
  (length args <= length (packet_order self))%nat ->
  exists (pkt : packet) fl,
    fill_args self 0 args
      (foldl (fun (st : packet * list string) (kv : string * Z) => fill st kv.1 kv.2)
             (∅, packet_order self) (map_to_list kwargs))
      = Ret (pkt, fl) /\
    NoDup fl /\
    (forall f, f ∈ fl <->
       exists i, packet_order self !! i = Some f /\ kwargs !! f = None /\ args !! i = None) /\
    (forall f, f ∉ packet_order self -> pkt !! f = None) /\
    (forall i f, packet_order self !! i = Some f ->
       pkt !! f = match kwargs !! f with Some v => Some v | None => args !! i end).
Proof.
  intros Hnd Hlen.
  rewrite fill_args_zip by lia. rewrite decide_True by lia. rewrite drop_0.
  destruct (fill_loop (map_to_list kwargs) ∅ (packet_order self) Hnd
              (NoDup_fst_map_to_list kwargs)) as (Hnd1 & Hmem1 & Hval1).
  rewrite list_to_map_to_list in Hmem1, Hval1.
  destruct (foldl _ (∅, packet_order self) (map_to_list kwargs)) as [pkt1 fl1].
  cbn in Hnd1, Hmem1, Hval1.
  destruct (fill_loop (zip (packet_order self) args) pkt1 fl1 Hnd1 (zip_keys _ _ Hnd))
    as (Hnd2 & Hmem2 & Hval2).
  destruct (foldl _ (pkt1, fl1) _) as [pkt2 fl2]. cbn in Hnd2, Hmem2, Hval2.
  exists pkt2, fl2. unfold packet in *. split_and!; [done|done| | |].
  - intros f. rewrite Hmem2, Hmem1. split.
    + intros [[(i & Hi)%list_elem_of_lookup Hkw] Hzip].
      exists i. by rewrite <- (zip_lookup _ args _ _ Hnd Hi).
    + intros (i & Hi & Hkw & Harg). split_and!; [by eapply list_elem_of_lookup_2|done|].
      by rewrite (zip_lookup _ args _ _ Hnd Hi).
  - intros f Hf. rewrite Hval2, Hval1, lookup_empty.
    pose proof (Hmem1 f) as Hm.
    destruct (list_to_map _ !! f), (kwargs !! f); repeat case_decide; naive_solver.
  - intros i f Hi. rewrite Hval2, Hval1, (zip_lookup _ args _ _ Hnd Hi), lookup_empty.
    assert (f ∈ packet_order self) as Hf by (by eapply list_elem_of_lookup_2).
    pose proof (Hmem1 f) as Hm.
    destruct (kwargs !! f) as [v|] eqn:Hkw, (args !! i); repeat case_decide; naive_solver.
Qed.

Lemma zero_loop (fl : list string) : forall (pkt : packet) f,
  foldl (fun (retpacket : packet) fkey => <[fkey := 0]> retpacket) pkt fl !! f =
    if decide (f ∈ fl) then Some 0 else pkt !! f.
Proof.
  unfold packet. induction fl as [|k fl IH]; intros pkt f; cbn; [done|].
  rewrite IH. destruct (decide (f ∈ fl)) as [Hin|Hnin].
  - rewrite decide_True; [done|]. by apply list_elem_of_further.
  - rewrite lookup_insert. case_decide as Hk.
    + subst. rewrite decide_True; [done|]. apply list_elem_of_here.
    + rewrite decide_False; [done|]. by intros [->|?]%elem_of_cons.
Qed.

(** X15: for a protocol whose field names are distinct and no more nameless
    arguments than fields, [newpacket] with [zerodefault] true returns a
    packet with exactly the fields of [packet_order]; the value of a field is
    the named argument of that name when there is one, else the nameless
    argument at the field's index when there is one, else 0. *)
Theorem newpacket_fields self args (kwargs : gmap string Z) :
  NoDup (packet_order self) ->
  (length args <= length (packet_order self))%nat ->
  exists pkt : packet,
    newpacket self true args kwargs = Ret pkt /\
    (forall f, f ∉ packet_order self -> pkt !! f = None) /\
    (forall i f, packet_order self !! i = Some f ->
       pkt !! f = Some (default (default 0 (args !! i)) (kwargs !! f))).
Proof.
  intros Hnd Hlen. unfold newpacket.
  destruct (newpacket_filled self args kwargs Hnd Hlen)
    as (pkt & fl & -> & Hfl & Hmem & Hout & Hval).
  cbn [mbind res_bind]. case_decide as Hleft.
  - eexists. split; [done|]. split.
    + intros f Hf. rewrite zero_loop, decide_False; [by apply Hout|].
      intros (i & Hi & _)%Hmem. apply Hf. by eapply list_elem_of_lookup_2.
    + intros i f Hi. rewrite zero_loop, (Hval i f Hi).
      destruct (kwargs !! f) as [v|] eqn:Hkw.
      * rewrite decide_False; [done|]. intros (j & _ & ? & _)%Hmem. congruence.
      * destruct (args !! i) as [v|] eqn:Harg.
        -- rewrite decide_False; [done|]. intros (j & Hj & _ & Hargj)%Hmem.
           pose proof (NoDup_lookup _ j i f Hnd Hj Hi). congruence.
        -- rewrite decide_True; [done|]. apply Hmem. eauto.
  - exists pkt. split; [done|]. split; [done|].
    intros i f Hi. rewrite (Hval i f Hi).
    destruct (kwargs !! f) as [v|] eqn:Hkw; [done|].
    destruct (args !! i) as [v|] eqn:Harg; [done|].
    assert (f ∈ fl) as Hf by (apply Hmem; eauto).
    destruct fl; [by apply elem_of_nil in Hf|]. cbn in Hleft. lia.
Qed.

(** X16: [newpacket] raises [IndexError] when it is given more nameless
    arguments than the protocol has fields, whatever else it is given.  With
    distinct field names, no more nameless arguments than fields and
    [zerodefault] false, it raises [ValueError] when some field has neither a
    named argument nor a nameless one at its index, and returns what it
    returns with [zerodefault] true when every field has one. *)
Theorem newpacket_errors self zerodefault args (kwargs : gmap string Z) :
  ((length (packet_order self) < length args)%nat ->
   newpacket self zerodefault args kwargs = Raise IndexError) /\
  (NoDup (packet_order self) ->
   (length args <= length (packet_order self))%nat ->
   ((exists i f, packet_order self !! i = Some f /\
       kwargs !! f = None /\ args !! i = None) ->
    newpacket self false args kwargs = Raise ValueError) /\
   ((forall i f, packet_order self !! i = Some f ->
       is_Some (kwargs !! f) \/ is_Some (args !! i)) ->
    newpacket self false args kwargs = newpacket self true args kwargs)).
Proof.
  split.
  - intros Hlen. unfold newpacket. rewrite fill_args_zip by lia.
    by rewrite decide_False by lia.
  - intros Hnd Hlen. unfold newpacket.
    destruct (newpacket_filled self args kwargs Hnd Hlen)
      as (pkt & fl & -> & Hfl & Hmem & Hout & Hval).
    cbn [mbind res_bind]. split.
    + intros (i & f & Hi & Hkw & Harg).
      assert (f ∈ fl) as Hf by (apply Hmem; eauto).
      rewrite decide_True; [done|]. destruct fl; [by apply elem_of_nil in Hf|]. cbn. lia.
    + intros Hall. case_decide as Hleft; [exfalso|done].
      destruct fl as [|f fl]; [cbn in Hleft; lia|].
      destruct (proj1 (Hmem f)) as (i & Hi & Hkw & Harg); [apply list_elem_of_here|].
      destruct (Hall i f Hi) as [[? ?]|[? ?]]; congruence.
Qed.

End protocol_use.

(** ** Looking a router up by its address *)

Section lookup.
Import noc_base.
Variable G : noc.

(** X17: [get_router_by_address] returns a router of the graph that has the
    address asked for, the first one in [router_list()], and returns
    nothing exactly when no router of the graph has that address; when the
    routers have distinct addresses it returns the router whose address it
    is given. *)
Theorem get_router_by_address_spec a :
  match get_router_by_address G a with
  | Some r =>
      address G r = a /\
      exists before after, router_list G = before ++ r :: after /\
        forall x, x ∈ before -> address G x <> a
  | None => forall r, r ∈ router_list G -> address G r <> a
  end /\
  ((forall r1 r2, r1 ∈ router_list G -> r2 ∈ router_list G ->
      address G r1 = address G r2 -> r1 = r2) ->
   forall r, r ∈ router_list G -> address G r = a ->
     get_router_by_address G a = Some r).
Proof.
  unfold get_router_by_address. generalize (router_list G). intros l.
  assert (match head (filter (fun r => address G r = a) l) with
          | Some r =>
              address G r = a /\
              exists before after, l = before ++ r :: after /\
                forall x, x ∈ before -> address G x <> a
          | None => forall r, r ∈ l -> address G r <> a
          end) as Hspec.
  { induction l as [|x l IH]; [by intros r ?%elem_of_nil|].
    destruct (decide (address G x = a)) as [Hx|Hx].
    - rewrite filter_cons_True by done. cbn. split; [done|].
      exists [], l. split; [done|]. by intros y ?%elem_of_nil.
    - rewrite filter_cons_False by done.
      destruct (head (filter (fun r => address G r = a) l)) as [r|].
      + destruct IH as (Hr & before & after & -> & Hbefore). split; [done|].
        exists (x :: before), after. split; [done|].
        intros y [->|Hy]%elem_of_cons; [done|by apply Hbefore].
      + intros r [->|Hr]%elem_of_cons; [done|by apply IH]. }
  split; [done|]. intros Hinj r Hr Ha.
  destruct (head (filter (fun r => address G r = a) l)) as [r'|].
  - destruct Hspec as (Hr' & before & after & Hl & _). f_equal.
    apply Hinj; [|done|congruence].
    rewrite Hl. apply elem_of_app. right. apply list_elem_of_here.
  - by destruct (Hspec r Hr).
Qed.

End lookup.

(** ** The constructor of the router model *)

Section constructor.
Import basic_router_tlm.
Variable G : noc_base.noc.
Variable r : noc_base.node.

Lemma update_ports_info_loop_raises l : forall (ports : gmap noc_base.addr noc_base.port) updated,
  (exists n, n ∈ l /\ noc_base.edge_channel G (noc_base.address G r) n = None) ->
  foldlM (fun '(ports, updated_addr) neighborhash =>
            match noc_base.edge_channel G (noc_base.address G r) neighborhash with
            | None => Raised KeyError
            | Some ch_ref =>
                Done (<[noc_base.address G neighborhash :=
                          {| noc_base.peer := noc_base.ep_router neighborhash;
                             noc_base.channel := Some ch_ref |}]> ports,
                      updated_addr ++ [noc_base.address G neighborhash])
            end) l (ports, updated) = Raised KeyError.
Proof.
  induction l as [|n l IH]; intros ports updated (m & Hm & Hnone);
    [by apply elem_of_nil in Hm|].
  cbn. destruct (noc_base.edge_channel G (noc_base.address G r) n) as [ch|] eqn:Hch; [|done].
  cbn. apply IH. exists m. split; [|done].
  apply elem_of_cons in Hm as [->|Hm]; [congruence|done].
Qed.

(** What [update_ports_info] needs to return. *)
Lemma update_ports_info_total (ports : gmap noc_base.addr noc_base.port) :
  noc_base.address G r ∈ noc_base.nodes G ->
  (forall n, n ∈ noc_base.adj G (noc_base.address G r) ->
     is_Some (noc_base.edge_channel G (noc_base.address G r) n)) ->
  is_Some (noc_base.ipcore_ref G r) ->
  (forall k, is_Some (ports !! k) ->
     k = noc_base.address G r \/
     exists c, c ∈ noc_base.adj G (noc_base.address G r) /\ k = noc_base.address G c) ->
  exists ports', noc_base.update_ports_info G r ports = Done ports'.
Proof.
  intros Hnode Hch [ip Hip] Hkeys. rewrite update_ports_info_eq.
  rewrite decide_True by done.
  destruct (update_ports_info_loop_total G r _ ports [noc_base.address G r] Hch)
    as (ports1 & updated1 & Hloop).
  rewrite Hloop. cbn. rewrite Hip.
  apply update_ports_info_loop in Hloop as [-> Hk].
  rewrite decide_True; [eauto|].
  intros k p Hp. apply elem_of_cons.
  destruct (decide (k = noc_base.address G r)) as [->|Hne]; [by left|right].
  rewrite lookup_insert_ne in Hp by done.
  destruct (decide (k ∈ map (noc_base.address G) (noc_base.adj G (noc_base.address G r))))
    as [Hin|Hnin]; [done|].
  destruct (Hk k) as [Hout _]. rewrite (Hout Hnin) in Hp.
  destruct (Hkeys k) as [?|(c & Hc & ->)]; [eauto|done|].
  destruct Hnin. by apply list_elem_of_In, in_map, list_elem_of_In.
Qed.



End constructor.

(** ** The properties on the examples *)

Lemma mesh_reachable_0_3 : shortest.reachable mesh.G 0 3.
Proof. exists 2%nat. apply mesh_dist_0_3. Qed.

Lemma split_wf : noc_base.wf_noc examples.split.
Proof.
  split.
  - cbn. compute_done.
  - intros u v Hu Hv. cbn in Hu. mesh_cases Hu; vm_compute in Hv;
      mesh_cases Hv; mesh_member.
  - intros u v Hv. cbn in *. unfold mesh.pick in Hv.
    repeat (case_decide; [subst u; mesh_cases Hv; mesh_member|]).
    by apply elem_of_nil in Hv.
Qed.

Lemma split_unreachable : ~ shortest.reachable examples.split 0 2.
Proof.
  intros [k Hk].
  assert (forall u w k, noc_base.walk examples.split u w k -> u = 0 \/ u = 1 ->
            w = 0 \/ w = 1) as Hstay.
  { induction 1 as [v|u v w j Hv Hw IH]; [done|]. intros Hu. apply IH.
    destruct Hu as [->| ->]; vm_compute in Hv; mesh_cases Hv; auto. }
  destruct (Hstay _ _ _ Hk) as [?|?]; [by left|done..].
Qed.

Lemma all_shortest_paths_exact_witness :
  noc_base.all_shortest_paths 100 mesh.G 0 3 = Done [[0; 1; 3]; [0; 2; 3]] /\
  forall p, p ∈ [[0; 1; 3]; [0; 2; 3]] <-> shortest.shortest_path mesh.G 0 3 p.
Proof.
  assert (noc_base.all_shortest_paths 100 mesh.G 0 3 = Done [[0; 1; 3]; [0; 2; 3]]) as Hps
    by (vm_compute; reflexivity).
  split; [exact Hps|].
  apply (all_shortest_paths_exact mesh.G mesh_wf 100 0 3 _); [mesh_member|exact Hps].
Defined.

Lemma all_shortest_paths_reachable_witness :
  exists fuel0, forall fuel, (fuel0 <= fuel)%nat ->
    exists ps, noc_base.all_shortest_paths fuel examples.split 0 2 = Done ps /\
               (ps = [] <-> ~ shortest.reachable examples.split 0 2).
Proof.
  apply (all_shortest_paths_reachable examples.split split_wf 0 2). mesh_member.
Defined.

Lemma routes_info_destinations_witness :
  noc_base.update_routes_info 100 mesh.G 0 ∅ = Done mesh.table0 /\
  forall dest,
    (is_Some (mesh.table0 !! dest) <-> dest ∈ noc_base.nodes mesh.G /\ dest <> 0) /\
    (mesh.table0 !! dest = Some [] <->
       dest ∈ noc_base.nodes mesh.G /\ dest <> 0 /\ ~ shortest.reachable mesh.G 0 dest).
Proof.
  assert (noc_base.update_routes_info 100 mesh.G 0 ∅ = Done mesh.table0) as Htbl
    by (vm_compute; reflexivity).
  split; [exact Htbl|].
  apply (routes_info_destinations mesh.G mesh_wf 100 0 ∅ mesh.table0 Htbl).
Defined.

Lemma routes_info_next_hops_witness :
  mesh.table0 !! 3 = Some mesh.entries03 /\
  forall x, x ∈ map noc_base.next mesh.entries03 <->
    exists c d, c ∈ noc_base.adj mesh.G 0 /\ x = noc_base.address mesh.G c /\
      noc_base.shortest_dist mesh.G 0 3 (S d) /\ noc_base.shortest_dist mesh.G c 3 d.
Proof.
  assert (mesh.table0 !! 3 = Some mesh.entries03) as Hentries by (vm_compute; reflexivity).
  split; [exact Hentries|].
  apply (routes_info_next_hops mesh.G mesh_wf 100 0 ∅ mesh.table0 3 mesh.entries03);
    [vm_compute; reflexivity|exact Hentries].
Defined.

Lemma update_ports_info_ports_witness :
  noc_base.update_ports_info mesh.G 0 ∅ = Done examples.ports0 /\
  (forall k, is_Some (examples.ports0 !! k) <->
     k = 0 \/ exists c, c ∈ noc_base.adj mesh.G 0 /\ k = c) /\
  exists ip, noc_base.ipcore_ref mesh.G 0 = Some ip /\
    examples.ports0 !! 0 =
      Some {| noc_base.peer := noc_base.ep_ipcore ip;
              noc_base.channel := noc_base.ip_channel_ref ip |}.
Proof.
  assert (noc_base.update_ports_info mesh.G 0 ∅ = Done examples.ports0) as Hports
    by (vm_compute; reflexivity).
  split; [exact Hports|].
  destruct (update_ports_info_ports mesh.G 0 ∅ examples.ports0 Hports)
    as (Hkeys & _ & Hlocal & _).
  split; [exact Hkeys|exact Hlocal].
Defined.


Lemma ports_never_change_witness :
  exists ports',
    noc_base.update_ports_info mesh.G 0 ∅ = Done ports' /\
    (forall k, is_Some (basic_router_tlm.ports_info mesh.congested !! k) <->
       k = 0 \/ exists c, c ∈ noc_base.adj mesh.G 0 /\ k = c) /\
    forall k data, basic_router_tlm.ports_info mesh.congested !! k = Some data ->
      exists p, ports' !! k = Some p /\
        basic_router_tlm.peer data = noc_base.peer p /\
        basic_router_tlm.channel data = noc_base.channel p.
Proof.
  apply (ports_never_change mesh.neighbour 100 mesh.G 0 1 ∅ ∅ mesh.r0 0%nat
           mesh.congestion (basic_router_tlm.start mesh.congested 1%nat)).
  - vm_compute. reflexivity.
  - vm_compute. reflexivity.
Defined.

Lemma routing_reachable_destination_witness :
  exists self' c k,
    basic_router_tlm.routing_take
      (basic_router_tlm.tlm (examples.arrived mesh.r0 mesh.p0)) 0
      = Done (self', mesh.p0, noc_base.address mesh.G c) /\
    c ∈ noc_base.adj mesh.G 0 /\
    noc_base.shortest_dist mesh.G 0 3 (S k) /\ noc_base.shortest_dist mesh.G c 3 k /\
    exists self'' data'',
      basic_router_tlm.routing_put self' mesh.p0 (noc_base.address mesh.G c) = Done self'' /\
      basic_router_tlm.ports_info self'' !! noc_base.address mesh.G c = Some data'' /\
      last (basic_router_tlm.fifo_out data'') = Some mesh.p0.
Proof.
  apply (routing_reachable_destination mesh.neighbour 100 mesh.G 0 1 ∅ ∅ mesh.r0 0%nat
           (examples.arrival mesh.p0) (examples.arrived mesh.r0 mesh.p0) 0
           {| basic_router_tlm.peer := noc_base.ep_ipcore (mesh.ip 0);
              basic_router_tlm.channel := Some 10;
              basic_router_tlm.fifo_in := [mesh.p0];
              basic_router_tlm.fifo_out := [];
              basic_router_tlm.fifo_in_event := myhdl.set_next (myhdl.new false) true;
              basic_router_tlm.fifo_out_event := myhdl.new false |}
           mesh.p0 [] 3).
  - exact mesh_wf.
  - reflexivity.
  - vm_compute. reflexivity.
  - vm_compute. reflexivity.
  - vm_compute. reflexivity.
  - reflexivity.
  - vm_compute. reflexivity.
  - mesh_member.
  - discriminate.
  - exact mesh_reachable_0_3.
Defined.

Lemma routing_unroutable_witness :
  basic_router_tlm.routing_take
    (basic_router_tlm.tlm (examples.arrived examples.split_r0 examples.lost)) 0
    = Raised IndexError /\
  basic_router_tlm.routing_take
    (basic_router_tlm.tlm (examples.arrived examples.split_r0 examples.nowhere)) 0
    = Raised KeyError.
Proof.
  split.
  - destruct (routing_unroutable mesh.neighbour 100 examples.split 0 4 ∅ ∅
                examples.split_r0 0%nat (examples.arrival examples.lost)
                (examples.arrived examples.split_r0 examples.lost) 0
                {| basic_router_tlm.peer := noc_base.ep_ipcore (mesh.ip 0);
                   basic_router_tlm.channel := Some 10;
                   basic_router_tlm.fifo_in := [examples.lost];
                   basic_router_tlm.fifo_out := [];
                   basic_router_tlm.fifo_in_event := myhdl.set_next (myhdl.new false) true;
                   basic_router_tlm.fifo_out_event := myhdl.new false |}
                examples.lost []) as (_ & _ & Hlost).
    + exact split_wf.
    + reflexivity.
    + vm_compute. reflexivity.
    + vm_compute. reflexivity.
    + vm_compute. reflexivity.
    + reflexivity.
    + apply (Hlost 2).
      * vm_compute. reflexivity.
      * discriminate.
      * mesh_member.
      * exact split_unreachable.
  - destruct (routing_unroutable mesh.neighbour 100 examples.split 0 4 ∅ ∅
                examples.split_r0 0%nat (examples.arrival examples.nowhere)
                (examples.arrived examples.split_r0 examples.nowhere) 0
                {| basic_router_tlm.peer := noc_base.ep_ipcore (mesh.ip 0);
                   basic_router_tlm.channel := Some 10;
                   basic_router_tlm.fifo_in := [examples.nowhere];
                   basic_router_tlm.fifo_out := [];
                   basic_router_tlm.fifo_in_event := myhdl.set_next (myhdl.new false) true;
                   basic_router_tlm.fifo_out_event := myhdl.new false |}
                examples.nowhere []) as (_ & Hnowhere & _).
    + exact split_wf.
    + reflexivity.
    + vm_compute. reflexivity.
    + vm_compute. reflexivity.
    + vm_compute. reflexivity.
    + reflexivity.
    + apply (Hnowhere 9).
      * vm_compute. reflexivity.
      * discriminate.
      * intros Hin. apply list_elem_of_In in Hin. vm_compute in Hin.
        intuition discriminate.
Defined.

Lemma recv_from_channel_witness :
  basic_router_tlm.recv mesh.r0 (PyChannel 10) (PyRouter 0) mesh.p0 None
    = basic_router_tlm.recv mesh.r0 (PyRouter 0) (PyRouter 0) mesh.p0 None /\
  basic_router_tlm.recv mesh.r0 (PyChannel 0) (PyRouter 0) mesh.p0 None
    = basic_router_tlm.recv mesh.r0 (PyRouter 1) (PyRouter 0) mesh.p0 None.
Proof.
  split.
  - destruct (recv_from_channel mesh.r0 10 (noc_base.ep_router 0)
                (noc_base.ep_ipcore (mesh.ip 0)) (PyRouter 0) mesh.p0 None) as [Hother _].
    + vm_compute. reflexivity.
    + apply Hother. left. reflexivity.
  - destruct (recv_from_channel mesh.r0 0 (noc_base.ep_router 0)
                (noc_base.ep_router 1) (PyRouter 0) mesh.p0 None) as [Hother _].
    + vm_compute. reflexivity.
    + apply Hother. left. reflexivity.
Defined.

Lemma self_route_witness :
  exists self' self'' before local,
    basic_router_tlm.routing_take (basic_router_tlm.tlm examples.at_home) 1
      = Done (self', examples.home, 0) /\
    basic_router_tlm.ports_info self' !! 0 = Some before /\
    basic_router_tlm.routing_put self' examples.home 0 = Done self'' /\
    basic_router_tlm.ports_info self'' !! 0 = Some local /\
    basic_router_tlm.peer local = noc_base.ep_ipcore (mesh.ip 0) /\
    basic_router_tlm.fifo_out local = basic_router_tlm.fifo_out before ++ [examples.home].
Proof.
  destruct (self_route mesh.neighbour 100 mesh.G 0 1 ∅ ∅ mesh.r0) as (_ & _ & _ & Hrun).
  { vm_compute. reflexivity. }
  destruct (Hrun 0%nat examples.homecoming examples.at_home) as (_ & _ & Hroute).
  { vm_compute. reflexivity. }
  destruct (Hroute 1
              {| basic_router_tlm.peer := noc_base.ep_router 1;
                 basic_router_tlm.channel := Some 0;
                 basic_router_tlm.fifo_in := [examples.home];
                 basic_router_tlm.fifo_out := [];
                 basic_router_tlm.fifo_in_event := myhdl.set_next (myhdl.new false) true;
                 basic_router_tlm.fifo_out_event := myhdl.new false |}
              examples.home [])
    as (self' & self'' & before & local & ip & Ht & Hb & Hp & Hl & Hip & Hpeer & _ & Hout & _).
  { vm_compute. reflexivity. }
  { reflexivity. }
  { vm_compute. reflexivity. }
  exists self', self'', before, local. split_and!; [exact Ht|exact Hb|exact Hp|exact Hl| |exact Hout].
  rewrite Hpeer. vm_compute in Hip. injection Hip as <-. reflexivity.
Defined.


Lemma held_were_received_witness :
  router_sim.held (basic_router_tlm.start mesh.congested 1%nat)
    ⊆ router_sim.offered mesh.congestion.
Proof.
  apply (held_were_received mesh.neighbour 100 mesh.G 0 1 ∅ ∅ mesh.r0 0%nat).
  - vm_compute. reflexivity.
  - vm_compute. reflexivity.
Defined.

Lemma header_declared : protocol.declare examples.header_calls protocol.new = protocol.Ret examples.header.
Proof. vm_compute. reflexivity. Qed.

Lemma declared_protocol_laid_out_witness :
  protocol.laid_out examples.header /\
  forall name, name ∈ protocol.packet_order examples.header <->
    name ∈ examples.header_calls.*1.*1.
Proof.
  apply (declared_protocol_laid_out examples.header_calls examples.header).
  exact header_declared.
Defined.

Lemma update_packet_field_outcome_witness :
  protocol.update_packet_field examples.header "dst" "int" 4 = protocol.Raise protocol.NameError /\
  exists self', protocol.update_packet_field examples.header "src" "int" 4 = protocol.Ret self'.
Proof.
  split.
  - destruct (update_packet_field_outcome examples.header_calls examples.header
                "dst" "int" 4 header_declared) as [_ Hvalid].
    destruct Hvalid as [Hname _]; [by left|]. apply Hname.
    + vm_compute. mesh_member.
    + vm_compute. discriminate.
  - destruct (update_packet_field_outcome examples.header_calls examples.header
                "src" "int" 4 header_declared) as [_ Hvalid].
    destruct Hvalid as [_ Hret]; [by left|]. apply Hret. right. vm_compute. reflexivity.
Defined.

Lemma newpacket_fields_witness :
  exists pkt : packet,
    protocol.newpacket examples.header true [1] {[ "dst"%string := 3 ]} = protocol.Ret pkt /\
    (forall f, f ∉ protocol.packet_order examples.header -> pkt !! f = None) /\
    (forall i f, protocol.packet_order examples.header !! i = Some f ->
       pkt !! f = Some (default (default 0 ([1] !! i))
                          (({[ "dst"%string := 3 ]} : gmap string Z) !! f))).
Proof.
  apply (newpacket_fields examples.header [1] {[ "dst"%string := 3 ]}).
  - vm_compute. compute_done.
  - vm_compute. lia.
Defined.



Lemma newpacket_errors_witness :
  protocol.newpacket examples.header true [1; 2; 3; 4] ∅ = protocol.Raise protocol.IndexError /\
  protocol.newpacket examples.header false [1] {[ "dst"%string := 3 ]}
    = protocol.Raise protocol.ValueError.
Proof.
  split.
  - destruct (newpacket_errors examples.header true [1; 2; 3; 4] ∅) as [Hmany _].
    apply Hmany. vm_compute. lia.
  - destruct (newpacket_errors examples.header false [1] {[ "dst"%string := 3 ]})
      as [_ Hfew].
    destruct Hfew as [Hmissing _].
    + vm_compute. compute_done.
    + vm_compute. lia.
    + apply Hmissing. exists 2%nat, "data"%string.
      split_and!; vm_compute; reflexivity.
Defined.



(** ** The paths of a routing entry *)

Section entry_paths.
Import noc_base shortest.
Variable G : noc.
Hypothesis G_wf : wf_noc G.

(** X20: in the table [update_routes_info] builds at [self], the ["paths"]
    of an entry of a destination are exactly the shortest paths from [self]
    to the destination, written with addresses, whose second router has the
    entry's ["next"] address; and every shortest path to the destination is
    in the ["paths"] of one of the entries. *)
Theorem routes_info_paths fuel self prior tbl dest entries :
  update_routes_info fuel G self prior = Done tbl ->
  tbl !! dest = Some entries ->
  (forall e route, e ∈ entries ->
     route ∈ paths e <->
       second route = Some (next e) /\
       exists p, shortest_path G self dest p /\ route = map (address G) p) /\
  (forall p, shortest_path G self dest p ->
     exists e, e ∈ entries /\ map (address G) p ∈ paths e).
Proof.
  intros Hupd He.
  destruct (update_routes_info_lookup _ _ _ _ _ _ _ Hupd He) as (Hin & Hne & Hto).
  destruct (routes_to_shortest G G_wf _ _ _ _ Hin Hto)
    as (routes & Hsp & _ & Hsec & Hnext & Hpaths).
  rewrite Forall_forall in Hpaths. rewrite Forall_forall in Hsec.
  assert (forall route, route ∈ map (map (address G)) routes <->
            exists p, shortest_path G self dest p /\ route = map (address G) p) as Hroutes.
  { intros route. split.
    - intros (p & <- & Hp%list_elem_of_In)%list_elem_of_In%in_map_iff.
      exists p. split; [by apply Hsp|done].
    - intros (p & Hp & ->). by apply list_elem_of_In, in_map, list_elem_of_In, Hsp. }
  split.
  - intros e route Hentry. rewrite (Hpaths e Hentry), list_elem_of_filter, Hroutes. done.
  - intros p Hp.
    assert (map (address G) p ∈ map (map (address G)) routes) as Hroute
      by (apply Hroutes; eauto).
    destruct (Hsec _ Hroute) as [x Hx].
    assert (x ∈ map next entries) as Hx'.
    { rewrite Hnext. apply first_occurrences_elem, list_elem_of_omap. eauto. }
    apply list_elem_of_In, in_map_iff in Hx' as (e & <- & Hentry%list_elem_of_In).
    exists e. split; [done|]. rewrite (Hpaths e Hentry). by apply list_elem_of_filter.
Qed.

End entry_paths.

Lemma routes_info_paths_witness :
  mesh.table0 !! 3 = Some mesh.entries03 /\
  (forall e route, e ∈ mesh.entries03 ->
     route ∈ noc_base.paths e <->
       noc_base.second route = Some (noc_base.next e) /\
       exists p, shortest.shortest_path mesh.G 0 3 p /\
                 route = map (noc_base.address mesh.G) p) /\
  (forall p, shortest.shortest_path mesh.G 0 3 p ->
     exists e, e ∈ mesh.entries03 /\ map (noc_base.address mesh.G) p ∈ noc_base.paths e).
Proof.
  assert (mesh.table0 !! 3 = Some mesh.entries03) as Hentries by (vm_compute; reflexivity).
  split; [exact Hentries|].
  apply (routes_info_paths mesh.G mesh_wf 100 0 ∅ mesh.table0 3 mesh.entries03);
    [vm_compute; reflexivity|exact Hentries].
Defined.


(** ** Every shortest path is listed once *)

Section paths_once.
Import noc_base shortest bfs_once.
Variable G : noc.
Hypothesis G_wf : wf_noc G.
Hypothesis adj_nodup : forall u, NoDup (adj G u).
Variable source : node.

Lemma bfs_visit_once L vdone v wdone st w :
  v ∉ vdone -> w ∉ wdone ->
  visit_inv L vdone v wdone st ->
  visit_inv L vdone v (wdone ++ [w]) (bfs_visit L v st w).
Proof.
  intros Hv Hw [Hpred Hfrom Hnext Hseen]. unfold bfs_visit.
  destruct (seen st !! w) as [j|] eqn:Hj; [case_decide as HjL|].
  - subst j. split; cbn.
    + intros x l. destruct (decide (x = w)) as [->|Hx].
      * rewrite lookup_alter_eq. destruct (pred st !! w) as [l0|] eqn:Hl0; [|done].
        cbn. intros [= <-]. apply NoDup_app. split_and!; [by eapply Hpred| |apply NoDup_singleton].
        intros y Hy ->%list_elem_of_singleton.
        destruct (Hfrom w l0 v Hl0 Hj Hy) as [?|[_ ?]]; done.
      * rewrite lookup_alter_ne by done. apply Hpred.
    + intros x l y. destruct (decide (x = w)) as [->|Hx].
      * rewrite lookup_alter_eq. destruct (pred st !! w) as [l0|] eqn:Hl0; [|done].
        cbn. intros [= <-] _ [Hy| ->%list_elem_of_singleton]%elem_of_app.
        -- destruct (Hfrom w l0 y Hl0 Hj Hy) as [?|[-> ?]]; [by left|right].
           split; [done|]. apply elem_of_app. by left.
        -- right. split; [done|]. apply elem_of_app. right. apply list_elem_of_here.
      * rewrite lookup_alter_ne by done. intros Hl Hs Hy.
        destruct (Hfrom x l y Hl Hs Hy) as [?|[-> ?]]; [by left|right].
        split; [done|]. apply elem_of_app. by left.
    + done.
    + done.
  - split; [done| |done|done].
    intros x l y Hl Hs Hy. destruct (Hfrom x l y Hl Hs Hy) as [?|[-> ?]]; [by left|right].
    split; [done|]. apply elem_of_app. by left.
  - split; cbn.
    + intros x l. rewrite lookup_insert. case_decide.
      * intros [= <-]. apply NoDup_singleton.
      * apply Hpred.
    + intros x l y. destruct (decide (w = x)) as [<-|Hx].
      * rewrite lookup_insert_eq. intros [= <-] _ ->%list_elem_of_singleton.
        right. split; [done|]. apply elem_of_app. right. apply list_elem_of_here.
      * rewrite !lookup_insert_ne by done. intros Hl Hs Hy.
        destruct (Hfrom x l y Hl Hs Hy) as [?|[-> ?]]; [by left|right].
        split; [done|]. apply elem_of_app. by left.
    + apply NoDup_app. split_and!; [done| |apply NoDup_singleton].
      intros x Hx ->%list_elem_of_singleton. apply Hseen in Hx as [? ?]. congruence.
    + intros x [Hx| ->%list_elem_of_singleton]%elem_of_app.
      * rewrite lookup_insert. case_decide; [eauto|by apply Hseen].
      * rewrite lookup_insert_eq. eauto.
Qed.

Lemma bfs_expand_once L vdone v ws : forall wdone st,
  v ∉ vdone -> NoDup (wdone ++ ws) ->
  visit_inv L vdone v wdone st ->
  visit_inv L vdone v (wdone ++ ws) (fold_left (bfs_visit L v) ws st).
Proof.
  induction ws as [|w ws IH]; intros wdone st Hv Hnd Hinv; cbn.
  - by rewrite app_nil_r.
  - rewrite (assoc_L (++) wdone [w] ws : wdone ++ w :: ws = (wdone ++ [w]) ++ ws) in *.
    apply IH; [done|done|].
    apply bfs_visit_once; [done| |done].
    apply NoDup_app in Hnd as (Hnd & _ & _). apply NoDup_app in Hnd as (_ & Hdisj & _).
    intros Hw. apply (Hdisj w Hw). apply list_elem_of_here.
Qed.

Lemma bfs_expand_all_once L vs : forall vdone st,
  NoDup (vdone ++ vs) ->
  visit_inv L vdone source [] st ->
  visit_inv L (vdone ++ vs) source []
    (fold_left (fun st v => fold_left (bfs_visit L v) (adj G v) st) vs st).
Proof.
  induction vs as [|v vs IH]; intros vdone st Hnd Hinv; cbn.
  - by rewrite app_nil_r.
  - rewrite (assoc_L (++) vdone [v] vs : vdone ++ v :: vs = (vdone ++ [v]) ++ vs) in *.
    apply IH; [done|].
    assert (v ∉ vdone) as Hv.
    { apply NoDup_app in Hnd as (Hnd & _ & _). apply NoDup_app in Hnd as (_ & Hdisj & _).
      intros Hv. apply (Hdisj v Hv). apply list_elem_of_here. }
    assert (visit_inv L vdone v [] st) as Hstart.
    { destruct Hinv as [Hpred Hfrom Hnext Hseen]. split; [done| |done|done].
      intros x l y Hl Hs Hy. destruct (Hfrom x l y Hl Hs Hy) as [?|[_ ?%elem_of_nil]]; by left. }
    destruct (bfs_expand_once L vdone v (adj G v) [] st Hv (adj_nodup v) Hstart)
      as [Hpred Hfrom Hnext Hseen].
    split; [done| |done|done].
    intros x l y Hl Hs Hy. left. apply elem_of_app.
    destruct (Hfrom x l y Hl Hs Hy) as [?|[-> _]]; [by left|right]. apply list_elem_of_here.
Qed.

Lemma bfs_level_once level st :
  bfs_inv G source level st ->
  (forall x l, pred st !! x = Some l -> NoDup l) -> NoDup (nextlevel st) ->
  (forall x l, pred (bfs_level G (S level) st) !! x = Some l -> NoDup l) /\
  NoDup (nextlevel (bfs_level G (S level) st)).
Proof.
  intros Hinv Hpred Hnext. unfold bfs_level.
  destruct (bfs_expand_all_once (S level) (nextlevel st) []
              {| seen := seen st; pred := pred st; nextlevel := [] |}) as [H1 _ H3 _];
    [done| |done].
  split; cbn; [done| |constructor|by intros x ?%elem_of_nil].
  intros x l y _ Hs _. apply (inv_level _ _ _ _ Hinv) in Hs. lia.
Qed.

Lemma bfs_loop_once fuel : forall level st preds,
  bfs_inv G source level st ->
  (forall x l, pred st !! x = Some l -> NoDup l) -> NoDup (nextlevel st) ->
  bfs_loop fuel G level st = Done preds ->
  forall x l, preds !! x = Some l -> NoDup l.
Proof.
  induction fuel as [|fuel IH]; intros level st preds Hinv Hpred Hnext; cbn.
  - destruct (nextlevel st); [|done]. by intros [= <-].
  - destruct (nextlevel st) as [|v vs] eqn:Hn; [by intros [= <-]|].
    rewrite <- Hn in *. intros Hloop.
    destruct (bfs_level_inv G G_wf source _ _ Hinv) as [Hinv' _].
    destruct (bfs_level_once _ _ Hinv Hpred Hnext) as [Hpred' Hnext'].
    by apply (IH _ _ _ Hinv' Hpred' Hnext' Hloop).
Qed.

Lemma predecessor_once fuel preds :
  predecessor fuel G source = Done preds ->
  forall x l, preds !! x = Some l -> NoDup l.
Proof.
  unfold predecessor. case_decide as Hs; [|done].
  apply (bfs_loop_once fuel 0 (bfs_init source)); [by apply bfs_init_inv| |].
  - intros x l. cbn. intros [<- <-]%lookup_singleton_Some. constructor.
  - apply NoDup_singleton.
Qed.

End paths_once.

Section enum_once.
Import noc_base shortest.

Lemma NoDup_flat_map {A B} (f : A -> list B) l :
  NoDup l -> (forall x, x ∈ l -> NoDup (f x)) ->
  (forall x y z, x ∈ l -> y ∈ l -> z ∈ f x -> z ∈ f y -> x = y) ->
  NoDup (flat_map f l).
Proof.
  induction 1 as [|x l Hx Hnd IH]; intros Hf Hdisj; cbn; [constructor|].
  apply NoDup_app. split_and!.
  - apply Hf, list_elem_of_here.
  - intros z Hz (y & Hy%list_elem_of_In & Hzy%list_elem_of_In)%list_elem_of_In%in_flat_map.
    apply Hx. rewrite (Hdisj x y z); [done|apply list_elem_of_here| |done|done].
    by apply list_elem_of_further.
  - apply IH.
    + intros y Hy. by apply Hf, list_elem_of_further.
    + intros y1 y2 z H1 H2. apply Hdisj; by apply list_elem_of_further.
Qed.

Lemma enum_paths_once preds b depth : forall n,
  (forall x l, preds !! x = Some l -> NoDup l) ->
  NoDup (enum_paths depth preds b n).
Proof.
  induction depth as [|depth IH]; intros n Hpreds; cbn; case_decide as Hn;
    try apply NoDup_singleton; [constructor|].
  apply NoDup_flat_map.
  - destruct (preds !! n) as [l|] eqn:Hl; [by eapply Hpreds|constructor].
  - intros c _. apply NoDup_fmap_2; [|by apply IH]. by intros p q [= ->].
  - intros c1 c2 z _ _
      (p1 & <- & Hp1%list_elem_of_In)%list_elem_of_In%in_map_iff
      (p2 & Heq & Hp2%list_elem_of_In)%list_elem_of_In%in_map_iff.
    injection Heq as ->.
    apply enum_paths_head in Hp1 as [q1 ->]. apply enum_paths_head in Hp2 as [q2 Hq].
    by injection Hq.
Qed.

(** X21: in a well-formed graph where no node is listed twice among the
    neighbours of a node, the list [all_shortest_paths(G, a, b)] returns for
    a node [b] of the graph repeats no path: each shortest path from [a] to
    [b] is listed once. *)
Theorem all_shortest_paths_once G fuel a b ps :
  wf_noc G -> (forall u, NoDup (adj G u)) -> b ∈ nodes G ->
  all_shortest_paths fuel G a b = Done ps ->
  NoDup ps /\ forall p, shortest_path G a b p -> p ∈ ps.
Proof.
  intros G_wf Hadj Hb Hps.
  destruct (all_shortest_paths_Done G G_wf _ _ _ _ Hb Hps)
    as (levels & preds & Ht & Hc & Hpred & ->).
  split.
  - destruct (levels !! a); [|constructor].
    apply enum_paths_once. by apply (predecessor_once G G_wf Hadj b _ _ Hpred).
  - intros p Hp. by apply (enum_paths_shortest G G_wf b levels preds Ht Hc).
Qed.

End enum_once.

Lemma all_shortest_paths_once_witness :
  NoDup [[0; 1; 3]; [0; 2; 3]] /\
  forall p, shortest.shortest_path mesh.G 0 3 p -> p ∈ [[0; 1; 3]; [0; 2; 3]].
Proof.
  apply (all_shortest_paths_once mesh.G 100 0 3 [[0; 1; 3]; [0; 2; 3]]).
  - exact mesh_wf.
  - intros u. cbn. unfold mesh.pick. repeat case_decide; compute_done.
  - mesh_member.
  - vm_compute. reflexivity.
Defined.

(** ** The routing table and the iteration orders of the graph *)

Section iteration_order.
Import noc_base shortest.

Lemma same_topology_sym G G' : same_topology G G' -> same_topology G' G.
Proof. intros (Hn & Ha & Haddr). by split_and!. Qed.

Lemma same_topology_wf G G' : same_topology G G' -> wf_noc G -> wf_noc G'.
Proof.
  intros (Hn & Ha & Haddr) [Hnd Hcl Hsym]. split.
  - by rewrite <- Hn.
  - intros u v. rewrite <- Hn, <- (Ha u). apply Hcl.
  - intros u v. rewrite <- (Ha u), <- (Ha v). apply Hsym.
Qed.

Lemma same_topology_walk G G' a b k : same_topology G G' -> walk G a b k -> walk G' a b k.
Proof.
  intros (_ & Ha & _). induction 1 as [|u v w k Hv _ IH]; [apply walk_O|].
  apply (walk_S _ u v); [by rewrite <- (Ha u)|done].
Qed.

Lemma same_topology_is_path G G' p : same_topology G G' -> is_path G p -> is_path G' p.
Proof.
  intros (_ & Ha & _). induction p as [|u [|v q] IH]; [done..|].
  intros [Hv Hq]. split; [by rewrite <- (Ha u)|by apply IH].
Qed.

Lemma same_topology_shortest_path G G' a b p :
  same_topology G G' -> shortest_path G a b p <-> shortest_path G' a b p.
Proof.
  assert (forall G G', same_topology G G' -> shortest_path G a b p -> shortest_path G' a b p)
    as Hone.
  { intros G1 G2 Hs (Hh & Hl & Hp & Hmin). split_and!; [done|done| |].
    - by apply (same_topology_is_path G1).
    - intros k Hk. apply Hmin. apply (same_topology_walk G2); [by apply same_topology_sym|done]. }
  intros Hs. split; apply Hone; [done|by apply same_topology_sym].
Qed.

Lemma same_topology_shortest_dist G G' a b d :
  same_topology G G' -> shortest_dist G a b d <-> shortest_dist G' a b d.
Proof.
  assert (forall G G', same_topology G G' -> shortest_dist G a b d -> shortest_dist G' a b d)
    as Hone.
  { intros G1 G2 Hs [Hw Hmin]. split; [by apply (same_topology_walk G1)|].
    intros k Hk. apply Hmin. apply (same_topology_walk G2); [by apply same_topology_sym|done]. }
  intros Hs. split; apply Hone; [done|by apply same_topology_sym].
Qed.

Lemma same_topology_addresses G G' (p : list node) :
  same_topology G G' -> map (address G) p = map (address G') p.
Proof. intros (_ & _ & Haddr). apply map_ext. intros u. apply Haddr. Qed.

(** The paths of an entry, by the shortest paths of the graph. *)
Lemma entry_paths_shortest G fuel self prior tbl dest entries e route :
  wf_noc G ->
  update_routes_info fuel G self prior = Done tbl ->
  tbl !! dest = Some entries -> e ∈ entries ->
  route ∈ paths e <->
    second route = Some (next e) /\
    exists p, shortest_path G self dest p /\ route = map (address G) p.
Proof.
  intros G_wf Hupd He Hentry.
  destruct (update_routes_info_lookup _ _ _ _ _ _ _ Hupd He) as (Hin & Hne & Hto).
  destruct (routes_to_shortest G G_wf _ _ _ _ Hin Hto)
    as (routes & Hsp & _ & Hsec & Hnext & Hpaths).
  rewrite Forall_forall in Hpaths.
  rewrite (Hpaths e Hentry), list_elem_of_filter.
  apply and_iff_compat_l. split.
  - intros (p & <- & Hp%list_elem_of_In)%list_elem_of_In%in_map_iff.
    exists p. split; [by apply Hsp|done].
  - intros (p & Hp & ->). by apply list_elem_of_In, in_map, list_elem_of_In, Hsp.
Qed.


End iteration_order.

Lemma mesh_reordered_same : shortest.same_topology mesh.G examples.mesh_reordered.
Proof.
  split_and!; [done| |done].
  intros u. unfold examples.mesh_reordered. cbn. case_decide as Hu; [|done].
  subst u. vm_compute. apply perm_swap.
Qed.

(** C9 as stated fails: [mesh.G] and [examples.mesh_reordered] have the same
    topology, and router 0 prefers router 1 towards router 3 in the table
    built on the first and router 2 in the table built on the second; the
    entries and the shortest paths come in the other order. *)
Lemma routes_info_follow_iteration_order :
  shortest.same_topology mesh.G examples.mesh_reordered /\
  noc_base.all_shortest_paths 100 mesh.G 0 3 = Done [[0; 1; 3]; [0; 2; 3]] /\
  noc_base.all_shortest_paths 100 examples.mesh_reordered 0 3 = Done [[0; 2; 3]; [0; 1; 3]] /\
  noc_base.update_routes_info 100 mesh.G 0 ∅ = Done mesh.table0 /\
  noc_base.update_routes_info 100 examples.mesh_reordered 0 ∅
    = Done examples.table0_reordered /\
  mesh.table0 !! 3
    = Some [ {| noc_base.next := 1; noc_base.paths := [[0; 1; 3]] |};
             {| noc_base.next := 2; noc_base.paths := [[0; 2; 3]] |} ] /\
  examples.table0_reordered !! 3
    = Some [ {| noc_base.next := 2; noc_base.paths := [[0; 2; 3]] |};
             {| noc_base.next := 1; noc_base.paths := [[0; 1; 3]] |} ] /\
  mesh.table0 <> examples.table0_reordered.
Proof.
  assert (mesh.table0 !! 3
          = Some [ {| noc_base.next := 1; noc_base.paths := [[0; 1; 3]] |};
                   {| noc_base.next := 2; noc_base.paths := [[0; 2; 3]] |} ]) as H1
    by (vm_compute; reflexivity).
  assert (examples.table0_reordered !! 3
          = Some [ {| noc_base.next := 2; noc_base.paths := [[0; 2; 3]] |};
                   {| noc_base.next := 1; noc_base.paths := [[0; 1; 3]] |} ]) as H2
    by (vm_compute; reflexivity).
  split_and!; [exact mesh_reordered_same|vm_compute; reflexivity..|exact H1|exact H2|].
  intros Heq.
  pose proof (eq_trans (eq_sym H1) (eq_trans (f_equal (fun t => t !! 3) Heq) H2)) as Habs.
  discriminate Habs.
Qed.

